(** * Stack-greedy orchestrator: a shallow embedding of [greedy_stack_reg.cxx]

    The development follows the source file top to bottom: the bounded
    image cache ([ImageCache]), the slide manifest ([ReadManifest],
    [WriteManifest]) and the project directory ([InitializeProject],
    [RestoreProject], the configuration keys and the file names), the
    neighbour walk, adjacency arrays, edge weights, root selection and
    accumulated transforms of [ReconstructStack], the medoid and the
    iteration-0 transforms of [InitialMatchToVolume], and the reslicing
    and registration schedule of [IterativeMatchToVolume]. [PerLevelSpec]
    of [GreedyParameters.h] comes last.

    Conventions.
    - [unsigned long] and [size_t] are 64-bit, [unsigned int] is 32-bit;
      both are integers in [Z] with the wrap-around written out.
    - [std::map] and [std::set] are key-sorted association lists, because
      the code iterates them in key order and takes [begin()].
    - A [double] that the program keeps in its data (a z position, an
      entry of a matrix file) is kept as the number it stands for, in [Q].
      The stages that compare the results of double arithmetic (the
      neighbour walk, the edge weights, the choice of the median affine)
      are written over an interface of the operations, [Double], with the
      binary64 numbers of IEEE 754 and exact arithmetic as instances. The
      products of matrix files are taken in exact arithmetic, and the root
      selection has an abstract double of its own. *)

From Stdlib Require Import ZArith QArith Qabs List String Ascii Bool Lia.
From Stdlib Require Import DecimalString DecimalNat Sorted.
From Stdlib Require Import Reals Lra.
From Stdlib Require Floats Uint63.
From Equations Require Import Equations.
From Equations.Prop Require Import Logic.
From stdpp Require gmap strings.
Import ListNotations.

#[local] Open Scope Z_scope.

(** ** Machine integers *)

Definition wrap64 (z : Z) : Z := z mod 2 ^ 64.
Definition wrap32 (z : Z) : Z := z mod 2 ^ 32.

(** ** Exceptions *)

Inductive exn :=
| GreedyException (msg : string)     (* thrown by this file *)
| LibraryException.                  (* thrown by a library call *)

Inductive result (A : Type) :=
| Ok (a : A)
| Throw (e : exn).
Arguments Ok {A} _.
Arguments Throw {A} _.

Definition bind {A B : Type} (c : result A) (k : A -> result B) : result B :=
  match c with
  | Ok a => k a
  | Throw e => Throw e
  end.

Notation "x <- c ;; k" := (bind c (fun x => k))
  (at level 100, c at next level, right associativity).

(** ** Ordered containers *)

Section OrdMap.
Context {K V : Type}.
Variable ltb : K -> K -> bool.

(** Two keys are equivalent when neither is less than the other. *)
Definition key_equiv (a b : K) : bool := negb (ltb a b) && negb (ltb b a).

(** [std::map::find]. *)
Fixpoint om_find (k : K) (m : list (K * V)) : option V :=
  match m with
  | [] => None
  | (k', v) :: m' => if key_equiv k k' then Some v else om_find k m'
  end.

(** [m[k] = v]: overwrite an equivalent key, or insert in key order. *)
Fixpoint om_set (k : K) (v : V) (m : list (K * V)) : list (K * V) :=
  match m with
  | [] => [(k, v)]
  | (k', v') :: m' =>
      if ltb k k' then (k, v) :: m
      else if ltb k' k then (k', v') :: om_set k v m'
      else (k', v) :: m'
  end.

(** [std::map::erase] of the entry found under [k]. *)
Fixpoint om_erase (k : K) (m : list (K * V)) : list (K * V) :=
  match m with
  | [] => []
  | (k', v) :: m' => if key_equiv k k' then m' else (k', v) :: om_erase k m'
  end.

Definition om_keys (m : list (K * V)) : list K := map fst m.
End OrdMap.

Section OrdSet.
Context {K : Type}.
Variable ltb : K -> K -> bool.

(** [std::set::insert]: no effect when an equivalent element is present. *)
Fixpoint os_insert (x : K) (s : list K) : list K :=
  match s with
  | [] => [x]
  | y :: s' =>
      if ltb x y then x :: s
      else if ltb y x then y :: os_insert x s'
      else s
  end.

(** [std::set::find], by position. *)
Fixpoint os_index (x : K) (s : list K) : option nat :=
  match s with
  | [] => None
  | y :: s' =>
      if key_equiv ltb x y then Some O
      else option_map S (os_index x s')
  end.
End OrdSet.

(** [operator<] of two doubles that are numbers, on the numbers they
    stand for. *)
Definition Qltb (a b : Q) : bool := negb (Qle_bool b a).

(** [slice_ref] is [std::pair<double, unsigned int>]; pairs compare
    lexicographically. *)
Definition slice_ref : Type := Q * nat.

Definition slice_ref_ltb (a b : slice_ref) : bool :=
  Qltb (fst a) (fst b) || (negb (Qltb (fst b) (fst a)) && Nat.ltb (snd a) (snd b)).

(** ** double

    The operations on [double] that the stages below use. [Dnum] gives
    the double of a number: a literal of the code, or a value that the
    program holds. *)

Class Double (D : Type) := {
  Dnum : Q -> D;
  Dadd : D -> D -> D;         (* + *)
  Dsub : D -> D -> D;         (* - *)
  Dmul : D -> D -> D;         (* * *)
  Ddiv : D -> D -> D;         (* / *)
  Dabs : D -> D;              (* fabs *)
  Dlt : D -> D -> bool;       (* < *)
  Deq : D -> D -> bool        (* == *)
}.

(** Exact arithmetic: what the operations give when none of them rounds,
    on the rationals and, for the stage that calls [pow], on the reals. *)
#[global] Instance rational : Double Q :=
  {| Dnum := fun q => q; Dadd := Qplus; Dsub := Qminus; Dmul := Qmult;
     Ddiv := Qdiv; Dabs := Qabs; Dlt := Qltb; Deq := Qeq_bool |}.

#[global] Instance real : Double R :=
  {| Dnum := Q2R; Dadd := Rplus; Dsub := Rminus; Dmul := Rmult;
     Ddiv := Rdiv; Dabs := Rabs;
     Dlt := fun a b => if Rlt_dec a b then true else false;
     Deq := fun a b => if Req_dec_T a b then true else false |}.

(** The binary64 numbers of IEEE 754, with round to nearest even: the
    arithmetic of the machine. *)
Module Binary64.
Import PrimFloat FloatOps SpecFloat.

Definition of_Z (z : Z) : float :=
  match z with
  | Z0 => zero
  | Zpos p => of_uint63 (Uint63.of_Z (Zpos p))
  | Zneg p => opp (of_uint63 (Uint63.of_Z (Zpos p)))
  end.

(** The double nearest to a quotient, when its numerator and denominator
    are below 2^63 and are doubles themselves, as the integers below 2^53
    and the powers of two are: the two conversions are exact and the
    division rounds once. *)
Definition of_Q (q : Q) : float := div (of_Z (Qnum q)) (of_Z (Zpos (Qden q))).

(** The number that a finite double stands for, in lowest terms; 0 for
    the others. *)
Definition value (x : float) : Q :=
  match Prim2SF x with
  | S754_finite s m e =>
      Qred (inject_Z (if s then Zneg m else Zpos m) * Qpower 2 e)%Q
  | _ => 0%Q
  end.

(** A double that holds a whole number that is not negative. *)
Definition whole (y : float) : option N :=
  match Prim2SF y with
  | S754_zero _ => Some 0%N
  | S754_finite false m e =>
      if 0 <=? e then Some (Npos m * 2 ^ Z.to_N e)%N
      else if Zpos m mod 2 ^ (- e) =? 0 then Some (Z.to_N (Zpos m / 2 ^ (- e)))
      else None
  | _ => None
  end.

(** [pow (x, y)] for an exponent that is a whole number and not
    negative, by repeated squaring and multiplication; it overflows to
    infinity where the power is above every double, as [pow] does. The
    other exponents are left out: [nan] stands for them. *)
Definition pow_whole (x y : float) : float :=
  match whole y with
  | Some N0 => one
  | Some (Npos n) => Pos.iter_op mul n x
  | None => nan
  end.

End Binary64.

#[global] Instance binary64 : Double PrimFloat.float :=
  {| Dnum := Binary64.of_Q; Dadd := PrimFloat.add; Dsub := PrimFloat.sub;
     Dmul := PrimFloat.mul; Ddiv := PrimFloat.div; Dabs := PrimFloat.abs;
     Dlt := PrimFloat.ltb; Deq := PrimFloat.eqb |}.

(** The doubles of a list compare as the numbers [val] gives for them:
    none of them is a NaN. *)
Definition numbers {D : Type} {dbl : Double D} (val : D -> Q) (l : list D) : Prop :=
  forall a b, In a l -> In b l ->
    Dlt a b = Qltb (val a) (val b) /\ Deq a b = Qeq_bool (val a) (val b).

(** ** ImageCache *)

Module Cache.

(** The template argument [TImage] of [GetImage]: a class of images,
    known by a number, with the classes that it derives from. *)
Record ImageType := {
  type_id : nat;
  type_bases : list nat
}.

(** A class that derives from no other class of images. *)
Definition image_class (id : nat) : ImageType :=
  {| type_id := id; type_bases := [] |}.

Coercion image_class : nat >-> ImageType.

(** [dynamic_cast<TImage *>] of a pointer to an object whose dynamic type
    is [dyn]: the cast gives the object when [dyn] is [TImage] or derives
    from it, and a null pointer otherwise. *)
Definition dynamic_cast (TImage dyn : ImageType) : bool :=
  Nat.eqb (type_id dyn) (type_id TImage)
  || existsb (Nat.eqb (type_id TImage)) (type_bases dyn).

(** An image object held through an [itk::Object::Pointer]. *)
Record Image := {
  image_type : ImageType;       (* dynamic type, tested by dynamic_cast *)
  image_file : string;          (* the file it was read from *)
  container_size : Z            (* GetPixelContainer()->Size() *)
}.

(** [CacheEntry]: (age, size, pointer). *)
Record CacheEntry := {
  ce_age : Z;
  ce_size : Z;
  ce_image : Image
}.

Record ImageCache := {
  m_Cache : list (string * CacheEntry);
  m_MaxMemory : Z;
  m_UsedMemory : Z;
  m_MaxImages : Z;
  m_Counter : Z
}.

(** The constructor initialises [m_MaxMemory], [m_MaxImages] and
    [m_Counter] only. [m_UsedMemory] is not in the initialiser list, so it
    keeps whatever the object's storage held: [indeterminate]. *)
Definition new_ImageCache (indeterminate : Z) (max_memory max_images : Z)
  : ImageCache :=
  {| m_Cache := [];
     m_MaxMemory := max_memory;
     m_UsedMemory := indeterminate;
     m_MaxImages := max_images;
     m_Counter := 0 |}.

Definition cache_size (c : ImageCache) : Z := Z.of_nat (List.length (m_Cache c)).

Definition IsCacheFull (c : ImageCache) (new_bytes new_images : Z) : bool :=
  if (0 <? m_MaxMemory c) && (m_MaxMemory c <? wrap64 (m_UsedMemory c + new_bytes))
  then true
  else if (0 <? m_MaxImages c)
          && (m_MaxImages c <? wrap64 (cache_size c + new_images))
  then true
  else false.

(** The [sort_map] built inside the loop of [ShrinkCache]: age to name,
    filled while iterating [m_Cache] in key order. *)
Definition sort_map (c : ImageCache) : list (Z * string) :=
  fold_left (fun sm it => om_set Z.ltb (ce_age (snd it)) (fst it) sm)
            (m_Cache c) [].

(** One pass through the body of the [while] loop of [ShrinkCache].
    [None] stands for dereferencing an end iterator. *)
Definition evict_oldest (c : ImageCache) : option ImageCache :=
  match sort_map c with
  | [] => None
  | (_, oldest) :: _ =>
      match om_find String.ltb oldest (m_Cache c) with
      | None => None
      | Some e =>
          Some {| m_Cache := om_erase String.ltb oldest (m_Cache c);
                  m_MaxMemory := m_MaxMemory c;
                  m_UsedMemory := wrap64 (m_UsedMemory c - ce_size e);
                  m_MaxImages := m_MaxImages c;
                  m_Counter := m_Counter c |}
      end
  end.

Definition loop_condition (c : ImageCache) (new_bytes new_images : Z) : bool :=
  IsCacheFull c new_bytes new_images && (0 <? cache_size c).

(** [ShrinkCache]: the loop runs while the cache is full and not empty;
    every pass erases one entry, so the number of entries is a measure. *)
Equations? ShrinkCache (c : ImageCache) (new_bytes new_images : Z)
  : ImageCache by wf (List.length (m_Cache c)) lt :=
ShrinkCache c new_bytes new_images
  with inspect (loop_condition c new_bytes new_images) := {
  | exist _ false _ => c
  | exist _ true _ with inspect (evict_oldest c) := {
    | exist _ (Some c') Hev => ShrinkCache c' new_bytes new_images
    | exist _ None _ => c } }.
Proof.
  clear ShrinkCache. unfold evict_oldest in Hev.
  destruct (sort_map c) as [|[a oldest] sm]; [discriminate|].
  destruct (om_find String.ltb oldest (m_Cache c)) as [en|] eqn:Hf; [|discriminate].
  injection Hev as <-. cbn [m_Cache]. revert Hf.
  induction (m_Cache c) as [|[k v] m IH]; cbn; [discriminate|].
  destruct (key_equiv String.ltb oldest k); cbn; intros H.
  - apply Nat.lt_succ_diag_r.
  - apply -> Nat.succ_lt_mono. auto.
Defined.

Section Disk.

(** The image reader: the size of the pixel container of the image read
    from a file as a given image type, [None] when [Update()] throws. *)
Variable ImageFileReader : ImageType -> string -> option Z.

(** [sizeof (typename TImage::PixelContainer::Element)]. *)
Variable sizeof_Element : ImageType -> Z.

Definition GetImage (TImage : ImageType) (filename : string) (c : ImageCache)
  : ImageCache * result Image :=
  match om_find String.ltb filename (m_Cache c) with
  | Some it =>
      if dynamic_cast TImage (image_type (ce_image it))
      then (c, Ok (ce_image it))
      else (c, Throw (GreedyException "Type mismatch in image cache"))
  | None =>
      match ImageFileReader TImage filename with
      | None => (c, Throw LibraryException)
      | Some n =>
          let image_ptr :=
            {| image_type := TImage; image_file := filename;
               container_size := n |} in
          let img_size := wrap64 (n * sizeof_Element TImage) in
          let c1 := ShrinkCache c img_size 1 in
          let entry :=
            {| ce_age := m_Counter c1; ce_size := img_size;
               ce_image := image_ptr |} in
          ({| m_Cache := om_set String.ltb filename entry (m_Cache c1);
              m_MaxMemory := m_MaxMemory c1;
              m_UsedMemory := wrap64 (m_UsedMemory c1 + img_size);
              m_MaxImages := m_MaxImages c1;
              m_Counter := wrap64 (m_Counter c1 + 1) |},
           Ok image_ptr)
      end
  end.

End Disk.

Definition PurgeCache (c : ImageCache) : ImageCache :=
  {| m_Cache := [];
     m_MaxMemory := m_MaxMemory c;
     m_UsedMemory := 0;
     m_MaxImages := m_MaxImages c;
     m_Counter := m_Counter c |}.

(** The names resident in the cache, in key order. *)
Definition residents (c : ImageCache) : list string := om_keys (m_Cache c).

(** The sum of the sizes recorded in the entries. *)
Definition entry_bytes (m : list (string * CacheEntry)) : Z :=
  fold_right (fun it acc => ce_size (snd it) + acc) 0 m.

(** A sequence of [GetImage] calls of one image type, results dropped. *)
Definition GetImages (rd : ImageType -> string -> option Z)
  (sz : ImageType -> Z) (T : ImageType) (files : list string)
  (c : ImageCache) : ImageCache :=
  fold_left (fun c f => fst (GetImage rd sz T f c)) files c.

(** A class of images that derives from class 0. *)
Definition derived_image_class : ImageType :=
  {| type_id := 1; type_bases := [0%nat] |}.

(** A disk on which every file reads as 100 elements of 8 bytes. *)
Definition sample_reader (_ : ImageType) (_ : string) : option Z := Some 100.
Definition sample_sizeof (_ : ImageType) : Z := 8.

(** The accounting invariant in the arithmetic of [unsigned long]. *)
Definition accounted (c : ImageCache) : Prop :=
  m_UsedMemory c = wrap64 (entry_bytes (m_Cache c)).

(** The counter is not below the sum of the resident sizes. *)
Definition counter_covers (c : ImageCache) : Prop :=
  entry_bytes (m_Cache c) <= m_UsedMemory c.

Definition sizes_nonneg (c : ImageCache) : Prop :=
  Forall (fun it => 0 <= ce_size (snd it)) (m_Cache c).

(** The byte cap holds for the resident sizes, or a single image is
    resident. *)
Definition within_byte_cap (c : ImageCache) : Prop :=
  wrap64 (entry_bytes (m_Cache c)) <= m_MaxMemory c \/
  (List.length (m_Cache c) <= 1)%nat.

(** A [sort_map] whose keys ascend, as iteration of a [std::map] gives
    them. *)
Definition age_sorted : list (Z * string) -> Prop :=
  StronglySorted (fun x y => fst x < fst y).

End Cache.

(** ** The slide manifest *)

Record SliceData := {
  raw_filename : string;
  unique_id : string;
  z_pos : Q
}.

(** The part of [StackGreedyProject] that the stages below read. *)
Record Project := {
  m_ProjectDir : string;
  m_DefaultImageExt : string;
  reuse : bool;                         (* m_GlobalParam.reuse *)
  m_Slices : list SliceData;
  m_SortedSlices : list slice_ref
}.

Module Manifest.

#[local] Open Scope string_scope.

(** [isspace] in the C locale. *)
Definition isspace (c : ascii) : bool :=
  let n := nat_of_ascii c in
  Nat.eqb n 32 || (Nat.leb 9 n && Nat.leb n 13).

Fixpoint skip_ws (s : string) : string :=
  match s with
  | String c s' => if isspace c then skip_ws s' else s
  | EmptyString => EmptyString
  end.

(** The characters up to the next white space, and what follows them. *)
Fixpoint read_word (s : string) : string * string :=
  match s with
  | String c s' =>
      if isspace c then (EmptyString, s)
      else let (w, r) := read_word s' in (String c w, r)
  | EmptyString => (EmptyString, EmptyString)
  end.

(** [iss >> str]: skip white space, read a word; fails on no character. *)
Definition extract_string (s : string) : option (string * string) :=
  match read_word (skip_ws s) with
  | (EmptyString, _) => None
  | (w, r) => Some (w, r)
  end.

(** The lines that successive [std::getline] calls return. *)
Fixpoint getlines (s : string) : list string :=
  match s with
  | EmptyString => []
  | String c s' =>
      if Ascii.eqb c "010" then EmptyString :: getlines s'
      else match getlines s' with
           | [] => [String c EmptyString]
           | l :: ls => String c l :: ls
           end
  end.

(** A line of blank content: nothing but white space. *)
Definition blank (line : string) : bool :=
  match skip_ws line with EmptyString => true | _ => false end.

(** The white-space delimited fields of a line. *)
Fixpoint fields_fuel (fuel : nat) (s : string) : list string :=
  match fuel with
  | O => []
  | S fuel' =>
      match extract_string s with
      | None => []
      | Some (w, r) => w :: fields_fuel fuel' r
      end
  end.

Definition fields (line : string) : list string :=
  fields_fuel (S (String.length line)) line.

Section Environment.

(** [iss >> d] for a [double], after the leading white space: the number
    read and the rest of the stream, [None] when no number can be read. *)
Variable read_double : string -> option (Q * string).

(** [itksys::SystemTools::FileExists(name, true)]. *)
Variable FileExists : string -> bool.

(** [itksys::SystemTools::CollapseFullPath]. *)
Variable CollapseFullPath : string -> string.

(** [iss >> slice.unique_id >> slice.z_pos >> slice.raw_filename]. *)
Definition extract_slice (f_line : string) : option SliceData :=
  match extract_string f_line with
  | None => None
  | Some (id, r1) =>
      match read_double (skip_ws r1) with
      | None => None
      | Some (z, r2) =>
          match extract_string r2 with
          | None => None
          | Some (fn, _) =>
              Some {| raw_filename := fn; unique_id := id; z_pos := z |}
          end
      end
  end.

(** The body of the [while (std::getline ...)] loop, over the lines left. *)
Fixpoint ReadManifest_loop (lines : list string) (p : Project)
  : Project * result unit :=
  match lines with
  | [] => (p, Ok tt)
  | f_line :: rest =>
      match extract_slice f_line with
      | None =>
          (p, Throw (GreedyException
                       ("Error reading manifest file, line " ++ f_line)))
      | Some slice =>
          if negb (FileExists (raw_filename slice))
          then (p, Throw (GreedyException
                            ("File " ++ raw_filename slice
                             ++ " referenced in the manifest does not exist")))
          else
            let slice' :=
              {| raw_filename := CollapseFullPath (raw_filename slice);
                 unique_id := unique_id slice;
                 z_pos := z_pos slice |} in
            ReadManifest_loop rest
              {| m_ProjectDir := m_ProjectDir p;
                 m_DefaultImageExt := m_DefaultImageExt p;
                 reuse := reuse p;
                 m_Slices := m_Slices p ++ [slice'];
                 m_SortedSlices :=
                   os_insert slice_ref_ltb
                     (z_pos slice, List.length (m_Slices p))
                     (m_SortedSlices p) |}
      end
  end.

(** [ReadManifest], on the content of the manifest file. *)
Definition ReadManifest (manifest : string) (p : Project)
  : Project * result unit :=
  ReadManifest_loop (getlines manifest)
    {| m_ProjectDir := m_ProjectDir p;
       m_DefaultImageExt := m_DefaultImageExt p;
       reuse := reuse p;
       m_Slices := [];
       m_SortedSlices := [] |}.

(** A line that yields a slide whose file exists. *)
Definition line_ok (l : string) : Prop :=
  exists s, extract_slice l = Some s /\ FileExists (raw_filename s) = true.

(** A line on which [ReadManifest] throws. *)
Definition line_bad (l : string) : Prop :=
  extract_slice l = None \/
  exists s, extract_slice l = Some s /\ FileExists (raw_filename s) = false.

(** The slide stored for a line: the one extracted, its path collapsed. *)
Definition stored_for (l : string) (s : SliceData) : Prop :=
  exists s0, extract_slice l = Some s0 /\
    s = {| raw_filename := CollapseFullPath (raw_filename s0);
           unique_id := unique_id s0; z_pos := z_pos s0 |}.

End Environment.

(** *** A sample environment

    A decimal reader standing in for the library's [double] extraction:
    an optional minus sign, digits, and an optional fraction. *)

Definition digit_of (c : ascii) : option Z :=
  let n := nat_of_ascii c in
  if Nat.leb 48 n && Nat.leb n 57 then Some (Z.of_nat (n - 48)) else None.

(** Digits read, their value, their number, and the rest. *)
Fixpoint read_digits (s : string) (acc : Z) (count : nat) : Z * nat * string :=
  match s with
  | String c s' =>
      match digit_of c with
      | Some d => read_digits s' (10 * acc + d)%Z (S count)
      | None => (acc, count, s)
      end
  | EmptyString => (acc, count, s)
  end.

Definition sample_read_double (s : string) : option (Q * string) :=
  let (negative, s1) :=
    match s with
    | String "-" r => (true, r)
    | _ => (false, s)
    end in
  let '(i, ni, s2) := read_digits s1 0%Z O in
  let '(f, nf, s3) :=
    match s2 with
    | String "." r => read_digits r 0%Z O
    | _ => (0%Z, O, s2)
    end in
  if Nat.eqb (ni + nf) 0 then None
  else
    let v := Qplus (inject_Z i) (Qmake f (Pos.pow 10 (Pos.of_nat nf))) in
    Some (if negative then Qopp v else v, s3).

(** A disk on which the files under [/data/] exist. *)
Definition sample_FileExists (name : string) : bool := String.prefix "/data/" name.

Definition sample_CollapseFullPath (name : string) : string := name.

Definition newline : string := String "010" EmptyString.

Definition empty_project : Project :=
  {| m_ProjectDir := "/proj"; m_DefaultImageExt := "nii.gz"; reuse := false;
     m_Slices := []; m_SortedSlices := [] |}.

(** Two slides with an empty line between them. *)
Definition manifest_with_blank_line : string :=
  "s1 0 /data/a.png" ++ newline ++ newline ++ "s2 1.5 /data/b.png" ++ newline.

Definition manifest_two_slides : string :=
  "s1 0 /data/a.png" ++ newline ++ "s2 1.5 /data/b.png" ++ newline.

(** *** Writing the manifest *)

Section Output.

(** [fout << slice.z_pos] for a [double]. *)
Variable print_double : Q -> string.

(** The line of a slide, without the [std::endl]. *)
Definition manifest_line (slice : SliceData) : string :=
  unique_id slice ++ " " ++ print_double (z_pos slice) ++ " "
  ++ raw_filename slice.

(** [WriteManifest]: the content written to the manifest file. *)
Fixpoint WriteManifest (slices : list SliceData) : string :=
  match slices with
  | [] => EmptyString
  | slice :: rest => manifest_line slice ++ newline ++ WriteManifest rest
  end.

End Output.

(** A word: at least one character, none of them white space. *)
Definition is_word (w : string) : Prop :=
  w <> EmptyString /\
  forall c, In c (list_ascii_of_string w) -> isspace c = false.

(** The number printed for [z] is a word that the reader reads back as
    [z], up to the blank that follows it. *)
Definition reads_back (print_double : Q -> string)
  (read_double : string -> option (Q * string)) (z : Q) : Prop :=
  is_word (print_double z) /\
  forall rest, read_double (print_double z ++ " " ++ rest) = Some (z, " " ++ rest).

(** A slide that a manifest can carry: id and file name are words, the
    position reads back, the file exists under a name that is already
    collapsed. *)
Definition restorable (print_double : Q -> string)
  (read_double : string -> option (Q * string)) (FileExists : string -> bool)
  (CollapseFullPath : string -> string) (s : SliceData) : Prop :=
  is_word (unique_id s) /\ is_word (raw_filename s) /\
  reads_back print_double read_double (z_pos s) /\
  FileExists (raw_filename s) = true /\
  CollapseFullPath (raw_filename s) = raw_filename s.

(** A printer for the two positions of the sample manifest. *)
Definition sample_print_double (z : Q) : string :=
  if Qeq_bool z (3 # 2)%Q then "1.5" else "0".

(** The slides that [manifest_two_slides] gives with the sample reader. *)
Definition restored_slides : list SliceData :=
  [ {| raw_filename := "/data/a.png"; unique_id := "s1"; z_pos := (0 # 10)%Q |};
    {| raw_filename := "/data/b.png"; unique_id := "s2"; z_pos := (15 # 10)%Q |} ].

End Manifest.


(** ** File names in the project directory *)

Module Files.

#[local] Open Scope string_scope.

Inductive FileIntent :=
| MANIFEST_FILE | CONFIG_ENTRY | AFFINE_MATRIX | METRIC_VALUE | ACCUM_MATRIX
| ACCUM_RESLICE | VOL_INIT_MATRIX | VOL_SLIDE | VOL_MEDIAN_INIT_MATRIX
| VOL_ITER_MATRIX | VOL_ITER_WARP | ITER_METRIC_DUMP.

(** The conversion [%02d] of [sprintf], for an argument that is not
    negative. The argument is read as an [int]: the conversion is that of
    the code for iterations below 2^31. *)
Definition fmt_02d (n : nat) : string :=
  let digits := NilEmpty.string_of_uint (Nat.to_uint n) in
  if Nat.ltb (String.length digits) 2 then "0" ++ digits else digits.



Definition GetFilenameForSlicePair (p : Project) (ref mov : SliceData)
  (intent : FileIntent) : result string :=
  let dir := m_ProjectDir p in
  let rid := unique_id ref in
  let mid := unique_id mov in
  match intent with
  | AFFINE_MATRIX =>
      Ok (dir ++ "/recon/nbr/affine_ref_" ++ rid ++ "_mov_" ++ mid ++ ".mat")
  | METRIC_VALUE =>
      Ok (dir ++ "/recon/nbr/affine_ref_" ++ rid ++ "_mov_" ++ mid
          ++ "_metric.txt")
  | _ => Throw (GreedyException "Wrong intent in GetFilenameForSlicePair")
  end.

(** [iter] is the variadic argument, read for the three per-iteration
    intents only. *)
Definition GetFilenameForSlice (p : Project) (slice : SliceData)
  (intent : FileIntent) (iter : nat) : result string :=
  let dir := m_ProjectDir p in
  let ext := m_DefaultImageExt p in
  let sid := unique_id slice in
  match intent with
  | ACCUM_MATRIX => Ok (dir ++ "/recon/accum/accum_affine_" ++ sid ++ ".mat")
  | ACCUM_RESLICE =>
      Ok (dir ++ "/recon/accum/accum_affine_" ++ sid ++ "_reslice." ++ ext)
  | VOL_INIT_MATRIX =>
      Ok (dir ++ "/vol/match/affine_refvol_mov_" ++ sid ++ ".mat")
  | VOL_SLIDE => Ok (dir ++ "/vol/slides/vol_slide_" ++ sid ++ "." ++ ext)
  | VOL_ITER_MATRIX =>
      Ok (dir ++ "/vol/iter" ++ fmt_02d iter ++ "/affine_refvol_mov_" ++ sid
          ++ "_iter" ++ fmt_02d iter ++ ".mat")
  | VOL_ITER_WARP =>
      Ok (dir ++ "/vol/iter" ++ fmt_02d iter ++ "/warp_refvol_mov_" ++ sid
          ++ "_iter" ++ fmt_02d iter ++ "." ++ ext)
  | ITER_METRIC_DUMP =>
      Ok (dir ++ "/vol/iter" ++ fmt_02d iter ++ "/metric_refvol_mov_" ++ sid
          ++ "_iter" ++ fmt_02d iter ++ ".txt")
  | _ => Throw (GreedyException "Wrong intent in GetFilenameForSlice")
  end.

(** [key] is the variadic argument, read for [CONFIG_ENTRY] only. *)
Definition GetFilenameForGlobal (p : Project) (intent : FileIntent)
  (key : string) : result string :=
  let dir := m_ProjectDir p in
  match intent with
  | VOL_MEDIAN_INIT_MATRIX => Ok (dir ++ "/vol/match/affine_refvol_median.mat")
  | MANIFEST_FILE => Ok (dir ++ "/config/manifest.txt")
  | CONFIG_ENTRY => Ok (dir ++ "/config/dict/" ++ key)
  | _ => Throw (GreedyException "Wrong intent in GetFilenameForGlobal")
  end.

(** The names of the two matrix files of a slide that the last loop of
    [InitialMatchToVolume] touches, and of the median file. *)
Definition accum_name (p : Project) (s : SliceData) : string :=
  m_ProjectDir p ++ "/recon/accum/accum_affine_" ++ unique_id s ++ ".mat".

Definition iter0_name (p : Project) (s : SliceData) : string :=
  m_ProjectDir p ++ "/vol/iter00/affine_refvol_mov_" ++ unique_id s
  ++ "_iter00.mat".

Definition init_name (p : Project) (s : SliceData) : string :=
  m_ProjectDir p ++ "/vol/match/affine_refvol_mov_" ++ unique_id s ++ ".mat".

Definition median_name (p : Project) : string :=
  m_ProjectDir p ++ "/vol/match/affine_refvol_median.mat".

(** The names of the matrix file and of the warp file of a slide at an
    iteration of the refinement. *)
Definition iter_matrix_name (p : Project) (s : SliceData) (iter : nat) : string :=
  m_ProjectDir p ++ "/vol/iter" ++ fmt_02d iter ++ "/affine_refvol_mov_"
  ++ unique_id s ++ "_iter" ++ fmt_02d iter ++ ".mat".

Definition iter_warp_name (p : Project) (s : SliceData) (iter : nat) : string :=
  m_ProjectDir p ++ "/vol/iter" ++ fmt_02d iter ++ "/warp_refvol_mov_"
  ++ unique_id s ++ "_iter" ++ fmt_02d iter ++ "." ++ m_DefaultImageExt p.


End Files.

(** ** The project directory: manifest copy and configuration *)

Module ProjectFiles.
Import Files Manifest.

#[local] Open Scope string_scope.

(** [m_SortedSlices] as [ReadManifest] fills it for the slides from
    position [k] on. *)
Fixpoint insert_refs (k : nat) (slices : list SliceData)
  (sorted : list slice_ref) : list slice_ref :=
  match slices with
  | [] => sorted
  | slice :: rest =>
      insert_refs (S k) rest (os_insert slice_ref_ltb (z_pos slice, k) sorted)
  end.

Section Store.
Import stdpp.base stdpp.gmap stdpp.strings.

(** The library calls of [WriteManifest] and [ReadManifest]. *)
Variable print_double : Q -> string.
Variable read_double : string -> option (Q * string).
Variable FileExists : string -> bool.
Variable CollapseFullPath : string -> string.

(** The text files are a map from their names to their contents.
    [ReadManifest] on a file name: [std::ifstream fin (fn)] on a file that
    cannot be opened gives a stream from which nothing is read, the same
    as an empty file. *)
Definition ReadManifest_file (fn_manifest : string) (p : Project) (fs : gmap string string)
  : Project * result unit :=
  ReadManifest read_double FileExists CollapseFullPath
    (match fs !! fn_manifest with Some content => content | None => EmptyString end)
    p.

(** [WriteManifest] on a file name: [std::ofstream fout (fn)] replaces the
    content of the file; the model takes the file to be writable. *)
Definition WriteManifest_file (fn_manifest : string) (p : Project) (fs : gmap string string)
  : gmap string string :=
  <[fn_manifest := WriteManifest print_double (m_Slices p)]> fs.

(** [SaveConfigKey<std::string>]. *)
Definition SaveConfigKey (p : Project) (key value : string) (fs : gmap string string)
  : result (gmap string string) :=
  fn <- GetFilenameForGlobal p CONFIG_ENTRY key ;;
  Ok (<[fn := value]> fs).

(** [LoadConfigKey<std::string>]: [fin >> value] reads one word into a
    string that starts empty. *)
Definition LoadConfigKey (p : Project) (key def_value : string) (fs : gmap string string)
  : result string :=
  fn <- GetFilenameForGlobal p CONFIG_ENTRY key ;;
  match fs !! fn with
  | Some content =>
      Ok (match extract_string content with
          | Some (value, _) => value
          | None => EmptyString
          end)
  | None => Ok def_value
  end.

(** [m_DefaultImageExt = ext]. *)
Definition set_DefaultImageExt (ext : string) (p : Project) : Project :=
  {| m_ProjectDir := m_ProjectDir p;
     m_DefaultImageExt := ext;
     reuse := reuse p;
     m_Slices := m_Slices p;
     m_SortedSlices := m_SortedSlices p |}.

(** [InitializeProject]: read the manifest, write its copy, save the
    default extension. An exception leaves the function, and the model
    then gives the exception only. *)
Definition InitializeProject (fn_manifest default_ext : string) (p : Project)
  (fs : gmap string string) : result (Project * gmap string string) :=
  let (p1, r) := ReadManifest_file fn_manifest p fs in
  _ <- r ;;
  fn <- GetFilenameForGlobal p1 MANIFEST_FILE EmptyString ;;
  let fs1 := WriteManifest_file fn p1 fs in
  let p2 := set_DefaultImageExt default_ext p1 in
  fs2 <- SaveConfigKey p2 "DefaultImageExt" (m_DefaultImageExt p2) fs1 ;;
  Ok (p2, fs2).

(** [RestoreProject]: read the manifest copy, load the default extension
    with the default ".nii.gz". *)
Definition RestoreProject (p : Project) (fs : gmap string string) : result Project :=
  fn <- GetFilenameForGlobal p MANIFEST_FILE EmptyString ;;
  let (p1, r) := ReadManifest_file fn p fs in
  _ <- r ;;
  ext <- LoadConfigKey p1 "DefaultImageExt" ".nii.gz" fs ;;
  Ok (set_DefaultImageExt ext p1).

(** A store with a manifest of two slides outside the project directory,
    and what [InitializeProject] makes of it in [/proj]. *)
Definition sample_text_files : gmap string string :=
  <[ "/in/manifest.txt"%string := manifest_two_slides ]> ∅.

Definition initialized_project : Project :=
  {| m_ProjectDir := "/proj"; m_DefaultImageExt := "nii.gz"; reuse := false;
     m_Slices := restored_slides;
     m_SortedSlices := [(0 # 10, 0%nat); (15 # 10, 1%nat)] |}.

Definition initialized_files : gmap string string :=
  <[ "/proj/config/dict/DefaultImageExt"%string := "nii.gz"%string ]>
  (<[ "/proj/config/manifest.txt"%string
      := WriteManifest sample_print_double restored_slides ]>
   sample_text_files).

End Store.
End ProjectFiles.

(** ** ReconstructStack: the neighbour sets *)

Module Neighbors.

(** [v[i] = f (v[i])] on a [std::vector]; the code never indexes out of
    range, where this leaves the vector as it is. *)
Fixpoint vector_update {A : Type} (i : nat) (f : A -> A) (v : list A) : list A :=
  match v, i with
  | [], _ => []
  | x :: v', O => f x :: v'
  | x :: v', S i' => x :: vector_update i' f v'
  end.

Section Arithmetic.
Context {D : Type} {dbl : Double D}.

(** [fabs (it->first - it_next->first) < z_range], in the arithmetic of
    [double]. *)
Definition in_range (it it_next : slice_ref) (z_range : D) : bool :=
  Dlt (Dabs (Dsub (Dnum (fst it)) (Dnum (fst it_next)))) z_range.

(** The inner [while] loop: [cands] are the elements from [it_next] to the
    end of the iteration, the state is [slice_nbr] and [n_edges]. *)
Fixpoint nbr_walk (it : slice_ref) (z_range : D) (cands : list slice_ref)
  (n_added : nat) (st : list (list slice_ref) * nat)
  : list (list slice_ref) * nat :=
  match cands with
  | [] => st
  | it_next :: rest =>
      if Nat.ltb n_added 1 || in_range it it_next z_range
      then nbr_walk it z_range rest (S n_added)
             (vector_update (snd it) (os_insert slice_ref_ltb it_next) (fst st),
              S (snd st))
      else st
  end.

(** One pass over the slides in the order given: [m_SortedSlices] from
    [begin()] for the first loop, from [rbegin()] for the second. *)
Fixpoint nbr_pass (order : list slice_ref) (z_range : D)
  (st : list (list slice_ref) * nat) : list (list slice_ref) * nat :=
  match order with
  | [] => st
  | it :: rest => nbr_pass rest z_range (nbr_walk it z_range rest 0 st)
  end.

(** [slice_nbr] and [n_edges] after both passes. *)
Definition build_neighbors (p : Project) (z_range : D)
  : list (list slice_ref) * nat :=
  nbr_pass (rev (m_SortedSlices p)) z_range
    (nbr_pass (m_SortedSlices p) z_range
       (repeat [] (List.length (m_Slices p)), O)).

(** The candidates that one walk inserts, in the order of insertion. *)
Fixpoint added (it : slice_ref) (z_range : D) (cands : list slice_ref)
  (n_added : nat) : list slice_ref :=
  match cands with
  | [] => []
  | it_next :: rest =>
      if Nat.ltb n_added 1 || in_range it it_next z_range
      then it_next :: added it z_range rest (S n_added)
      else []
  end.

End Arithmetic.

(** The indices in [m_SortedSlices] are distinct and within [m_Slices]. *)
Definition indexed (p : Project) : Prop :=
  NoDup (map snd (m_SortedSlices p)) /\
  forall x, In x (m_SortedSlices p) -> (snd x < List.length (m_Slices p))%nat.

(** The z-gap between two slides, as a number. *)
Definition z_gap (a b : slice_ref) : Q := Qabs (fst a - fst b).

(** Three slides at z = 0, 1, 2 in manifest order. *)
Definition three_slides : Project :=
  {| m_ProjectDir := "/proj"; m_DefaultImageExt := "nii.gz"; reuse := false;
     m_Slices :=
       [ {| raw_filename := "/data/a.png"; unique_id := "s0"; z_pos := 0%Q |};
         {| raw_filename := "/data/b.png"; unique_id := "s1"; z_pos := 1%Q |};
         {| raw_filename := "/data/c.png"; unique_id := "s2"; z_pos := 2%Q |} ];
     m_SortedSlices := [(0%Q, 0%nat); (1%Q, 1%nat); (2%Q, 2%nat)] |}.

(** Three slides at z = 2^-54, 1/2 and 1: the double nearest to the gap
    between the first and the last, 1 - 2^-54, is 1. *)
Definition three_close_slides : Project :=
  {| m_ProjectDir := "/proj"; m_DefaultImageExt := "nii.gz"; reuse := false;
     m_Slices :=
       [ {| raw_filename := "/data/a.png"; unique_id := "s0";
            z_pos := (1 # 2 ^ 54)%Q |};
         {| raw_filename := "/data/b.png"; unique_id := "s1";
            z_pos := (1 # 2)%Q |};
         {| raw_filename := "/data/c.png"; unique_id := "s2"; z_pos := 1%Q |} ];
     m_SortedSlices :=
       [((1 # 2 ^ 54)%Q, 0%nat); ((1 # 2)%Q, 1%nat); (1%Q, 2%nat)] |}.

(** [operator<] on [slice_ref] as a relation, and what [ReadManifest]
    keeps true of [m_SortedSlices]: it ascends, has one element per slide,
    and holds the position of every slide under the slide's index. *)
Definition slice_ref_lt (a b : slice_ref) : Prop := slice_ref_ltb a b = true.

Definition well_sorted (p : Project) : Prop :=
  StronglySorted slice_ref_lt (m_SortedSlices p) /\
  List.length (m_SortedSlices p) = List.length (m_Slices p) /\
  forall k s, nth_error (m_Slices p) k = Some s ->
              In (z_pos s, k) (m_SortedSlices p).

End Neighbors.

(** ** ReconstructStack: the edge weights *)

Module EdgeWeights.
Import Neighbors.

(** [G_adjidx] after its loop: the sizes of the neighbour sets, summed
    from 0; one entry more than there are slides. *)
Fixpoint adjidx_from (acc : nat) (slice_nbr : list (list slice_ref)) : list nat :=
  match slice_nbr with
  | [] => [acc]
  | nbr :: rest => acc :: adjidx_from (acc + List.length nbr) rest
  end.

Definition G_adjidx (slice_nbr : list (list slice_ref)) : list nat :=
  adjidx_from 0 slice_nbr.

(** The number of elements in all the neighbour sets. *)
Definition sum_sizes (slice_nbr : list (list slice_ref)) : nat :=
  list_sum (map (@List.length slice_ref) slice_nbr).

(** [G_adj]: the indices of the neighbours, set after set. *)
Definition G_adj (slice_nbr : list (list slice_ref)) : list nat :=
  List.concat (map (map snd) slice_nbr).

Section Engine.
Context {D : Type} {dbl : Double D}.

(** [pow] of [<cmath>]. *)
Variable pow : D -> D -> D.

Variable z_epsilon : D.

(** [DijkstraShortestPath<double>::INFINITE_WEIGHT], a constant of
    [ShortestPath.h]. *)
Variable INFINITE_WEIGHT : D.

(** [CanSkipFile (fn_matrix) && CanSkipFile (fn_metric)] for the pair of a
    reference and a moving slide, and the number read from the metric
    file in that case. *)
Variable can_skip : nat -> nat -> bool.
Variable stored_metric : nat -> nat -> D.

(** [greedy_api.GetLastMetricReport().TotalMetric] after the registration
    of the pair, and [i_ref->GetNumberOfComponentsPerPixel()]. *)
Variable TotalMetric : nat -> nat -> D.
Variable NumberOfComponentsPerPixel : nat -> nat.

(** [pair_metric /= -10000.0 * i_ref->GetNumberOfComponentsPerPixel()]. *)
Definition normalized (raw : D) (n_components : nat) : D :=
  Ddiv raw (Dmul (Dnum (-10000)) (Dnum (inject_Z (Z.of_nat n_components)))).

(** [pair_metric] where the weight is computed. *)
Definition pair_metric (ref mov : nat) : D :=
  if can_skip ref mov then stored_metric ref mov
  else normalized (TotalMetric ref mov) (NumberOfComponentsPerPixel ref).

(** [(1.0 - pair_metric) * pow (1 + z_epsilon, fabs (it_n.first - it.first))]. *)
Definition weight (it it_n : slice_ref) : D :=
  Dmul (Dsub (Dnum 1) (pair_metric (snd it) (snd it_n)))
       (pow (Dadd (Dnum 1) z_epsilon)
            (Dabs (Dsub (Dnum (fst it_n)) (Dnum (fst it))))).

(** The loop over the neighbours of [it]: the weight of the neighbour at
    position [n_pos] goes to the slot [G_adjidx[it.second] + n_pos]. *)
Fixpoint record_weights (it : slice_ref) (nbr : list slice_ref)
  (base n_pos : nat) (G_edge_weight : list D) : list D :=
  match nbr with
  | [] => G_edge_weight
  | it_n :: rest =>
      record_weights it rest base (S n_pos)
        (vector_update (base + n_pos) (fun _ => weight it it_n) G_edge_weight)
  end.

(** The loop over [m_SortedSlices]. *)
Fixpoint register_pairs (sorted : list slice_ref)
  (slice_nbr : list (list slice_ref)) (G_edge_weight : list D) : list D :=
  match sorted with
  | [] => G_edge_weight
  | it :: rest =>
      register_pairs rest slice_nbr
        (record_weights it (nth (snd it) slice_nbr [])
           (nth (snd it) (G_adjidx slice_nbr) O) 0 G_edge_weight)
  end.

(** [G_edge_weight] when the registrations are done. *)
Definition edge_weights (p : Project) (z_range : D) : list D :=
  let slice_nbr := fst (build_neighbors p z_range) in
  let n_edges := snd (build_neighbors p z_range) in
  register_pairs (m_SortedSlices p) slice_nbr (repeat INFINITE_WEIGHT n_edges).

End Engine.

(** The value of the weight as a number:
    (1 - metric) (1 + z_epsilon)^dz, for a base above 0. *)
Definition weight_value (z_epsilon metric dz : R) : R :=
  ((1 - metric) * Rpower (1 + z_epsilon) dz)%R.

(** Two slides at z = 0 and z = 8192. *)
Definition two_far_slides : Project :=
  {| m_ProjectDir := "/proj"; m_DefaultImageExt := "nii.gz"; reuse := false;
     m_Slices :=
       [ {| raw_filename := "/data/a.png"; unique_id := "s0"; z_pos := 0%Q |};
         {| raw_filename := "/data/b.png"; unique_id := "s1";
            z_pos := 8192%Q |} ];
     m_SortedSlices := [(0%Q, 0%nat); (8192%Q, 1%nat)] |}.

End EdgeWeights.

(** ** ReconstructStack: the root of the tree *)

Module Root.

Section Distances.

(** [double] with the operations the loop uses: [0.0], [+=] and [>]. *)
Variable D : Type.
Variable D0 : D.
Variable Dadd : D -> D -> D.
Variable Dgt : D -> D -> bool.

(** [dijkstra.GetDistanceArray()[j]] after
    [dijkstra.ComputePathsFromSource(i)], as a function of [i] and [j]. *)
Variable GetDistanceArray : nat -> nat -> D.

(** The inner loop: [root_dist += dijkstra.GetDistanceArray()[j]]. *)
Definition root_dist (n : nat) (i : nat) : D :=
  fold_left (fun acc j => Dadd acc (GetDistanceArray i j)) (seq 0 n) D0.

(** One pass of the outer loop on the state [(i_root, best_root_dist)]. *)
Definition root_step (n : nat) (st : nat * D) (i : nat) : nat * D :=
  let rd := root_dist n i in
  if Nat.eqb i 0 || Dgt (snd st) rd then (i, rd) else st.

(** [i_root] and [best_root_dist] after the loop over [n] slides. *)
Definition select_root (n : nat) : nat * D :=
  fold_left (root_step n) (seq 0 n) (O, D0).

End Distances.

(** [>] of [double] on the rationals. *)
Definition Qgtb (a b : Q) : bool := Qltb b a.


(** Distance arrays of two slides joined by edges of equal weight: the
    totals are equal. *)
Definition pair_distances (i j : nat) : Q := if Nat.eqb i j then 0%Q else 1%Q.

End Root.

(** ** InitialMatchToVolume: the median affine and iteration 0 *)

(** [vnl_matrix_fixed<double, 3, 3>], entries in the order of the data
    block. *)
Record Mat3 := mat3 {
  e00 : Q; e01 : Q; e02 : Q;
  e10 : Q; e11 : Q; e12 : Q;
  e20 : Q; e21 : Q; e22 : Q
}.

Module Matrix.

#[local] Open Scope Q_scope.

Definition data_block (m : Mat3) : list Q :=
  [e00 m; e01 m; e02 m; e10 m; e11 m; e12 m; e20 m; e21 m; e22 m].

Section Arithmetic.
Context {D : Type} {dbl : Double D}.

(** The data block of [a - b]: the differences of the entries. *)
Definition msub (a b : Mat3) : list D :=
  map (fun xy => Dsub (Dnum (fst xy)) (Dnum (snd xy)))
      (combine (data_block a) (data_block b)).

(** [array_one_norm]: the absolute values of the entries, summed from 0. *)
Definition array_one_norm (m : list D) : D :=
  fold_left (fun acc x => Dadd acc (Dabs x)) m (Dnum 0).

(** [vnl_vector::min_value]: the first element, lowered by every later
    element that is less; the library asserts that there is an element. *)
Definition min_value (v : list D) : D :=
  match v with
  | [] => Dnum 0
  | x :: rest => fold_left (fun tmp y => if Dlt y tmp then y else tmp) rest x
  end.

(** [std::find (v.begin(), v.end(), x) - v.begin()]: the position of the
    first element equal to [x], the size of [v] when there is none. *)
Fixpoint find_index (v : list D) (x : D) : nat :=
  match v with
  | [] => O
  | y :: rest => if Deq y x then O else S (find_index rest x)
  end.

End Arithmetic.

(** The products of matrix files are taken in exact arithmetic. *)

(** One entry of a product: a row times a column, summed from 0. *)
Definition dot3 (x0 x1 x2 y0 y1 y2 : Q) : Q := 0 + x0 * y0 + x1 * y1 + x2 * y2.

(** [a * b], rows of [a] by columns of [b]. *)
Definition mmul (a b : Mat3) : Mat3 :=
  mat3 (dot3 (e00 a) (e01 a) (e02 a) (e00 b) (e10 b) (e20 b))
       (dot3 (e00 a) (e01 a) (e02 a) (e01 b) (e11 b) (e21 b))
       (dot3 (e00 a) (e01 a) (e02 a) (e02 b) (e12 b) (e22 b))
       (dot3 (e10 a) (e11 a) (e12 a) (e00 b) (e10 b) (e20 b))
       (dot3 (e10 a) (e11 a) (e12 a) (e01 b) (e11 b) (e21 b))
       (dot3 (e10 a) (e11 a) (e12 a) (e02 b) (e12 b) (e22 b))
       (dot3 (e20 a) (e21 a) (e22 a) (e00 b) (e10 b) (e20 b))
       (dot3 (e20 a) (e21 a) (e22 a) (e01 b) (e11 b) (e21 b))
       (dot3 (e20 a) (e21 a) (e22 a) (e02 b) (e12 b) (e22 b)).

Definition identity : Mat3 := mat3 1 0 0 0 1 0 0 0 1.

End Matrix.

Module VolumeMatch.
Import Files Matrix.

#[local] Open Scope Q_scope.

Section Arithmetic.
Context {D : Type} {dbl : Double D}.

(** [aff_dist] after the double loop: filled with 0, then set at [(i, j)]
    and [(j, i)] for [j < i] to the norm of [vol_affine[i] - vol_affine[j]]. *)
Definition aff_dist (vol_affine : list Mat3) (i j : nat) : D :=
  if Nat.ltb j i
  then array_one_norm (msub (nth i vol_affine identity) (nth j vol_affine identity))
  else if Nat.ltb i j
  then array_one_norm (msub (nth j vol_affine identity) (nth i vol_affine identity))
  else Dnum 0.

(** [row_sums = aff_dist * vnl_vector<double>(n, 1.0)]: every row times
    the vector of ones, summed from 0. *)
Definition row_sum (vol_affine : list Mat3) (i : nat) : D :=
  fold_left (fun acc j => Dadd acc (Dmul (aff_dist vol_affine i j) (Dnum 1)))
            (seq 0 (List.length vol_affine)) (Dnum 0).

Definition row_sums (vol_affine : list Mat3) : list D :=
  map (row_sum vol_affine) (seq 0 (List.length vol_affine)).

Definition idx_best (vol_affine : list Mat3) : nat :=
  find_index (row_sums vol_affine) (min_value (row_sums vol_affine)).

End Arithmetic.

(** The entry-wise L1 distance of two matrices, and the sum over the
    slides [i] of the distance from a matrix [M] to [vol_affine[i]], as
    the specification writes them: numbers. *)
Definition l1_distance (a b : Mat3) : Q :=
  Qabs (e00 a - e00 b) + Qabs (e01 a - e01 b) + Qabs (e02 a - e02 b)
  + Qabs (e10 a - e10 b) + Qabs (e11 a - e11 b) + Qabs (e12 a - e12 b)
  + Qabs (e20 a - e20 b) + Qabs (e21 a - e21 b) + Qabs (e22 a - e22 b).

Definition sum_of_distances (vol_affine : list Mat3) (M : Mat3) : Q :=
  fold_left (fun acc i => acc + l1_distance M (nth i vol_affine identity))
            (seq 0 (List.length vol_affine)) 0.

(** *** The matrix files and the second half of [InitialMatchToVolume] *)

Section MatrixFiles.
Import stdpp.base stdpp.gmap stdpp.strings.
Context {D : Type} {dbl : Double D}.

(** Modelled from the spec: [GreedyAPI::ReadAffineMatrix] is defined
    outside [greedy_stack_reg.cxx]. Section 6 gives [read_affine (path)]
    returning a 3x3 matrix; a file holds the matrix last written to it,
    and reading a file that does not exist throws. *)
Definition ReadAffineMatrix (fs : gmap string Mat3) (fn : string) : result Mat3 :=
  match fs !! fn with
  | Some m => Ok m
  | None => Throw LibraryException
  end.

(** Modelled from the spec: [GreedyAPI::WriteAffineMatrix] is defined
    outside [greedy_stack_reg.cxx]. Section 6 gives
    [write_affine (path, 3x3)]: the file then holds that matrix. *)
Definition WriteAffineMatrix (fs : gmap string Mat3) (fn : string) (m : Mat3)
  : gmap string Mat3 := <[fn := m]> fs.

(** The loop that fills [vol_affine] from the [VOL_INIT_MATRIX] files. *)
Fixpoint read_vol_affine (p : Project) (fs : gmap string Mat3)
  (slices : list SliceData) : result (list Mat3) :=
  match slices with
  | [] => Ok []
  | slice :: rest =>
      fn_vol_init_matrix <- GetFilenameForSlice p slice VOL_INIT_MATRIX 0 ;;
      m <- ReadAffineMatrix fs fn_vol_init_matrix ;;
      ms <- read_vol_affine p fs rest ;;
      Ok (m :: ms)
  end.

(** [median_affine = vol_affine[idx_best]]; with no slide, or when
    [std::find] has not found the minimum among the row sums, the index
    is out of range, which the model reports as a library failure. *)
Definition median_of (vol_affine : list Mat3) : result Mat3 :=
  match nth_error vol_affine (idx_best (D := D) vol_affine) with
  | Some m => Ok m
  | None => Throw LibraryException
  end.

(** The last loop: the iteration-0 transform of every slide. *)
Fixpoint write_initial_transforms (p : Project) (median_affine : Mat3)
  (slices : list SliceData) (fs : gmap string Mat3) : result (gmap string Mat3) :=
  match slices with
  | [] => Ok fs
  | slice :: rest =>
      fn_accum <- GetFilenameForSlice p slice ACCUM_MATRIX 0 ;;
      M_root <- ReadAffineMatrix fs fn_accum ;;
      let M_vol := mmul M_root median_affine in
      fn_iter0 <- GetFilenameForSlice p slice VOL_ITER_MATRIX 0 ;;
      write_initial_transforms p median_affine rest
        (WriteAffineMatrix fs fn_iter0 M_vol)
  end.

(** [InitialMatchToVolume] from the point where every slide has been
    registered to its volume slice and its [VOL_INIT_MATRIX] written. *)
Definition InitialMatchToVolume_median (p : Project) (fs : gmap string Mat3)
  : result (gmap string Mat3) :=
  vol_affine <- read_vol_affine p fs (m_Slices p) ;;
  median_affine <- median_of vol_affine ;;
  fn_median <- GetFilenameForGlobal p VOL_MEDIAN_INIT_MATRIX EmptyString ;;
  write_initial_transforms p median_affine (m_Slices p)
    (WriteAffineMatrix fs fn_median median_affine).

(** Matrix files of the three slides at z = 0, 1, 2: an accumulated
    transform and a volume-initial affine each. *)
Definition sample_matrix_files : gmap string Mat3 :=
  <[ "/proj/recon/accum/accum_affine_s0.mat"%string := identity ]>
  (<[ "/proj/recon/accum/accum_affine_s1.mat"%string := mat3 0 (-1) 5 1 0 7 0 0 1 ]>
  (<[ "/proj/recon/accum/accum_affine_s2.mat"%string := mat3 1 0 2 0 1 3 0 0 1 ]>
  (<[ "/proj/vol/match/affine_refvol_mov_s0.mat"%string := mat3 2 0 1 0 2 1 0 0 1 ]>
  (<[ "/proj/vol/match/affine_refvol_mov_s1.mat"%string := mat3 2 0 1 0 2 1 0 0 1 ]>
  (<[ "/proj/vol/match/affine_refvol_mov_s2.mat"%string := mat3 12 0 1 0 2 1 0 0 1 ]>
   ∅))))).

End MatrixFiles.

(** Three affines: the identity twice and a matrix at L1 distance 10. *)
Definition two_identities_and_one : list Mat3 :=
  [identity; identity; mat3 11 0 0 0 1 0 0 0 1].

(** Three affines that differ in one entry: 0, 2^-60 and 1. As numbers
    the sums of the distances are 1 + 2^-60, 1 and 2 - 2^-60; as doubles
    the first two are both 1. *)
Definition three_near_affines : list Mat3 :=
  [ mat3 1 0 0 0 1 0 0 0 1;
    mat3 1 0 (1 # 2 ^ 60) 0 1 0 0 0 1;
    mat3 1 0 1 0 1 0 0 0 1 ].

End VolumeMatch.

(** ** IterativeMatchToVolume: reslicing the neighbours *)

Record TransformSpec := {
  ts_filename : string;
  ts_exponent : Q
}.

Record ResliceSpec := {
  rs_moving : string;
  rs_output : string
}.

(** [GreedyResliceParameters], the fields that the refiner sets. *)
Record GreedyResliceParameters := {
  images : list ResliceSpec;
  ref_image : string;
  transforms : list TransformSpec
}.

Module Refiner.
Import Files.

(** [TransformSpec (fn)]: the exponent defaults to 1. *)
Definition TransformSpec_of (fn : string) : TransformSpec :=
  {| ts_filename := fn; ts_exponent := 1%Q |}.

Definition push_transform (t : TransformSpec) (r : GreedyResliceParameters)
  : GreedyResliceParameters :=
  {| images := images r; ref_image := ref_image r;
     transforms := transforms r ++ [t] |}.

(** One call of [api_reslice.RunReslice]: the iteration, the slide being
    registered, its neighbour and the parameters passed. *)
Record ResliceCall := {
  rc_iter : Z;
  rc_slide : nat;
  rc_neighbor : nat;
  rc_param : GreedyResliceParameters
}.

Definition no_slice : SliceData :=
  {| raw_filename := EmptyString; unique_id := EmptyString; z_pos := 0%Q |}.

(** [param_reslice] for the neighbour [j] at iteration [iter], starting
    from the reslice parameters of the template [gparam]. *)
Definition reslice_param_for (p : Project) (gparam : GreedyResliceParameters)
  (n_affine iter : Z) (j : nat) : result GreedyResliceParameters :=
  let slice_j := nth j (m_Slices p) no_slice in
  let param_reslice :=
    {| images := images gparam
                 ++ [ {| rs_moving := raw_filename slice_j;
                         rs_output := "output" |} ];
       ref_image := "vol_slice";
       transforms := transforms gparam |} in
  if wrap32 (iter - 1) <=? n_affine
  then
    fn <- GetFilenameForSlice p slice_j VOL_ITER_MATRIX
            (Z.to_nat (wrap32 (iter - 1))) ;;
    Ok (push_transform (TransformSpec_of fn) param_reslice)
  else
    fn_warp <- GetFilenameForSlice p slice_j VOL_ITER_WARP
                 (Z.to_nat (wrap32 (iter - 1))) ;;
    fn_affine <- GetFilenameForSlice p slice_j VOL_ITER_MATRIX
                   (Z.to_nat n_affine) ;;
    Ok (push_transform (TransformSpec_of fn_affine)
          (push_transform (TransformSpec_of fn_warp) param_reslice)).

(** [k_nbr]: the elements just before and just after position [pos] of
    [m_SortedSlices]. *)
Definition k_nbr (sorted : list slice_ref) (pos : nat) : list slice_ref :=
  match pos with
  | O => []
  | S q => match nth_error sorted q with Some x => [x] | None => [] end
  end
  ++ match nth_error sorted (S pos) with Some x => [x] | None => [] end.

(** *** The registration of a slide *)

(** [api_reg.RunAffine] or [api_reg.RunDeformable]. *)
Inductive RegistrationKind := RunAffine | RunDeformable.

(** One registration of a slide to its volume slice and resliced
    neighbours: the call made, the transform file it starts from
    ([affine_init_transform] of an affine run, the moving pre-transform
    pushed for a deformable run) and [param_reg.output]. *)
Record Registration := {
  rg_kind : RegistrationKind;
  rg_start : TransformSpec;
  rg_output : string
}.

(** [fn_result] at the top of the loop body. *)
Definition fn_result (p : Project) (n_affine iter : Z) (k : nat) : result string :=
  let slice_k := nth k (m_Slices p) no_slice in
  if iter <=? n_affine
  then GetFilenameForSlice p slice_k VOL_ITER_MATRIX (Z.to_nat iter)
  else GetFilenameForSlice p slice_k VOL_ITER_WARP (Z.to_nat iter).

(** The registration of slide [k] at iteration [iter]. *)
Definition registration_for (p : Project) (n_affine iter : Z) (k : nat)
  : result Registration :=
  let slice_k := nth k (m_Slices p) no_slice in
  fn_result' <- fn_result p n_affine iter k ;;
  if iter <=? n_affine
  then
    fn_init <- GetFilenameForSlice p slice_k VOL_ITER_MATRIX
                 (Z.to_nat (wrap32 (iter - 1))) ;;
    fn_out <- GetFilenameForSlice p slice_k VOL_ITER_MATRIX (Z.to_nat iter) ;;
    Ok {| rg_kind := RunAffine; rg_start := TransformSpec_of fn_init;
          rg_output := fn_out |}
  else
    fn_affine <- GetFilenameForSlice p slice_k VOL_ITER_MATRIX
                   (Z.to_nat n_affine) ;;
    Ok {| rg_kind := RunDeformable; rg_start := TransformSpec_of fn_affine;
          rg_output := fn_result' |}.

Section Run.

(** The reslice parameters of the template [gparam]. *)
Variable gparam : GreedyResliceParameters.

(** [CanSkipFile (fn_result)] at the moment slide [k] is reached in
    iteration [iter]. *)
Variable can_skip : Z -> nat -> bool.

(** The order that [std::random_shuffle] produces for an iteration. *)
Variable ordering : Z -> list nat.

(** The calls of the loop body that can throw, each as what it does
    when it is reached, return or throw: the two [slice_cache.GetImage]
    calls for slide [k] at iteration [iter], [api_reslice.RunReslice],
    and [api_reg.RunAffine] or [api_reg.RunDeformable] with the metric
    dump that follows it. *)
Variable GetImage_slide : Z -> nat -> result unit.
Variable RunReslice : ResliceCall -> result unit.
Variable RunRegistration : Z -> nat -> Registration -> result unit.

Fixpoint reslice_neighbors (p : Project) (n_affine iter : Z) (k : nat)
  (nbrs : list slice_ref) : result (list ResliceCall) :=
  match nbrs with
  | [] => Ok []
  | nbr :: rest =>
      let j := snd nbr in
      param_reslice <- reslice_param_for p gparam n_affine iter j ;;
      let call := {| rc_iter := iter; rc_slide := k; rc_neighbor := j;
                     rc_param := param_reslice |} in
      _ <- RunReslice call ;;
      calls <- reslice_neighbors p n_affine iter k rest ;;
      Ok (call :: calls)
  end.

(** The body of the loop over the ordering, for slide [k]. *)
Definition refine_slide (p : Project) (n_affine iter : Z) (k : nat)
  : result (list ResliceCall) :=
  if can_skip iter k then Ok []
  else
    _ <- GetImage_slide iter k ;;
    match os_index slice_ref_ltb
            (z_pos (nth k (m_Slices p) no_slice), k) (m_SortedSlices p) with
    | None => Throw (GreedyException "Slice not found in sorted list")
    | Some pos =>
        calls <- reslice_neighbors p n_affine iter k
                   (k_nbr (m_SortedSlices p) pos) ;;
        reg <- registration_for p n_affine iter k ;;
        _ <- RunRegistration iter k reg ;;
        Ok calls
    end.

Fixpoint refine_slides (p : Project) (n_affine iter : Z) (ks : list nat)
  : result (list ResliceCall) :=
  match ks with
  | [] => Ok []
  | k :: rest =>
      calls <- refine_slide p n_affine iter k ;;
      more <- refine_slides p n_affine iter rest ;;
      Ok (calls ++ more)
  end.

(** The iterations [iters] in turn. *)
Fixpoint refine_iterations (p : Project) (n_affine : Z) (iters : list Z)
  : result (list ResliceCall) :=
  match iters with
  | [] => Ok []
  | iter :: rest =>
      calls <- refine_slides p n_affine iter (ordering iter) ;;
      more <- refine_iterations p n_affine rest ;;
      Ok (calls ++ more)
  end.

(** [for (unsigned int iter = i_first; iter <= i_last; ++iter)], with the
    wrap-around of [++iter]. [fuel] bounds the number of passes; [None]
    says that the loop is still running when the fuel is used up. *)
Fixpoint iterate (fuel : nat) (p : Project) (n_affine iter i_last : Z)
  : option (result (list ResliceCall)) :=
  match fuel with
  | O => None
  | S fuel' =>
      if iter <=? i_last
      then
        match refine_slides p n_affine iter (ordering iter) with
        | Throw e => Some (Throw e)
        | Ok calls =>
            match iterate fuel' p n_affine (wrap32 (iter + 1)) i_last with
            | None => None
            | Some (Throw e) => Some (Throw e)
            | Some (Ok more) => Some (Ok (calls ++ more))
            end
        end
      else Some (Ok [])
  end.

(** [IterativeMatchToVolume], as the sequence of its [RunReslice] calls. *)
Definition IterativeMatchToVolume (fuel : nat) (p : Project)
  (n_affine n_deform i_first i_last : Z)
  : option (result (list ResliceCall)) :=
  if (i_last <? i_first) || (i_first =? 0)
     || (wrap32 (n_affine + n_deform) <? i_last)
  then Some (Throw (GreedyException "Iteration range is out of range"))
  else iterate fuel p n_affine i_first i_last.


(** An exception that one of these calls has thrown. *)
Definition thrown_by_call (e : exn) : Prop :=
  (exists iter k, GetImage_slide iter k = Throw e) \/
  (exists call, RunReslice call = Throw e) \/
  (exists iter k reg, RunRegistration iter k reg = Throw e).

(** Every one of these calls returns. *)
Definition calls_return : Prop :=
  (forall iter k, GetImage_slide iter k = Ok tt) /\
  (forall call, RunReslice call = Ok tt) /\
  (forall iter k reg, RunRegistration iter k reg = Ok tt).

End Run.

(** The values [iter] takes in a loop from [i_first] that ends after
    [i_last]. *)
Definition iterations (i_first i_last : Z) : list Z :=
  map (fun d => i_first + Z.of_nat d) (seq 0 (Z.to_nat (i_last - i_first + 1))).

(** A template without reslice parameters, nothing skipped, slides in
    index order, engine calls that return. *)
Definition empty_reslice_param : GreedyResliceParameters :=
  {| images := []; ref_image := EmptyString; transforms := [] |}.

Definition sample_run (fuel : nat) : option (result (list ResliceCall)) :=
  IterativeMatchToVolume empty_reslice_param (fun _ _ => false)
    (fun _ => [0; 1; 2]%nat) (fun _ _ => Ok tt) (fun _ => Ok tt)
    (fun _ _ _ => Ok tt) fuel Neighbors.three_slides 1 2 1 3.


(** *** The slides and files that an iteration touches *)

(** A reslice call of slide [rc_slide] against the slide just before or
    just after it in [m_SortedSlices], made for a slide of the ordering
    that is not skipped. *)
Definition adjacent_call (can_skip : Z -> nat -> bool) (ordering : Z -> list nat)
  (p : Project) (c : ResliceCall) : Prop :=
  can_skip (rc_iter c) (rc_slide c) = false /\
  In (rc_slide c) (ordering (rc_iter c)) /\
  exists pos nbr,
    os_index slice_ref_ltb
      (z_pos (nth (rc_slide c) (m_Slices p) no_slice), rc_slide c)
      (m_SortedSlices p) = Some pos /\
    snd nbr = rc_neighbor c /\
    (nth_error (m_SortedSlices p) (S pos) = Some nbr \/
     exists q, pos = S q /\ nth_error (m_SortedSlices p) q = Some nbr).

(** The number of slides visited over the iterations. *)
Definition visits (ordering : Z -> list nat) (iters : list Z) : nat :=
  list_sum (map (fun iter => List.length (ordering iter)) iters).

End Refiner.


(** ** ReconstructStack: the transform accumulated along the path to the root *)

Module Chain.
Import Files Matrix VolumeMatch.

Section Paths.
Import stdpp.base stdpp.gmap stdpp.strings.

(** [DijkstraShortestPath<double>::NO_PATH], a constant of [ShortestPath.h],
    and [dijkstra.GetPredecessorArray()] after
    [dijkstra.ComputePathsFromSource (i_root)]. *)
Variable NO_PATH : nat.
Variable GetPredecessorArray : nat -> nat.

(** The [while] loop that traverses the path from a slide towards the
    root, on the state [(i_curr, i_prev, t_accum)]. The code has no bound
    on the number of passes; [fuel] is one, and [None] says that it did not
    suffice. *)
Fixpoint traverse (fuel : nat) (p : Project) (fs : gmap string Mat3)
  (i_curr i_prev : nat) (t_accum : Mat3) : option (result Mat3) :=
  if Nat.eqb i_prev NO_PATH || Nat.eqb i_prev i_curr
  then Some (Ok t_accum)
  else
    match fuel with
    | O => None
    | S fuel' =>
        match
          (fn_matrix <- GetFilenameForSlicePair p
                          (nth i_prev (m_Slices p) Refiner.no_slice)
                          (nth i_curr (m_Slices p) Refiner.no_slice)
                          AFFINE_MATRIX ;;
           ReadAffineMatrix fs fn_matrix)
        with
        | Throw e => Some (Throw e)
        | Ok t_step =>
            traverse fuel' p fs i_prev (GetPredecessorArray i_prev)
              (mmul t_accum t_step)
        end
    end.

(** [t_accum] for slide [i], as it is passed to [WriteAffineMatrix]. *)
Definition accumulate (fuel : nat) (p : Project) (fs : gmap string Mat3)
  (i : nat) : option (result Mat3) :=
  traverse fuel p fs i (GetPredecessorArray i) identity.

(** The pair files of the three slides at z = 0, 1, 2 for the tree rooted
    at the middle slide. *)
Definition sample_pair_files : gmap string Mat3 :=
  <[ "/proj/recon/nbr/affine_ref_s1_mov_s0.mat"%string := mat3 0 (-1) 5 1 0 7 0 0 1 ]>
  (<[ "/proj/recon/nbr/affine_ref_s1_mov_s2.mat"%string := mat3 1 0 2 0 1 3 0 0 1 ]>
   ∅).

End Paths.

(** Equality of matrices entry by entry, as rationals. *)
Definition meq (a b : Mat3) : Prop :=
  Forall2 Qeq (data_block a) (data_block b).

End Chain.

(** ** [PerLevelSpec] of [GreedyParameters.h] *)

Module PerLevel.

Section Atomic.

(** The template argument, with its [operator ==] and [operator !=]. *)
Variable TAtomic : Type.
Variable Aeq : TAtomic -> TAtomic -> bool.
Variable Aneq : TAtomic -> TAtomic -> bool.

Record PerLevelSpec := {
  m_CommonValue : TAtomic;
  m_ValueArray : list TAtomic;
  m_UseCommon : bool
}.

(** [PerLevelSpec ()] sets [m_UseCommon] only; [m_CommonValue] is default
    initialised, which for an arithmetic type leaves it [indeterminate]. *)
Definition new_PerLevelSpec (indeterminate : TAtomic) : PerLevelSpec :=
  {| m_CommonValue := indeterminate; m_ValueArray := []; m_UseCommon := false |}.

(** [operator = (TAtomic value)]. *)
Definition assign_value (s : PerLevelSpec) (value : TAtomic) : PerLevelSpec :=
  {| m_CommonValue := value; m_ValueArray := m_ValueArray s;
     m_UseCommon := true |}.

(** [operator = (std::vector<TAtomic> per_level_value)]. *)
Definition assign_vector (s : PerLevelSpec) (per_level_value : list TAtomic)
  : PerLevelSpec :=
  match per_level_value with
  | [value] => assign_value s value
  | _ => {| m_CommonValue := m_CommonValue s;
            m_ValueArray := per_level_value;
            m_UseCommon := false |}
  end.

(** [operator []]: [std::vector::at] throws [std::out_of_range]. *)
Definition at_level (s : PerLevelSpec) (pos : nat) : result TAtomic :=
  if m_UseCommon s then Ok (m_CommonValue s)
  else match nth_error (m_ValueArray s) pos with
       | Some v => Ok v
       | None => Throw LibraryException
       end.

Definition CheckSize (s : PerLevelSpec) (n_Levels : nat) : bool :=
  m_UseCommon s || Nat.eqb (List.length (m_ValueArray s)) n_Levels.

(** [operator !=] of [std::vector]: the negation of [operator ==], which
    compares the sizes and then the elements. *)
Fixpoint vector_eq (a b : list TAtomic) : bool :=
  match a, b with
  | [], [] => true
  | x :: a', y :: b' => Aeq x y && vector_eq a' b'
  | _, _ => false
  end.

(** [operator != (const PerLevelSpec &other)]: the first branch compares
    [m_CommonValue] with itself. *)
Definition differs (s other : PerLevelSpec) : bool :=
  if m_UseCommon s && m_UseCommon other
  then Aneq (m_CommonValue s) (m_CommonValue s)
  else if negb (m_UseCommon s) && negb (m_UseCommon other)
  then negb (vector_eq (m_ValueArray s) (m_ValueArray other))
  else false.

End Atomic.

(** [operator !=] and [operator ==] of [double] on the rationals. *)
Definition Qneqb (a b : Q) : bool := negb (Qeq_bool a b).

End PerLevel.

(** * Properties *)

(** ** Facts about the comparisons and the ordered containers *)

Lemma Qltb_lt (a b : Q) : Qltb a b = true <-> (a < b)%Q.
Proof.
  unfold Qltb. rewrite negb_true_iff, <- not_true_iff_false, Qle_bool_iff.
  split; [apply Qnot_le_lt|apply Qlt_not_le].
Qed.

Lemma Qltb_ge (a b : Q) : Qltb a b = false <-> (b <= a)%Q.
Proof.
  unfold Qltb. rewrite negb_false_iff. apply Qle_bool_iff.
Qed.

Lemma string_ltb_irrefl (s : string) : String.ltb s s = false.
Proof.
  unfold String.ltb.
  pose proof (String.compare_antisym s s) as H.
  destruct (String.compare s s); simpl in H; congruence.
Qed.

Lemma string_key_equiv_refl (s : string) : key_equiv String.ltb s s = true.
Proof. unfold key_equiv. now rewrite string_ltb_irrefl. Qed.

Lemma string_key_equiv_eq (a b : string) :
  key_equiv String.ltb a b = true <-> a = b.
Proof.
  split; [|intros ->; apply string_key_equiv_refl].
  unfold key_equiv, String.ltb. intros H.
  apply String.compare_eq_iff.
  rewrite (String.compare_antisym b a) in H.
  destruct (String.compare a b); simpl in H; congruence.
Qed.

Lemma string_ltb_total (a b : string) :
  a <> b -> String.ltb a b = true \/ String.ltb b a = true.
Proof.
  intros H. unfold String.ltb.
  destruct (String.compare a b) eqn:E.
  - apply String.compare_eq_iff in E. contradiction.
  - now left.
  - right. now rewrite String.compare_antisym, E.
Qed.

Lemma string_key_equiv_ne (a b : string) :
  a <> b -> key_equiv String.ltb a b = false.
Proof.
  intros H. destruct (key_equiv String.ltb a b) eqn:E; [|reflexivity].
  apply string_key_equiv_eq in E. contradiction.
Qed.

Lemma string_ltb_asym (a b : string) :
  String.ltb a b = true -> String.ltb b a = false.
Proof.
  unfold String.ltb. rewrite (String.compare_antisym b a).
  destruct (String.compare a b); simpl; congruence.
Qed.

Section OrdMapFacts.
Context {K V : Type}.
Variable ltb : K -> K -> bool.

Lemma om_find_In (k : K) (v : V) (m : list (K * V)) :
  om_find ltb k m = Some v -> exists k', In (k', v) m /\ key_equiv ltb k k' = true.
Proof.
  induction m as [|[k' v'] m IH]; simpl; [discriminate|].
  destruct (key_equiv ltb k k') eqn:E.
  - intros [= ->]. exists k'. auto.
  - intros H. destruct (IH H) as (k'' & Hin & Hk). exists k''. auto.
Qed.

Lemma om_find_erase_None (k k0 : K) (m : list (K * V)) :
  om_find ltb k m = None -> om_find ltb k (om_erase ltb k0 m) = None.
Proof.
  induction m as [|[k' v'] m IH]; simpl; [reflexivity|].
  destruct (key_equiv ltb k k') eqn:E; [discriminate|].
  intros H. destruct (key_equiv ltb k0 k'); simpl; [assumption|].
  rewrite E. auto.
Qed.

Lemma om_set_not_nil (k : K) (v : V) (m : list (K * V)) : om_set ltb k v m <> [].
Proof.
  destruct m as [|[k' v'] m]; simpl; [discriminate|].
  destruct (ltb k k'); [discriminate|]. destruct (ltb k' k); discriminate.
Qed.

Lemma om_set_values (k : K) (v : V) (m : list (K * V)) (x : K * V) :
  In x (om_set ltb k v m) -> snd x = v \/ exists y, In y m /\ snd y = snd x.
Proof.
  induction m as [|[k' v'] m IH]; simpl.
  - intros [<-|[]]. now left.
  - destruct (ltb k k'); [|destruct (ltb k' k)]; simpl.
    + intros [<-|[<-|H]]; [now left| |]; right; eexists; split; eauto.
    + intros [<-|H].
      * right. exists (k', v'). auto.
      * destruct (IH H) as [E|(y & Hy & E)]; [now left|].
        right. exists y. auto.
    + intros [<-|H]; [now left|]. right. exists x. auto.
Qed.

End OrdMapFacts.

(** ** The image cache *)

Module CacheFacts.
Import Cache.

Lemma om_find_string_key (k : string) (m : list (string * CacheEntry)) :
  In k (om_keys m) -> exists e, om_find String.ltb k m = Some e.
Proof.
  unfold om_keys.
  induction m as [|[k' v'] m IH]; simpl; [intros []|].
  destruct (key_equiv String.ltb k k') eqn:E; [eauto|].
  intros [->|H]; [|auto].
  rewrite string_key_equiv_refl in E. discriminate.
Qed.

Lemma sort_map_fold_names (m : list (string * CacheEntry)) :
  forall (sm : list (Z * string)) (x : Z * string),
  In x (fold_left (fun sm it => om_set Z.ltb (ce_age (snd it)) (fst it) sm) m sm) ->
  (exists y, In y sm /\ snd y = snd x) \/ In (snd x) (om_keys m).
Proof.
  unfold om_keys.
  induction m as [|[k e] m IH]; simpl; intros sm x H.
  - left. exists x. auto.
  - destruct (IH _ _ H) as [(y & Hy & E)|Hin]; [|auto].
    destruct (om_set_values _ _ _ _ _ Hy) as [E'|(z & Hz & E')].
    + right. left. congruence.
    + left. exists z. split; [assumption|congruence].
Qed.

Lemma sort_map_fold_not_nil (m : list (string * CacheEntry)) :
  forall sm : list (Z * string),
  m <> [] \/ sm <> [] ->
  fold_left (fun sm it => om_set Z.ltb (ce_age (snd it)) (fst it) sm) m sm <> [].
Proof.
  induction m as [|[k e] m IH]; simpl; intros sm H.
  - destruct H as [H|H]; [congruence|assumption].
  - apply IH. right. apply om_set_not_nil.
Qed.

(** On a cache that is not empty the loop body always finds its victim. *)
Lemma evict_oldest_total (c : ImageCache) :
  m_Cache c <> [] -> exists c', evict_oldest c = Some c'.
Proof.
  intros Hne. unfold evict_oldest.
  pose proof (sort_map_fold_not_nil (m_Cache c) [] (or_introl Hne)) as Hsm.
  fold (sort_map c) in Hsm.
  destruct (sort_map c) as [|[a oldest] sm] eqn:E; [congruence|].
  destruct (sort_map_fold_names (m_Cache c) [] (a, oldest)) as [(y & [] & _)|Hin].
  { fold (sort_map c). rewrite E. now left. }
  simpl in Hin. destruct (om_find_string_key _ _ Hin) as [e ->]. eauto.
Qed.

Lemma cache_size_pos (c : ImageCache) :
  (0 <? cache_size c) = true -> m_Cache c <> [].
Proof.
  unfold cache_size. destruct (m_Cache c); simpl; [discriminate|discriminate].
Qed.

Lemma loop_condition_not_nil (c : ImageCache) (new_bytes new_images : Z) :
  loop_condition c new_bytes new_images = true -> m_Cache c <> [].
Proof.
  unfold loop_condition. intros H.
  apply andb_true_iff in H as [_ H]. now apply cache_size_pos.
Qed.

(** Induction along the passes of the loop of [ShrinkCache]: either the
    condition is false and the cache is returned, or one entry is evicted
    and the loop goes on from there. *)
Lemma ShrinkCache_loop_ind (new_bytes new_images : Z)
  (P : ImageCache -> ImageCache -> Prop) :
  (forall c, loop_condition c new_bytes new_images = false -> P c c) ->
  (forall c c',
      loop_condition c new_bytes new_images = true ->
      evict_oldest c = Some c' ->
      P c' (ShrinkCache c' new_bytes new_images) ->
      P c (ShrinkCache c' new_bytes new_images)) ->
  forall c, P c (ShrinkCache c new_bytes new_images).
Proof.
  intros Hexit Hpass c.
  funelim (ShrinkCache c new_bytes new_images).
  - now apply Hexit.
  - apply Hpass; auto. match goal with IH : forall P : _, _ |- _ => now apply IH end.
  - match goal with
    | Hc : loop_condition _ _ _ = true, Hn : evict_oldest _ = None |- _ =>
        destruct (evict_oldest_total _ (loop_condition_not_nil _ _ _ Hc)) as [c' E];
        congruence
    end.
Qed.

(** The loop of [ShrinkCache] is left with its condition false. *)
Lemma ShrinkCache_exits (c : ImageCache) (new_bytes new_images : Z) :
  loop_condition (ShrinkCache c new_bytes new_images) new_bytes new_images = false.
Proof.
  apply (ShrinkCache_loop_ind new_bytes new_images
           (fun _ r => loop_condition r new_bytes new_images = false)); auto.
Qed.

Lemma ShrinkCache_idle (c : ImageCache) (new_bytes new_images : Z) :
  loop_condition c new_bytes new_images = false ->
  ShrinkCache c new_bytes new_images = c.
Proof.
  apply (ShrinkCache_loop_ind new_bytes new_images
           (fun c r => loop_condition c new_bytes new_images = false -> r = c)).
  - reflexivity.
  - intros; congruence.
Qed.

Lemma ShrinkCache_unfold (c : ImageCache) (nb ni : Z) :
  ShrinkCache c nb ni
  = if loop_condition c nb ni
    then match evict_oldest c with
         | Some c' => ShrinkCache c' nb ni
         | None => c
         end
    else c.
Proof.
  funelim (ShrinkCache c nb ni).
  - match goal with H : loop_condition _ _ _ = false |- _ => now rewrite H end.
  - match goal with H : loop_condition _ _ _ = true |- _ => rewrite H end.
    now rewrite Hev.
  - match goal with H : loop_condition _ _ _ = true |- _ => rewrite H end.
    match goal with H : evict_oldest _ = None |- _ => now rewrite H end.
Qed.

Lemma evict_oldest_shrinks (c c' : ImageCache) :
  evict_oldest c = Some c' ->
  (List.length (m_Cache c') < List.length (m_Cache c))%nat.
Proof.
  unfold evict_oldest.
  destruct (sort_map c) as [|[a oldest] sm]; [discriminate|].
  destruct (om_find String.ltb oldest (m_Cache c)) as [en|] eqn:Hf; [|discriminate].
  intros [= <-]. cbn [m_Cache]. revert Hf.
  induction (m_Cache c) as [|[k v] m IH]; cbn; [discriminate|].
  destruct (key_equiv String.ltb oldest k); cbn; intros H; [lia|].
  specialize (IH H). lia.
Qed.

(** *** Accounting *)

Lemma entry_bytes_erase (k : string) (e : CacheEntry) (m : list (string * CacheEntry)) :
  om_find String.ltb k m = Some e ->
  entry_bytes (om_erase String.ltb k m) = entry_bytes m - ce_size e.
Proof.
  induction m as [|[k' v] m IH]; simpl; [discriminate|].
  destruct (key_equiv String.ltb k k').
  - intros [= ->]. lia.
  - intros H. simpl. rewrite (IH H). lia.
Qed.

Lemma entry_bytes_set (k : string) (e : CacheEntry) (m : list (string * CacheEntry)) :
  om_find String.ltb k m = None ->
  entry_bytes (om_set String.ltb k e m) = entry_bytes m + ce_size e.
Proof.
  induction m as [|[k' v] m IH]; simpl; [lia|].
  unfold key_equiv.
  destruct (String.ltb k k') eqn:E1; simpl; [lia|].
  destruct (String.ltb k' k) eqn:E2; simpl; [|discriminate].
  intros H. rewrite (IH H). lia.
Qed.

Lemma Forall_om_erase (P : string * CacheEntry -> Prop) (k : string)
  (m : list (string * CacheEntry)) :
  Forall P m -> Forall P (om_erase String.ltb k m).
Proof.
  induction 1 as [|[k' v] m Hx Hm IH]; simpl; [constructor|].
  destruct (key_equiv String.ltb k k'); [assumption|]. now constructor.
Qed.

Lemma entry_bytes_nonneg (m : list (string * CacheEntry)) :
  Forall (fun it => 0 <= ce_size (snd it)) m -> 0 <= entry_bytes m.
Proof. induction 1; simpl; lia. Qed.

Lemma evict_oldest_inv (c c' : ImageCache) :
  evict_oldest c = Some c' ->
  exists oldest e,
    om_find String.ltb oldest (m_Cache c) = Some e /\
    m_Cache c' = om_erase String.ltb oldest (m_Cache c) /\
    m_UsedMemory c' = wrap64 (m_UsedMemory c - ce_size e) /\
    m_MaxMemory c' = m_MaxMemory c /\ m_MaxImages c' = m_MaxImages c /\
    m_Counter c' = m_Counter c.
Proof.
  unfold evict_oldest.
  destruct (sort_map c) as [|[a oldest] sm]; [discriminate|].
  destruct (om_find String.ltb oldest (m_Cache c)) as [e|] eqn:Hf; [|discriminate].
  intros [= <-]. exists oldest, e. simpl. auto 6.
Qed.

Lemma wrap64_sub_l (a b : Z) : wrap64 (wrap64 a - b) = wrap64 (a - b).
Proof. unfold wrap64. apply Zminus_mod_idemp_l. Qed.

Lemma wrap64_add_l (a b : Z) : wrap64 (wrap64 a + b) = wrap64 (a + b).
Proof. unfold wrap64. apply Zplus_mod_idemp_l. Qed.

Lemma wrap64_small (a : Z) : 0 <= a < 2 ^ 64 -> wrap64 a = a.
Proof. unfold wrap64. apply Z.mod_small. Qed.

Lemma evict_oldest_accounted (c c' : ImageCache) :
  accounted c -> evict_oldest c = Some c' -> accounted c'.
Proof.
  unfold accounted. intros Hacc Hev.
  destruct (evict_oldest_inv _ _ Hev) as (k & e & Hf & -> & -> & _).
  rewrite Hacc, wrap64_sub_l, (entry_bytes_erase _ _ _ Hf). reflexivity.
Qed.

Lemma ShrinkCache_accounted (c : ImageCache) (new_bytes new_images : Z) :
  accounted c -> accounted (ShrinkCache c new_bytes new_images).
Proof.
  apply (ShrinkCache_loop_ind new_bytes new_images
           (fun c r => accounted c -> accounted r)).
  - auto.
  - intros c0 c' _ Hev IH Hacc. eauto using evict_oldest_accounted.
Qed.

Lemma ShrinkCache_find_None (f : string) (c : ImageCache) (new_bytes new_images : Z) :
  om_find String.ltb f (m_Cache c) = None ->
  om_find String.ltb f (m_Cache (ShrinkCache c new_bytes new_images)) = None.
Proof.
  apply (ShrinkCache_loop_ind new_bytes new_images
           (fun c r => om_find String.ltb f (m_Cache c) = None ->
                       om_find String.ltb f (m_Cache r) = None)).
  - auto.
  - intros c0 c' _ Hev IH Hn. apply IH.
    destruct (evict_oldest_inv _ _ Hev) as (k & e & _ & -> & _).
    now apply om_find_erase_None.
Qed.

Lemma GetImage_accounted (rd : ImageType -> string -> option Z)
  (sz : ImageType -> Z) (T : ImageType) (f : string) (c : ImageCache) :
  accounted c -> accounted (fst (GetImage rd sz T f c)).
Proof.
  intros Hacc. unfold GetImage.
  destruct (om_find String.ltb f (m_Cache c)) as [it|] eqn:Hf.
  - destruct (dynamic_cast _ _); exact Hacc.
  - destruct (rd T f) as [n|]; [|exact Hacc].
    unfold accounted. cbn [fst m_UsedMemory m_Cache].
    rewrite entry_bytes_set by now apply ShrinkCache_find_None.
    rewrite (ShrinkCache_accounted c (wrap64 (n * sz T)) 1 Hacc).
    cbn [ce_size]. apply wrap64_add_l.
Qed.

Lemma PurgeCache_accounted (c : ImageCache) : accounted (PurgeCache c).
Proof. reflexivity. Qed.

(** *** A byte cap below the size of the incoming image *)

Lemma IsCacheFull_bytes (c : ImageCache) (new_bytes new_images : Z) :
  0 < m_MaxMemory c < new_bytes ->
  sizes_nonneg c -> counter_covers c ->
  m_UsedMemory c + new_bytes < 2 ^ 64 ->
  IsCacheFull c new_bytes new_images = true.
Proof.
  unfold sizes_nonneg, counter_covers, IsCacheFull. intros Hcap Hnn Hcov Hlt.
  pose proof (entry_bytes_nonneg _ Hnn) as H0.
  rewrite wrap64_small by lia.
  replace (0 <? m_MaxMemory c) with true by (symmetry; apply Z.ltb_lt; lia).
  replace (m_MaxMemory c <? m_UsedMemory c + new_bytes) with true
    by (symmetry; apply Z.ltb_lt; lia).
  reflexivity.
Qed.

Lemma ShrinkCache_empties (c : ImageCache) (new_bytes new_images : Z) :
  0 < m_MaxMemory c < new_bytes ->
  sizes_nonneg c -> counter_covers c ->
  m_UsedMemory c + new_bytes < 2 ^ 64 ->
  m_Cache (ShrinkCache c new_bytes new_images) = [].
Proof.
  apply (ShrinkCache_loop_ind new_bytes new_images
    (fun c r =>
       0 < m_MaxMemory c < new_bytes ->
       sizes_nonneg c -> counter_covers c ->
       m_UsedMemory c + new_bytes < 2 ^ 64 ->
       m_Cache r = [])).
  - intros c0 Hcond Hcap Hnn Hcov Hlt.
    unfold loop_condition in Hcond.
    rewrite (IsCacheFull_bytes _ _ _ Hcap Hnn Hcov Hlt) in Hcond.
    simpl in Hcond. apply Z.ltb_ge in Hcond. unfold cache_size in Hcond.
    destruct (m_Cache c0); [reflexivity|simpl in Hcond; lia].
  - intros c0 c' _ Hev IH Hcap Hnn Hcov Hlt.
    destruct (evict_oldest_inv _ _ Hev) as (k & e & Hf & Hm & Hu & Hmax & _).
    unfold sizes_nonneg, counter_covers in *.
    assert (Hnn' : Forall (fun it => 0 <= ce_size (snd it)) (m_Cache c')).
    { rewrite Hm. now apply Forall_om_erase. }
    pose proof (entry_bytes_nonneg _ Hnn') as H0.
    pose proof (entry_bytes_erase _ _ _ Hf) as He. rewrite <- Hm in He.
    assert (0 <= ce_size e).
    { destruct (om_find_In _ _ _ _ Hf) as (k' & Hin & _).
      rewrite Forall_forall in Hnn. apply (Hnn _ Hin). }
    assert (Hu' : m_UsedMemory c' = m_UsedMemory c0 - ce_size e).
    { rewrite Hu. apply wrap64_small. lia. }
    apply IH; try assumption; lia.
Qed.

(** What holds of the eviction loop whatever the counter, and what holds
    for a counter in step with the entries. The loop of [ShrinkCache]
    always terminates: every pass finds a victim and leaves one entry
    fewer, and the loop is left with its condition false. A byte cap of 0
    takes the byte test out of [IsCacheFull], a count cap of 0 takes the
    count test out. When the byte cap is positive and smaller than the
    size of the image being inserted, and the byte counter covers the
    resident sizes and does not wrap around 64 bits when the new size is
    added, the loop empties the cache and [GetImage] then inserts the new
    image, which is the only resident. *)
Theorem ShrinkCache_terminates_and_empties :
  (forall c new_bytes new_images,
      loop_condition (ShrinkCache c new_bytes new_images) new_bytes new_images
      = false /\
      (loop_condition c new_bytes new_images = true ->
       exists c', evict_oldest c = Some c' /\
                  (List.length (m_Cache c') < List.length (m_Cache c))%nat)) /\
  (forall rd sz T filename c n,
      om_find String.ltb filename (m_Cache c) = None ->
      rd T filename = Some n ->
      0 < m_MaxMemory c < wrap64 (n * sz T) ->
      sizes_nonneg c -> counter_covers c ->
      m_UsedMemory c + wrap64 (n * sz T) < 2 ^ 64 ->
      m_Cache (ShrinkCache c (wrap64 (n * sz T)) 1) = [] /\
      residents (fst (GetImage rd sz T filename c)) = [filename] /\
      snd (GetImage rd sz T filename c)
      = Ok {| image_type := T; image_file := filename; container_size := n |}) /\
  (forall c new_bytes new_images,
      (m_MaxMemory c = 0 ->
       IsCacheFull c new_bytes new_images
       = (0 <? m_MaxImages c)
         && (m_MaxImages c <? wrap64 (cache_size c + new_images))) /\
      (m_MaxImages c = 0 ->
       IsCacheFull c new_bytes new_images
       = (0 <? m_MaxMemory c)
         && (m_MaxMemory c <? wrap64 (m_UsedMemory c + new_bytes))) /\
      (m_MaxMemory c = 0 -> m_MaxImages c = 0 ->
       ShrinkCache c new_bytes new_images = c)).
Proof.
  split; [|split].
  - intros c nb ni. split; [apply ShrinkCache_exits|].
    intros Hc.
    destruct (evict_oldest_total _ (loop_condition_not_nil _ _ _ Hc)) as [c' E].
    exists c'. split; [assumption|]. now apply evict_oldest_shrinks.
  - intros rd sz T f c n Hmiss Hrd Hcap Hnn Hcov Hlt.
    pose proof (ShrinkCache_empties c _ 1 Hcap Hnn Hcov Hlt) as He.
    split; [assumption|].
    unfold GetImage. rewrite Hmiss, Hrd. cbn [fst snd residents m_Cache].
    rewrite He. split; reflexivity.
  - intros c nb ni. split; [|split].
    + intros H. unfold IsCacheFull. rewrite H. simpl.
      now destruct (_ && _).
    + intros H. unfold IsCacheFull. rewrite H. simpl.
      now destruct (_ && _).
    + intros H1 H2. apply ShrinkCache_idle.
      unfold loop_condition, IsCacheFull. rewrite H1, H2. reflexivity.
Qed.

Lemma ShrinkCache_terminates_and_empties_witness :
  residents
    (fst (GetImage sample_reader sample_sizeof 0%nat "B"
            (GetImages sample_reader sample_sizeof 0%nat ["A"%string]
               (new_ImageCache 7 500 0))))
  = ["B"%string].
Proof.
  apply (proj1 (proj2 ShrinkCache_terminates_and_empties)
           sample_reader sample_sizeof 0%nat "B"%string
           (GetImages sample_reader sample_sizeof 0%nat ["A"%string]
              (new_ImageCache 7 500 0)) 100).
  - reflexivity.
  - reflexivity.
  - vm_compute. split; reflexivity.
  - unfold sizes_nonneg. vm_compute. repeat constructor; discriminate.
  - unfold counter_covers. vm_compute. discriminate.
  - vm_compute. reflexivity.
Defined.

(** C9. A byte cap below the size of the incoming image does not always
    empty the cache. The constructor leaves [m_UsedMemory] as its storage
    held it; on a cache built in storage holding 2^64 - 1600, with a byte
    cap of 500 and no count cap, the image A of 800 bytes is resident
    when B of 800 bytes is asked for, the cap is positive and below the
    size of B, and yet [IsCacheFull] answers false, because
    [m_UsedMemory + new_bytes] wraps around to 0: nothing is evicted and
    A and B are both resident after the call. *)
Example stale_counter_no_eviction :
  let c0 := new_ImageCache (2 ^ 64 - 1600) 500 0 in
  let c1 := GetImages sample_reader sample_sizeof 0%nat ["A"%string] c0 in
  let c2 := GetImages sample_reader sample_sizeof 0%nat ["B"%string] c1 in
  residents c1 = ["A"%string] /\
  0 < m_MaxMemory c1 < wrap64 (100 * sample_sizeof 0%nat) /\
  IsCacheFull c1 (wrap64 (100 * sample_sizeof 0%nat)) 1 = false /\
  residents c2 = ["A"; "B"]%string.
Proof. vm_compute. repeat split; reflexivity. Qed.

(** *** Cache hits *)

Lemma dynamic_cast_refl (T : ImageType) : dynamic_cast T T = true.
Proof. unfold dynamic_cast. now rewrite Nat.eqb_refl. Qed.

(** A hit of the right type returns the cached image and changes nothing:
    neither the age of the entry nor [m_Counter]. *)
Lemma GetImage_hit_unchanged (rd : ImageType -> string -> option Z)
  (sz : ImageType -> Z) (T : ImageType) (f : string) (c : ImageCache)
  (it : CacheEntry) :
  om_find String.ltb f (m_Cache c) = Some it ->
  image_type (ce_image it) = T ->
  GetImage rd sz T f c = (c, Ok (ce_image it)).
Proof.
  intros Hf Ht. unfold GetImage. rewrite Hf, Ht, dynamic_cast_refl. reflexivity.
Qed.

(** The calls A, B, A, C on a disk where every file is 800 bytes. *)
Example GetImage_ABAC_sample :
  residents
    (GetImages sample_reader sample_sizeof 0%nat ["A"; "B"; "A"; "C"]%string
       (new_ImageCache 0 0 2))
  = ["B"; "C"]%string.
Proof. vm_compute. reflexivity. Qed.

(** C1. With [max_images = 2] and the byte cap disabled, the calls
    A, B, A, C for three distinct files that load leave exactly B and C
    in the cache, whatever the sizes: the hit on A does not refresh its
    age, so A is still the oldest entry when C is inserted, and A is the
    one evicted. *)
Theorem GetImage_ABAC_residents (rd : ImageType -> string -> option Z)
  (sz : ImageType -> Z)
  (T : ImageType) (A B C : string) (u nA nB nC : Z) :
  A <> B -> A <> C -> B <> C ->
  rd T A = Some nA -> rd T B = Some nB -> rd T C = Some nC ->
  forall x,
    In x (residents (GetImages rd sz T [A; B; A; C] (new_ImageCache u 0 2)))
    <-> x = B \/ x = C.
Proof.
  intros HAB HAC HBC HA HB HC x.
  unfold GetImages. cbn [fold_left].
  unfold GetImage at 4. cbn [m_Cache new_ImageCache om_find]. rewrite HA.
  rewrite (ShrinkCache_idle (new_ImageCache u 0 2)) by reflexivity.
  cbn [fst m_Cache new_ImageCache om_set m_Counter m_MaxMemory m_MaxImages m_UsedMemory].
  set (sA := wrap64 (nA * sz T)).
  unfold GetImage at 3. cbn [m_Cache om_find].
  rewrite (string_key_equiv_ne B A) by congruence. rewrite HB.
  match goal with |- context [ShrinkCache ?c ?nb 1] =>
    rewrite (ShrinkCache_idle c nb 1) by reflexivity end.
  cbn [fst m_Cache om_set m_Counter m_MaxMemory m_MaxImages m_UsedMemory].
  set (sB := wrap64 (nB * sz T)).
  set (eA := {| ce_age := 0; ce_size := sA; ce_image := _ |}).
  set (eB := {| ce_age := _; ce_size := sB; ce_image := _ |}).
  assert (Hc2 : exists m,
    (m = [(A, eA); (B, eB)] \/ m = [(B, eB); (A, eA)]) /\
    (if String.ltb B A then (B, eB) :: [(A, eA)]
     else if String.ltb A B then [(A, eA); (B, eB)] else [(A, eB)]) = m).
  { destruct (string_ltb_total A B HAB) as [H|H].
    - rewrite (string_ltb_asym _ _ H), H. eauto.
    - rewrite H. eauto. }
  destruct Hc2 as (m & Hm & ->).
  assert (HfA : om_find String.ltb A m = Some eA).
  { destruct Hm as [-> | ->]; simpl;
      rewrite ?(string_key_equiv_ne A B) by assumption;
      now rewrite string_key_equiv_refl. }
  match goal with |- context [GetImage rd sz T A ?c] =>
    rewrite (GetImage_hit_unchanged rd sz T A c eA HfA eq_refl) end.
  cbn [fst].
  assert (HfC : om_find String.ltb C m = None).
  { destruct Hm as [-> | ->]; simpl;
      rewrite (string_key_equiv_ne C A), (string_key_equiv_ne C B)
        by congruence; reflexivity. }
  unfold GetImage. cbn [m_Cache]. rewrite HfC, HC.
  set (sC := wrap64 (nC * sz T)).
  rewrite ShrinkCache_unfold.
  replace (loop_condition _ sC 1) with true
    by (destruct Hm as [-> | ->]; reflexivity).
  match goal with |- context [evict_oldest ?c] =>
    assert (Hev : evict_oldest c
                  = Some {| m_Cache := [(B, eB)];
                            m_MaxMemory := 0;
                            m_UsedMemory := wrap64 (m_UsedMemory c - sA);
                            m_MaxImages := 2;
                            m_Counter := m_Counter c |}) end.
  { unfold evict_oldest.
    replace (sort_map _) with [(0, A); (wrap64 (0 + 1), B)]
      by (destruct Hm as [-> | ->]; reflexivity).
    cbn [m_Cache]. rewrite HfA.
    replace (om_erase String.ltb A m) with [(B, eB)]; [reflexivity|].
    destruct Hm as [-> | ->]; simpl;
      rewrite ?(string_key_equiv_ne A B) by assumption;
      now rewrite string_key_equiv_refl. }
  rewrite Hev. rewrite ShrinkCache_idle by reflexivity.
  cbn [fst residents m_Cache om_set].
  destruct (string_ltb_total B C HBC) as [H|H].
  - rewrite (string_ltb_asym _ _ H), H. simpl. intuition.
  - rewrite H. simpl. intuition.
Qed.

Lemma GetImage_ABAC_residents_witness :
  In "A"%string
     (residents
        (GetImages sample_reader sample_sizeof 0%nat ["A"; "B"; "A"; "C"]%string
           (new_ImageCache 0 0 2)))
  <-> "A"%string = "B"%string \/ "A"%string = "C"%string.
Proof.
  apply (GetImage_ABAC_residents sample_reader sample_sizeof 0%nat
           "A"%string "B"%string "C"%string 0 100 100 100);
    first [discriminate | reflexivity].
Defined.
(** C10. The constructor leaves [m_UsedMemory] at whatever its storage
    held while the cache it builds is empty, so a fresh cache has the byte
    counter 0 only if the storage happened to hold 0. On storage that
    held 1 the counter is 1 with no entry, and 801 after the first image
    of 800 bytes. *)
Theorem new_ImageCache_UsedMemory :
  (forall indeterminate max_memory max_images,
      m_UsedMemory (new_ImageCache indeterminate max_memory max_images)
      = indeterminate /\
      entry_bytes (m_Cache (new_ImageCache indeterminate max_memory max_images))
      = 0) /\
  m_UsedMemory (new_ImageCache 1 0 20) = 1 /\
  m_UsedMemory
    (GetImages sample_reader sample_sizeof 0%nat ["A"%string]
       (new_ImageCache 1 0 20)) = 801 /\
  entry_bytes
    (m_Cache (GetImages sample_reader sample_sizeof 0%nat ["A"%string]
                (new_ImageCache 1 0 20))) = 800.
Proof.
  split; [intros; split; reflexivity|].
  split; [reflexivity|]. split; vm_compute; reflexivity.
Qed.

Lemma new_ImageCache_accounted (indeterminate max_memory max_images : Z) :
  0 <= indeterminate < 2 ^ 64 ->
  accounted (new_ImageCache indeterminate max_memory max_images)
  <-> indeterminate = 0.
Proof.
  intros H. unfold accounted. simpl. unfold wrap64. rewrite Z.mod_0_l by lia.
  reflexivity.
Qed.

(** *** What the caps and the counter guarantee *)

Lemma om_find_set_same (k : string) (e : CacheEntry) (m : list (string * CacheEntry)) :
  om_find String.ltb k (om_set String.ltb k e m) = Some e.
Proof.
  induction m as [|[k' v] m IH]; simpl.
  - now rewrite string_key_equiv_refl.
  - destruct (String.ltb k k') eqn:E1; simpl.
    + now rewrite string_key_equiv_refl.
    + destruct (String.ltb k' k) eqn:E2; simpl.
      * unfold key_equiv at 1. rewrite E1, E2. simpl. exact IH.
      * unfold key_equiv. now rewrite E1, E2.
Qed.

Lemma om_set_length_fresh (k : string) (e : CacheEntry) (m : list (string * CacheEntry)) :
  om_find String.ltb k m = None ->
  List.length (om_set String.ltb k e m) = S (List.length m).
Proof.
  induction m as [|[k' v] m IH]; simpl; [reflexivity|].
  unfold key_equiv.
  destruct (String.ltb k k') eqn:E1; simpl; [reflexivity|].
  destruct (String.ltb k' k) eqn:E2; simpl; [|discriminate].
  intros H. now rewrite (IH H).
Qed.

Lemma ShrinkCache_caps (c : ImageCache) (nb ni : Z) :
  m_MaxImages (ShrinkCache c nb ni) = m_MaxImages c /\
  m_MaxMemory (ShrinkCache c nb ni) = m_MaxMemory c /\
  m_Counter (ShrinkCache c nb ni) = m_Counter c /\
  (List.length (m_Cache (ShrinkCache c nb ni)) <= List.length (m_Cache c))%nat.
Proof.
  apply (ShrinkCache_loop_ind nb ni
    (fun c r => m_MaxImages r = m_MaxImages c /\ m_MaxMemory r = m_MaxMemory c /\
                m_Counter r = m_Counter c /\
                (List.length (m_Cache r) <= List.length (m_Cache c))%nat)).
  - intros; repeat split; lia.
  - intros c0 c' _ Hev (H1 & H2 & H3 & H4).
    pose proof (evict_oldest_shrinks _ _ Hev).
    destruct (evict_oldest_inv _ _ Hev) as (k & e & _ & _ & _ & E1 & E2 & E3).
    repeat split; try congruence; lia.
Qed.


Lemma GetImage_caps (rd : ImageType -> string -> option Z)
  (sz : ImageType -> Z) (T : ImageType) (f : string) (c : ImageCache) :
  m_MaxImages (fst (GetImage rd sz T f c)) = m_MaxImages c /\
  m_MaxMemory (fst (GetImage rd sz T f c)) = m_MaxMemory c.
Proof.
  unfold GetImage.
  destruct (om_find String.ltb f (m_Cache c)) as [it|].
  - destruct (dynamic_cast _ _); auto.
  - destruct (rd T f) as [n|]; [|auto]. cbn [fst m_MaxImages m_MaxMemory].
    destruct (ShrinkCache_caps c (wrap64 (n * sz T)) 1) as (H1 & H2 & _). auto.
Qed.

Lemma GetImage_count_step (rd : ImageType -> string -> option Z)
  (sz : ImageType -> Z) (T : ImageType) (f : string) (c : ImageCache) :
  0 < m_MaxImages c < 2 ^ 64 - 1 ->
  cache_size c <= m_MaxImages c ->
  cache_size (fst (GetImage rd sz T f c)) <= m_MaxImages c.
Proof.
  intros Hcap Hsz. unfold GetImage.
  destruct (om_find String.ltb f (m_Cache c)) as [it|] eqn:Hf.
  - destruct (dynamic_cast _ _); exact Hsz.
  - destruct (rd T f) as [n|]; [|exact Hsz].
    cbn [fst]. unfold cache_size in *. cbn [m_Cache].
    set (nb := wrap64 (n * sz T)).
    rewrite om_set_length_fresh by now apply ShrinkCache_find_None.
    pose proof (ShrinkCache_exits c nb 1) as Hex.
    destruct (ShrinkCache_caps c nb 1) as (Hmi & _ & _ & Hlen).
    unfold loop_condition, IsCacheFull, cache_size in Hex. rewrite Hmi in Hex.
    set (k := List.length (m_Cache (ShrinkCache c nb 1))) in *.
    replace (0 <? m_MaxImages c) with true in Hex
      by (symmetry; apply Z.ltb_lt; lia).
    rewrite (wrap64_small (Z.of_nat k + 1)) in Hex by (subst k; lia).
    destruct (Z.of_nat k + 1 <=? m_MaxImages c) eqn:E.
    + apply Z.leb_le in E. lia.
    + apply Z.leb_gt in E. apply Z.ltb_lt in E. rewrite E in Hex.
      destruct (0 <? Z.of_nat k) eqn:Ek; [|apply Z.ltb_ge in Ek; lia].
      exfalso. simpl in Hex.
      match type of Hex with context [if ?b then _ else _] => destruct b end;
        discriminate.
Qed.

(** X2. The count cap is kept. With [0 < m_MaxImages < 2^64 - 1], a cache
    that holds at most [m_MaxImages] images holds at most [m_MaxImages]
    images after any sequence of [GetImage] calls, hits, misses and
    failures alike, and whatever the byte counter holds. *)
Theorem GetImages_count_cap (rd : ImageType -> string -> option Z)
  (sz : ImageType -> Z) (T : ImageType) (files : list string) (c : ImageCache) :
  0 < m_MaxImages c < 2 ^ 64 - 1 ->
  cache_size c <= m_MaxImages c ->
  cache_size (GetImages rd sz T files c) <= m_MaxImages c.
Proof.
  unfold GetImages. revert c.
  induction files as [|f files IH]; intros c Hcap Hsz; simpl; [exact Hsz|].
  destruct (GetImage_caps rd sz T f c) as [Hmi _].
  rewrite <- Hmi. apply IH; rewrite Hmi; [assumption|].
  now apply GetImage_count_step.
Qed.

Lemma GetImages_count_cap_witness :
  cache_size
    (GetImages sample_reader sample_sizeof 0%nat ["A"; "B"; "A"; "C"]%string
       (new_ImageCache 0 0 2)) <= 2.
Proof.
  apply (GetImages_count_cap sample_reader sample_sizeof 0%nat
           ["A"; "B"; "A"; "C"]%string (new_ImageCache 0 0 2)).
  - simpl. lia.
  - vm_compute. discriminate.
Defined.

Lemma GetImage_byte_step (rd : ImageType -> string -> option Z)
  (sz : ImageType -> Z) (T : ImageType) (f : string) (c : ImageCache) :
  accounted c -> 0 < m_MaxMemory c ->
  within_byte_cap c -> within_byte_cap (fst (GetImage rd sz T f c)).
Proof.
  intros Hacc Hcap Hin.
  pose proof (GetImage_accounted rd sz T f c Hacc) as Hacc'.
  unfold within_byte_cap. rewrite <- Hacc'.
  destruct (GetImage_caps rd sz T f c) as [_ ->].
  revert Hacc'. unfold GetImage.
  destruct (om_find String.ltb f (m_Cache c)) as [it|] eqn:Hf.
  - intros _. unfold within_byte_cap in Hin. rewrite <- Hacc in Hin.
    destruct (dynamic_cast _ _); exact Hin.
  - destruct (rd T f) as [n|].
    2:{ intros _. unfold within_byte_cap in Hin. rewrite <- Hacc in Hin. exact Hin. }
    intros _. cbn [fst m_UsedMemory m_Cache].
    set (nb := wrap64 (n * sz T)).
    pose proof (ShrinkCache_exits c nb 1) as Hex.
    destruct (ShrinkCache_caps c nb 1) as (_ & Hmm & _ & _).
    unfold loop_condition, IsCacheFull in Hex. rewrite Hmm in Hex.
    replace (0 <? m_MaxMemory c) with true in Hex
      by (symmetry; apply Z.ltb_lt; lia).
    destruct (m_MaxMemory c <? wrap64 (m_UsedMemory (ShrinkCache c nb 1) + nb)) eqn:E.
    + simpl in Hex. right. apply Z.ltb_ge in Hex. unfold cache_size in Hex.
      destruct (m_Cache (ShrinkCache c nb 1)); simpl in *; lia.
    + left. apply Z.ltb_ge in E. exact E.
Qed.

(** X3. The byte cap is kept up to one image. With a byte cap above 0 and
    a counter in step with the entries, after any sequence of [GetImage]
    calls either the resident sizes sum (modulo 2^64) to at most
    [m_MaxMemory], or at most one image is resident: the cap is only
    exceeded by an image that is alone in the cache. *)
Theorem GetImages_byte_cap (rd : ImageType -> string -> option Z)
  (sz : ImageType -> Z) (T : ImageType) (files : list string) (c : ImageCache) :
  accounted c -> 0 < m_MaxMemory c -> within_byte_cap c ->
  within_byte_cap (GetImages rd sz T files c).
Proof.
  unfold GetImages. revert c.
  induction files as [|f files IH]; intros c Hacc Hcap Hin; simpl; [exact Hin|].
  apply IH.
  - now apply GetImage_accounted.
  - destruct (GetImage_caps rd sz T f c) as [_ ->]. exact Hcap.
  - now apply GetImage_byte_step.
Qed.

Lemma GetImages_byte_cap_witness :
  within_byte_cap
    (GetImages sample_reader sample_sizeof 0%nat ["A"; "B"; "A"; "C"]%string
       (new_ImageCache 0 2000 0)).
Proof.
  apply (GetImages_byte_cap sample_reader sample_sizeof 0%nat
           ["A"; "B"; "A"; "C"]%string (new_ImageCache 0 2000 0)).
  - reflexivity.
  - simpl. lia.
  - right. simpl. lia.
Defined.

(** X4. Once [GetImage] has returned an image for a file, the next call
    for that file and type returns the same image and leaves the cache as
    it is, without asking the reader: it answers the same for every reader,
    one that fails included. A call for the file with any image type is
    decided by the [dynamic_cast] of the cached object alone: it returns
    that object when the class of the object is the type asked for or
    derives from it, and throws "Type mismatch in image cache" otherwise;
    the cache stays as it is in both cases. *)
Theorem GetImage_served_from_cache (rd : ImageType -> string -> option Z)
  (sz : ImageType -> Z) (T : ImageType) (f : string) (c c' : ImageCache)
  (img : Image) :
  GetImage rd sz T f c = (c', Ok img) ->
  forall (rd' : ImageType -> string -> option Z) (sz' : ImageType -> Z),
    GetImage rd' sz' T f c' = (c', Ok img) /\
    forall T',
      GetImage rd' sz' T' f c'
      = (c', if Nat.eqb (type_id (image_type img)) (type_id T')
                || existsb (Nat.eqb (type_id T')) (type_bases (image_type img))
             then Ok img
             else Throw (GreedyException "Type mismatch in image cache")).
Proof.
  intros H rd' sz'.
  assert (Hf : exists it, om_find String.ltb f (m_Cache c') = Some it /\
                          ce_image it = img /\
                          dynamic_cast T (image_type img) = true).
  { revert H. unfold GetImage.
    destruct (om_find String.ltb f (m_Cache c)) as [it|] eqn:Hf.
    - destruct (dynamic_cast T (image_type (ce_image it))) eqn:E; [|discriminate].
      intros [= <- <-]. eauto.
    - destruct (rd T f) as [n|]; [|discriminate].
      intros [= <- <-]. cbn [m_Cache]. rewrite om_find_set_same.
      eexists. split; [reflexivity|]. split; [reflexivity|].
      apply dynamic_cast_refl. }
  destruct Hf as (it & Hf & <- & Ht).
  split.
  - unfold GetImage. rewrite Hf, Ht. reflexivity.
  - intros T'. unfold GetImage. rewrite Hf. unfold dynamic_cast.
    now destruct (_ || _).
Qed.

Lemma GetImage_served_from_cache_witness :
  let c' := fst (GetImage sample_reader sample_sizeof derived_image_class "A"
                   (new_ImageCache 0 0 2)) in
  let img := {| image_type := derived_image_class; image_file := "A";
                container_size := 100 |} in
  GetImage (fun _ _ => None) sample_sizeof derived_image_class "A" c'
  = (c', Ok img) /\
  GetImage (fun _ _ => None) sample_sizeof 0%nat "A" c' = (c', Ok img) /\
  GetImage (fun _ _ => None) sample_sizeof 2%nat "A" c'
  = (c', Throw (GreedyException "Type mismatch in image cache")).
Proof.
  pose proof (GetImage_served_from_cache sample_reader sample_sizeof
                derived_image_class "A"%string (new_ImageCache 0 0 2) _ _ eq_refl
                (fun _ _ => None) sample_sizeof) as [H1 H2].
  split; [exact H1|]. split; [exact (H2 0%nat)|exact (H2 2%nat)].
Defined.

(** *** The victim of an eviction *)

Lemma om_set_Z_In (k : Z) (v : string) (sm : list (Z * string)) (x : Z * string) :
  In x (om_set Z.ltb k v sm) -> x = (k, v) \/ In x sm.
Proof.
  induction sm as [|[k' v'] sm IH]; simpl.
  - intros [<-|[]]. now left.
  - destruct (k <? k') eqn:E1; [|destruct (k' <? k) eqn:E2]; simpl.
    + intros [<-|H]; auto.
    + intros [<-|H]; [auto|]. destruct (IH H); auto.
    + apply Z.ltb_ge in E1, E2. assert (k' = k) as -> by lia.
      intros [<-|H]; auto.
Qed.

Lemma om_set_Z_key (k : Z) (v : string) (sm : list (Z * string)) :
  In (k, v) (om_set Z.ltb k v sm).
Proof.
  induction sm as [|[k' v'] sm IH]; simpl; [now left|].
  destruct (k <? k') eqn:E1; [|destruct (k' <? k) eqn:E2]; simpl; auto.
  apply Z.ltb_ge in E1, E2. assert (k' = k) as -> by lia. now left.
Qed.

Lemma om_set_Z_kept (k : Z) (v : string) (sm : list (Z * string)) (x : Z * string) :
  In x sm -> exists n, In (fst x, n) (om_set Z.ltb k v sm).
Proof.
  induction sm as [|[k' v'] sm IH]; simpl; [intros []|].
  destruct (k <? k') eqn:E1; [|destruct (k' <? k) eqn:E2]; simpl.
  - intros [<-|H]; [exists v'|exists (snd x)]; simpl; auto.
    right. right. now destruct x.
  - intros [<-|H]; [exists v'; simpl; auto|].
    destruct (IH H) as [n Hn]. exists n. auto.
  - intros [<-|H]; [exists v; simpl; auto|].
    exists (snd x). right. now destruct x.
Qed.

Lemma om_set_Z_sorted (k : Z) (v : string) (sm : list (Z * string)) :
  age_sorted sm -> age_sorted (om_set Z.ltb k v sm).
Proof.
  unfold age_sorted.
  induction 1 as [|[k' v'] sm Hs IH Hall]; simpl.
  - repeat constructor.
  - destruct (k <? k') eqn:E1; [|destruct (k' <? k) eqn:E2].
    + apply Z.ltb_lt in E1. constructor; [now constructor|].
      constructor; [exact E1|].
      rewrite Forall_forall in *. intros y Hy. specialize (Hall y Hy).
      simpl in *. lia.
    + apply Z.ltb_lt in E2. constructor; [exact IH|].
      rewrite Forall_forall in *. intros y Hy.
      destruct (om_set_Z_In _ _ _ _ Hy) as [->|Hin]; [exact E2|auto].
    + constructor; assumption.
Qed.

#[local] Abbreviation sort_fold :=
  (fold_left (fun sm (it : string * CacheEntry) =>
                om_set Z.ltb (ce_age (snd it)) (fst it) sm)).

Lemma sort_fold_sorted (m : list (string * CacheEntry)) :
  forall sm, age_sorted sm -> age_sorted (sort_fold m sm).
Proof.
  induction m as [|[k e] m IH]; simpl; intros sm H; [exact H|].
  apply IH. now apply om_set_Z_sorted.
Qed.

Lemma sort_fold_origin (m : list (string * CacheEntry)) :
  forall sm x, In x (sort_fold m sm) ->
    In x sm \/ exists e, In (snd x, e) m /\ ce_age e = fst x.
Proof.
  induction m as [|[k e] m IH]; simpl; intros sm x H; [now left|].
  destruct (IH _ _ H) as [Hin|(e' & Hin & Ha)].
  - destruct (om_set_Z_In _ _ _ _ Hin) as [->|Hin']; [|now left].
    right. exists e. auto.
  - right. exists e'. auto.
Qed.

Lemma sort_fold_kept (m : list (string * CacheEntry)) :
  forall sm x, In x sm -> exists n, In (fst x, n) (sort_fold m sm).
Proof.
  induction m as [|[k e] m IH]; simpl; intros sm x H.
  - exists (snd x). now destruct x.
  - destruct (om_set_Z_kept (ce_age e) k sm x H) as [n Hn].
    apply (IH _ _ Hn).
Qed.

Lemma sort_fold_ages (m : list (string * CacheEntry)) :
  forall sm k e, In (k, e) m -> exists n, In (ce_age e, n) (sort_fold m sm).
Proof.
  induction m as [|[k' e'] m IH]; simpl; intros sm k e; [intros []|].
  intros [[= -> ->]|H]; [|now apply (IH _ k e)].
  apply (sort_fold_kept m _ (ce_age e, k)). apply om_set_Z_key.
Qed.

Lemma om_find_NoDup (k : string) (e : CacheEntry) (m : list (string * CacheEntry)) :
  NoDup (om_keys m) -> In (k, e) m -> om_find String.ltb k m = Some e.
Proof.
  unfold om_keys.
  induction m as [|[k' e'] m IH]; simpl; [intros _ []|].
  intros Hnd Hin. inversion Hnd as [|? ? Hnot Hnd']; subst.
  destruct Hin as [[= -> ->]|Hin].
  - now rewrite string_key_equiv_refl.
  - rewrite (string_key_equiv_ne k k'); [now apply IH|].
    intros ->. apply Hnot. apply (in_map fst _ _ Hin).
Qed.

(** X5. The entry that a pass of [ShrinkCache] erases has the lowest age
    of the cache: no entry has an age below the age of the victim. The
    file names of a [std::map] are distinct, which the list model asks
    for as a hypothesis. *)
Theorem evict_oldest_minimal_age (c c' : ImageCache) :
  NoDup (residents c) ->
  evict_oldest c = Some c' ->
  exists oldest e,
    om_find String.ltb oldest (m_Cache c) = Some e /\
    m_Cache c' = om_erase String.ltb oldest (m_Cache c) /\
    forall k e', In (k, e') (m_Cache c) -> ce_age e <= ce_age e'.
Proof.
  unfold residents. intros Hnd Hev.
  unfold evict_oldest in Hev.
  destruct (sort_map c) as [|[a oldest] sm] eqn:Hsm; [discriminate|].
  destruct (om_find String.ltb oldest (m_Cache c)) as [e|] eqn:Hf; [|discriminate].
  injection Hev as <-. exists oldest, e. split; [exact Hf|]. split; [reflexivity|].
  assert (Hsorted : age_sorted ((a, oldest) :: sm)).
  { rewrite <- Hsm. apply sort_fold_sorted. constructor. }
  assert (Ha : ce_age e = a).
  { destruct (sort_fold_origin (m_Cache c) [] (a, oldest)) as [[]|(e0 & Hin & Hage)].
    { fold (sort_map c). rewrite Hsm. now left. }
    simpl in Hin, Hage. rewrite (om_find_NoDup _ _ _ Hnd Hin) in Hf.
    congruence. }
  intros k e' Hin.
  destruct (sort_fold_ages (m_Cache c) [] k e' Hin) as [n Hn].
  fold (sort_map c) in Hn. rewrite Hsm in Hn.
  destruct Hn as [[= <- _]|Hn]; [lia|].
  inversion Hsorted as [|? ? _ Hall]; subst.
  rewrite Forall_forall in Hall. specialize (Hall _ Hn). simpl in Hall. lia.
Qed.

Lemma evict_oldest_minimal_age_witness :
  let c := GetImages sample_reader sample_sizeof 0%nat ["B"; "A"]%string
             (new_ImageCache 0 0 2) in
  exists oldest e,
    om_find String.ltb oldest (m_Cache c) = Some e /\
    forall k e', In (k, e') (m_Cache c) -> ce_age e <= ce_age e'.
Proof.
  intros c.
  destruct (evict_oldest_minimal_age c _
              ltac:(vm_compute; repeat constructor; simpl; intuition discriminate)
              eq_refl) as (oldest & e & Hf & _ & Hmin).
  exists oldest, e. split; assumption.
Defined.

(** X1. The byte counter stays in step with the entries. On a cache whose
    [m_UsedMemory] is the sum of the sizes of its entries modulo 2^64, any
    sequence of [GetImage] calls and any run of [ShrinkCache] leave it so;
    and after [PurgeCache] it is so for every later sequence of calls,
    whatever the counter held before. *)
Theorem GetImages_accounted (rd : ImageType -> string -> option Z)
  (sz : ImageType -> Z) (T : ImageType) (files : list string) (c : ImageCache)
  (new_bytes new_images : Z) :
  accounted c ->
  accounted (GetImages rd sz T files c) /\
  accounted (ShrinkCache c new_bytes new_images) /\
  forall c', accounted (GetImages rd sz T files (PurgeCache c')).
Proof.
  assert (H : forall c0, accounted c0 -> accounted (GetImages rd sz T files c0)).
  { unfold GetImages. induction files as [|f files IH]; intros c0 H0; simpl;
      [exact H0|]. apply IH. now apply GetImage_accounted. }
  intros Hacc. split; [now apply H|]. split; [now apply ShrinkCache_accounted|].
  intros c'. apply H. apply PurgeCache_accounted.
Qed.

Lemma GetImages_accounted_witness :
  accounted
    (GetImages sample_reader sample_sizeof 0%nat ["A"; "B"; "A"; "C"]%string
       (new_ImageCache 0 0 2)).
Proof.
  apply (proj1 (GetImages_accounted sample_reader sample_sizeof 0%nat
                  ["A"; "B"; "A"; "C"]%string (new_ImageCache 0 0 2) 0 0
                  eq_refl)).
Defined.
End CacheFacts.

(** ** The slide manifest *)

Module ManifestFacts.
Import Manifest.

Lemma read_word_nonspace (c : ascii) (s : string) :
  isspace c = false -> fst (read_word (String c s)) <> EmptyString.
Proof.
  intros H. simpl. rewrite H. destruct (read_word s). discriminate.
Qed.

Lemma skip_ws_head (s : string) :
  skip_ws s = EmptyString \/
  exists c r, skip_ws s = String c r /\ isspace c = false.
Proof.
  induction s as [|c s IH]; simpl; [now left|].
  destruct (isspace c) eqn:E; [assumption|].
  right. exists c, s. auto.
Qed.

Lemma extract_string_None (s : string) :
  extract_string s = None <-> blank s = true.
Proof.
  unfold extract_string, blank.
  destruct (skip_ws_head s) as [->|(c & r & -> & Hc)]; simpl.
  - tauto.
  - rewrite Hc. destruct (read_word r). split; discriminate.
Qed.

Lemma fields_nil (l : string) : fields l = [] <-> blank l = true.
Proof.
  unfold fields. simpl. rewrite <- extract_string_None.
  destruct (extract_string l) as [[w r]|]; split; try discriminate; auto.
Qed.

Section Environment.
Variable read_double : string -> option (Q * string).
Variable FileExists : string -> bool.
Variable CollapseFullPath : string -> string.

#[local] Abbreviation extract_slice := (extract_slice read_double).
#[local] Abbreviation line_ok := (line_ok read_double FileExists).
#[local] Abbreviation line_bad := (line_bad read_double FileExists).
#[local] Abbreviation stored_for := (stored_for read_double CollapseFullPath).
#[local] Abbreviation ReadManifest_loop :=
  (ReadManifest_loop read_double FileExists CollapseFullPath).
#[local] Abbreviation ReadManifest := (ReadManifest read_double FileExists CollapseFullPath).

Lemma blank_extract_slice (l : string) : blank l = true -> extract_slice l = None.
Proof.
  intros H. apply extract_string_None in H.
  unfold Manifest.extract_slice. now rewrite H.
Qed.

Lemma line_ok_or_bad (l : string) : line_ok l \/ line_bad l.
Proof.
  unfold Manifest.line_ok, Manifest.line_bad.
  destruct (extract_slice l) as [s|]; [|now right; left].
  destruct (FileExists (raw_filename s)) eqn:E; [left|right; right]; eauto.
Qed.

Lemma line_ok_not_bad (l : string) : line_ok l -> line_bad l -> False.
Proof.
  intros (s & Hs & He) [Hn|(s' & Hs' & He')]; congruence.
Qed.

Lemma ReadManifest_loop_ok (lines : list string) :
  forall p, Forall line_ok lines ->
  exists p' slices,
    ReadManifest_loop lines p = (p', Ok tt) /\
    m_Slices p' = m_Slices p ++ slices /\
    Forall2 stored_for lines slices.
Proof.
  induction lines as [|l lines IH]; intros p H.
  - exists p, []. simpl. rewrite app_nil_r. repeat split. constructor.
  - inversion H as [|? ? (s & Hs & He) Hrest]; subst.
    simpl. rewrite Hs, He. simpl.
    match goal with |- context [ReadManifest_loop lines ?q] =>
      destruct (IH q Hrest) as (p' & slices & E & Hm & HF) end.
    exists p'. eexists (_ :: slices). split; [exact E|]. split.
    + rewrite Hm. simpl. rewrite <- app_assoc. reflexivity.
    + constructor; [|assumption]. exists s. auto.
Qed.

Lemma ReadManifest_loop_bad (lines : list string) :
  forall p, Exists line_bad lines ->
  exists p' msg, ReadManifest_loop lines p = (p', Throw (GreedyException msg)).
Proof.
  induction lines as [|l lines IH]; intros p H; [inversion H|].
  simpl.
  destruct (line_ok_or_bad l) as [(s & Hs & He)|[Hn|(s & Hs & He)]].
  - rewrite Hs, He. simpl. apply IH.
    inversion H as [? ? Hb|]; subst; [|assumption].
    exfalso. apply (line_ok_not_bad l); [exists s; auto|assumption].
  - rewrite Hn. eauto.
  - rewrite Hs, He. simpl. eauto.
Qed.

Lemma Forall_or_Exists_lines (lines : list string) :
  Forall line_ok lines \/ Exists line_bad lines.
Proof.
  induction lines as [|l lines [IH|IH]].
  - left. constructor.
  - destruct (line_ok_or_bad l); [left|right]; now constructor.
  - right. now constructor 2.
Qed.

Lemma Forall_ok_not_Exists_bad (lines : list string) :
  Forall line_ok lines -> Exists line_bad lines -> False.
Proof.
  induction 1 as [|l lines Hl _ IH]; intros HE; inversion HE; subst; auto.
  eapply line_ok_not_bad; eauto.
Qed.

Lemma single_field_line_bad (l : string) :
  read_double EmptyString = None ->
  List.length (fields l) = 1%nat -> line_bad l.
Proof.
  intros Hrd Hlen. left. unfold Manifest.extract_slice.
  unfold fields in Hlen. simpl in Hlen.
  destruct (extract_string l) as [[w r]|] eqn:E; [|reflexivity].
  destruct l as [|c l]; [discriminate|].
  simpl in Hlen.
  destruct (extract_string r) as [[w' r']|] eqn:E'; [discriminate|].
  apply extract_string_None in E'. unfold blank in E'.
  destruct (skip_ws r); [|discriminate]. now rewrite Hrd.
Qed.

End Environment.

(** C2, as the code has it. [ReadManifest] does not skip blank lines: a
    blank line fails the extraction like any other line that does not
    yield an id, a number and a file name, and the call throws. The call
    succeeds exactly when every line of the manifest yields the three
    values and names an existing file, and throws a [GreedyException]
    exactly when some line does not; a blank line, and (when the number
    reader fails on an empty stream) a line of a single field, are such
    lines. On success there is one slide per line, in order. *)
Theorem ReadManifest_outcome :
  forall (read_double : string -> option (Q * string))
         (FileExists : string -> bool) (CollapseFullPath : string -> string)
         (manifest : string) (p : Project),
    let r := ReadManifest read_double FileExists CollapseFullPath manifest p in
    (snd r = Ok tt <->
     Forall (line_ok read_double FileExists) (getlines manifest)) /\
    ((exists msg, snd r = Throw (GreedyException msg)) <->
     Exists (line_bad read_double FileExists) (getlines manifest)) /\
    (forall l, blank l = true -> line_bad read_double FileExists l) /\
    (read_double EmptyString = None ->
     forall l, List.length (fields l) = 1%nat ->
               line_bad read_double FileExists l) /\
    (snd r = Ok tt ->
     Forall2 (stored_for read_double CollapseFullPath)
             (getlines manifest) (m_Slices (fst r))).
Proof.
  intros rd fe cfp manifest p r.
  assert (Hok : Forall (line_ok rd fe) (getlines manifest) ->
                snd r = Ok tt /\
                Forall2 (stored_for rd cfp) (getlines manifest) (m_Slices (fst r))).
  { intros H. subst r. unfold ReadManifest.
    match goal with |- context [ReadManifest_loop _ _ _ _ ?q] =>
      destruct (ReadManifest_loop_ok rd fe cfp _ q H) as (p' & sl & E & Hm & HF) end.
    rewrite E. simpl in *. rewrite Hm. auto. }
  assert (Hbad : Exists (line_bad rd fe) (getlines manifest) ->
                 exists msg, snd r = Throw (GreedyException msg)).
  { intros H. subst r. unfold ReadManifest.
    match goal with |- context [ReadManifest_loop _ _ _ _ ?q] =>
      destruct (ReadManifest_loop_bad rd fe cfp _ q H) as (p' & msg & E) end.
    rewrite E. simpl. eauto. }
  split; [split|split; [split|split; [|split]]].
  - intros H.
    destruct (Forall_or_Exists_lines rd fe (getlines manifest)) as [HF|HE];
      [assumption|].
    destruct (Hbad HE) as [msg E]. congruence.
  - intros H. now apply Hok.
  - intros [msg H].
    destruct (Forall_or_Exists_lines rd fe (getlines manifest)) as [HF|HE];
      [|assumption].
    destruct (Hok HF) as [E _]. congruence.
  - assumption.
  - intros l Hl. left. now apply blank_extract_slice.
  - intros Hrd l Hl. now apply single_field_line_bad.
  - intros H.
    destruct (Forall_or_Exists_lines rd fe (getlines manifest)) as [HF|HE].
    + now apply Hok.
    + destruct (Hbad HE) as [msg E]. congruence.
Qed.

Lemma ReadManifest_outcome_witness :
  snd (ReadManifest sample_read_double sample_FileExists
         sample_CollapseFullPath manifest_two_slides empty_project) = Ok tt.
Proof.
  apply (proj2 (proj1 (ReadManifest_outcome sample_read_double
                         sample_FileExists sample_CollapseFullPath
                         manifest_two_slides empty_project))).
  vm_compute. repeat constructor; eexists; split; reflexivity.
Defined.

(** C2, as stated, fails on a manifest with an empty line between two
    well-formed lines: every line that is not blank has three fields,
    yields a slide and names an existing file, and yet the call throws
    on the empty line instead of skipping it. *)
Lemma ReadManifest_blank_line_throws :
  (forall l, In l (getlines manifest_with_blank_line) -> blank l = false ->
             List.length (fields l) = 3%nat /\
             line_ok sample_read_double sample_FileExists l) /\
  (exists l, In l (getlines manifest_with_blank_line) /\ blank l = true) /\
  snd (ReadManifest sample_read_double sample_FileExists
         sample_CollapseFullPath manifest_with_blank_line empty_project)
  = Throw (GreedyException "Error reading manifest file, line ").
Proof.
  split; [|split].
  - intros l Hin Hb. vm_compute in Hin.
    destruct Hin as [<-|[<-|[<-|[]]]]; try discriminate;
      (split; [reflexivity|eexists; split; reflexivity]).
  - exists EmptyString. split; [|reflexivity]. vm_compute. tauto.
  - vm_compute. reflexivity.
Qed.

(** *** Reading back a manifest that [WriteManifest] wrote *)

#[local] Open Scope string_scope.

Lemma skip_ws_word (w r : string) : is_word w -> skip_ws (w ++ r) = w ++ r.
Proof.
  intros [Hne Hw]. destruct w as [|c w]; [congruence|].
  simpl. rewrite (Hw c); [reflexivity|]. simpl. auto.
Qed.

Lemma read_word_chars (w r : string) :
  (forall c, In c (list_ascii_of_string w) -> isspace c = false) ->
  read_word (w ++ r) = (w ++ fst (read_word r), snd (read_word r)).
Proof.
  induction w as [|c w IH]; simpl; intros Hw.
  - change ("" ++ r) with r. destruct (read_word r); reflexivity.
  - rewrite (Hw c) by auto. rewrite IH by auto. reflexivity.
Qed.

Lemma append_empty_r (w : string) : w ++ "" = w.
Proof.
  induction w as [|c w IH]; [reflexivity|].
  change (String c w ++ "") with (String c (w ++ "")). now rewrite IH.
Qed.

Lemma extract_string_word (w r : string) :
  is_word w -> extract_string (w ++ " " ++ r) = Some (w, " " ++ r).
Proof.
  intros Hw. unfold extract_string. rewrite skip_ws_word by assumption.
  rewrite read_word_chars by apply Hw. simpl. rewrite append_empty_r.
  destruct Hw as [Hne _]. destruct w; [congruence|reflexivity].
Qed.

Lemma extract_string_whole (w : string) :
  is_word w -> extract_string w = Some (w, "").
Proof.
  intros Hw. unfold extract_string.
  pose proof (skip_ws_word w "" Hw) as Hs. rewrite append_empty_r in Hs.
  rewrite Hs.
  pose proof (read_word_chars w "" (proj2 Hw)) as Hr.
  rewrite append_empty_r in Hr. rewrite Hr. simpl. rewrite append_empty_r.
  destruct Hw as [Hne _]. destruct w; [congruence|reflexivity].
Qed.

Lemma extract_string_last (w : string) :
  is_word w -> extract_string (" " ++ w) = Some (w, "").
Proof.
  intros Hw. rewrite <- (extract_string_whole w Hw). reflexivity.
Qed.

Lemma getlines_line (l rest : string) :
  (forall c, In c (list_ascii_of_string l) -> c <> "010"%char) ->
  getlines (l ++ newline ++ rest) = l :: getlines rest.
Proof.
  induction l as [|c l IH]; simpl; intros Hl; [reflexivity|].
  destruct (Ascii.eqb c "010") eqn:E.
  - apply Ascii.eqb_eq in E. exfalso. apply (Hl c); auto.
  - rewrite IH by auto. reflexivity.
Qed.

Lemma in_append (a b : string) (c : ascii) :
  In c (list_ascii_of_string (a ++ b)) ->
  In c (list_ascii_of_string a) \/ In c (list_ascii_of_string b).
Proof.
  induction a as [|x a IH]; simpl; [auto|]. intros [H|H]; [auto|].
  destruct (IH H); auto.
Qed.

Section Output.
Variable print_double : Q -> string.
Variable read_double : string -> option (Q * string).
Variable FileExists : string -> bool.
Variable CollapseFullPath : string -> string.

#[local] Abbreviation restorable_here :=
  (restorable print_double read_double FileExists CollapseFullPath).

Lemma manifest_line_no_newline (s : SliceData) :
  restorable_here s ->
  forall c, In c (list_ascii_of_string (manifest_line print_double s)) ->
            c <> "010"%char.
Proof.
  intros ((_ & H1) & (_ & H2) & ((_ & H3) & _) & _) c Hc ->.
  unfold manifest_line in Hc.
  apply in_append in Hc as [Hc|Hc]; [now apply H1 in Hc|].
  apply in_append in Hc as [Hc|Hc]; [simpl in Hc; intuition discriminate|].
  apply in_append in Hc as [Hc|Hc]; [now apply H3 in Hc|].
  apply in_append in Hc as [Hc|Hc]; [simpl in Hc; intuition discriminate|].
  now apply H2 in Hc.
Qed.

Lemma extract_slice_manifest_line (s : SliceData) :
  restorable_here s ->
  extract_slice read_double (manifest_line print_double s) = Some s.
Proof.
  intros (Hid & Hfn & (Hpw & Hrd) & _).
  unfold extract_slice, manifest_line.
  rewrite extract_string_word by assumption.
  change (skip_ws (" " ++ ?x)) with (skip_ws x).
  rewrite skip_ws_word by assumption. rewrite Hrd.
  rewrite extract_string_last by assumption. now destruct s.
Qed.

Lemma getlines_WriteManifest (slices : list SliceData) :
  Forall restorable_here slices ->
  getlines (WriteManifest print_double slices)
  = map (manifest_line print_double) slices.
Proof.
  induction 1 as [|s slices Hs _ IH]; simpl; [reflexivity|].
  rewrite getlines_line by now apply manifest_line_no_newline.
  now rewrite IH.
Qed.

End Output.

Lemma written_manifest_read_back (print_double : Q -> string)
  (read_double : string -> option (Q * string)) (FileExists : string -> bool)
  (CollapseFullPath : string -> string) (slices : list SliceData) (p : Project) :
  Forall (restorable print_double read_double FileExists CollapseFullPath) slices ->
  exists p',
    ReadManifest read_double FileExists CollapseFullPath
      (WriteManifest print_double slices) p = (p', Ok tt) /\
    m_Slices p' = slices.
Proof.
  intros Hs. unfold ReadManifest.
  rewrite (getlines_WriteManifest _ _ _ _ _ Hs).
  match goal with |- context [ReadManifest_loop _ _ _ ?ls ?q] =>
    destruct (ReadManifest_loop_ok read_double FileExists CollapseFullPath ls q)
      as (p' & sl & E & Hm & HF) end.
  { rewrite Forall_map. eapply Forall_impl; [|exact Hs].
    intros s Hr. exists s. split; [now apply (extract_slice_manifest_line _ _ _ _ _ Hr)|].
    apply Hr. }
  exists p'. split; [exact E|]. simpl in *. rewrite Hm. clear E Hm.
  revert sl HF. induction Hs as [|s slices Hr _ IH]; simpl; intros sl HF.
  - now inversion HF.
  - inversion HF as [|? s' ? sl' (s0 & H0 & ->) HF']; subst.
    rewrite (extract_slice_manifest_line _ _ _ _ _ Hr) in H0. injection H0 as <-.
    f_equal; [|now apply IH].
    destruct Hr as (_ & _ & _ & _ & ->). now destruct s.
Qed.

(** X7. A manifest written by [WriteManifest] is read back by
    [ReadManifest] as the same slides, in the same order, without an
    exception, when every slide can be carried by a manifest: its id and
    file name are words, its position is printed as a word that the
    reader reads back, and its file exists under a name that
    [CollapseFullPath] leaves as it is. *)
Theorem WriteManifest_ReadManifest (print_double : Q -> string)
  (read_double : string -> option (Q * string)) (FileExists : string -> bool)
  (CollapseFullPath : string -> string) (slices : list SliceData) (p : Project) :
  Forall (restorable print_double read_double FileExists CollapseFullPath) slices ->
  let r := ReadManifest read_double FileExists CollapseFullPath
             (WriteManifest print_double slices) p in
  snd r = Ok tt /\ m_Slices (fst r) = slices.
Proof.
  intros Hs r. subst r.
  destruct (written_manifest_read_back _ _ _ _ _ p Hs) as (p' & -> & Hm).
  auto.
Qed.

Ltac word_chars :=
  split; [discriminate|];
  let c := fresh "c" in let H := fresh "H" in
  intros c H; simpl in H;
  repeat (destruct H as [<-|H]; [reflexivity|]); destruct H.

Lemma WriteManifest_ReadManifest_witness :
  let r := ReadManifest sample_read_double sample_FileExists
             sample_CollapseFullPath
             (WriteManifest sample_print_double restored_slides) empty_project in
  snd r = Ok tt /\ m_Slices (fst r) = restored_slides.
Proof.
  apply (WriteManifest_ReadManifest sample_print_double sample_read_double
           sample_FileExists sample_CollapseFullPath restored_slides
           empty_project).
  apply Forall_cons; [|apply Forall_cons; [|apply Forall_nil]];
    (split; [word_chars|split; [word_chars|split; [|split; reflexivity]]];
     split; [word_chars|intros rest; reflexivity]).
Defined.
End ManifestFacts.

(** ** The neighbour sets *)

Module NeighborsFacts.
Import Neighbors.

(** Slides of different index are never equivalent in a [slice_ref_set]. *)
Lemma slice_ref_ltb_distinct (x y : slice_ref) :
  snd x <> snd y -> slice_ref_ltb x y = true \/ slice_ref_ltb y x = true.
Proof.
  intros H. unfold slice_ref_ltb.
  destruct (Qltb (fst x) (fst y)); [now left|].
  destruct (Qltb (fst y) (fst x)); [now right|]. simpl.
  destruct (Nat.ltb (snd x) (snd y)) eqn:E1; [now left|].
  destruct (Nat.ltb (snd y) (snd x)) eqn:E2; [now right|].
  apply Nat.ltb_ge in E1, E2. exfalso. apply H. now apply Nat.le_antisymm.
Qed.

Lemma os_insert_In (x z : slice_ref) (s : list slice_ref) :
  (forall y, In y s -> snd y <> snd x) ->
  In z (os_insert slice_ref_ltb x s) <-> z = x \/ In z s.
Proof.
  induction s as [|y s IH]; simpl; intros Hd.
  - intuition.
  - destruct (slice_ref_ltb x y) eqn:E1; [simpl; intuition|].
    destruct (slice_ref_ltb y x) eqn:E2.
    + simpl. rewrite IH by auto. intuition.
    + destruct (slice_ref_ltb_distinct y x); [auto|congruence|congruence].
Qed.

Lemma fold_os_insert_In (l : list slice_ref) :
  forall s : list slice_ref,
  NoDup (map snd l) ->
  (forall x y, In x l -> In y s -> snd x <> snd y) ->
  forall z,
    In z (fold_left (fun s c => os_insert slice_ref_ltb c s) l s)
    <-> In z s \/ In z l.
Proof.
  induction l as [|c l IH]; simpl; intros s Hnd Hdis z; [intuition|].
  inversion Hnd as [|? ? Hc Hl]; subst.
  assert (Hcs : forall y, In y s -> snd y <> snd c).
  { intros y Hy E. apply (Hdis c y); auto. }
  rewrite IH; [rewrite os_insert_In by assumption; intuition|assumption|].
  intros x y Hx Hy. apply os_insert_In in Hy; [|assumption].
  destruct Hy as [->|Hy]; [|auto].
  intros E. apply Hc. rewrite <- E. now apply in_map.
Qed.

(** *** The vector of neighbour sets *)

Lemma vector_update_length {A : Type} (i : nat) (f : A -> A) (v : list A) :
  List.length (vector_update i f v) = List.length v.
Proof.
  revert i. induction v as [|x v IH]; intros [|i]; simpl; auto.
Qed.

Lemma vector_update_nth_eq {A : Type} (i : nat) (f : A -> A) (v : list A) (d : A) :
  (i < List.length v)%nat -> nth i (vector_update i f v) d = f (nth i v d).
Proof.
  revert i. induction v as [|x v IH]; intros [|i]; simpl; intros H;
    try (exfalso; inversion H; fail); auto.
  apply IH. now apply Nat.succ_lt_mono.
Qed.

Lemma vector_update_nth_ne {A : Type} (i k : nat) (f : A -> A) (v : list A) (d : A) :
  k <> i -> nth k (vector_update i f v) d = nth k v d.
Proof.
  revert i k. induction v as [|x v IH]; intros [|i] [|k]; simpl; intros H;
    auto; congruence.
Qed.

Section Arithmetic.
Context {D : Type} {dbl : Double D}.

Lemma nbr_walk_length (it : slice_ref) (z_range : D) (cands : list slice_ref) :
  forall n_added st,
    List.length (fst (nbr_walk it z_range cands n_added st)) = List.length (fst st).
Proof.
  induction cands as [|c cands IH]; simpl; intros n st; [reflexivity|].
  destruct (_ || _); [|reflexivity].
  rewrite IH. simpl. apply vector_update_length.
Qed.

Lemma nbr_walk_other (it : slice_ref) (z_range : D) (cands : list slice_ref) (k : nat) :
  k <> snd it ->
  forall n_added st,
    nth k (fst (nbr_walk it z_range cands n_added st)) [] = nth k (fst st) [].
Proof.
  intros Hk. induction cands as [|c cands IH]; simpl; intros n st; [reflexivity|].
  destruct (_ || _); [|reflexivity].
  rewrite IH. simpl. now apply vector_update_nth_ne.
Qed.

Lemma nbr_walk_own (it : slice_ref) (z_range : D) (cands : list slice_ref) :
  forall n_added st,
    (snd it < List.length (fst st))%nat ->
    nth (snd it) (fst (nbr_walk it z_range cands n_added st)) []
    = fold_left (fun s c => os_insert slice_ref_ltb c s)
        (added it z_range cands n_added) (nth (snd it) (fst st) []).
Proof.
  induction cands as [|c cands IH]; simpl; intros n st Hlt; [reflexivity|].
  destruct (_ || _); [|reflexivity].
  rewrite IH by (simpl; now rewrite vector_update_length).
  simpl. now rewrite vector_update_nth_eq.
Qed.

Lemma nbr_pass_length (order : list slice_ref) (z_range : D) :
  forall st, List.length (fst (nbr_pass order z_range st)) = List.length (fst st).
Proof.
  induction order as [|it order IH]; simpl; intros st; [reflexivity|].
  rewrite IH. apply nbr_walk_length.
Qed.

Lemma nbr_pass_other (order : list slice_ref) (z_range : D) (k : nat) :
  ~ In k (map snd order) ->
  forall st, nth k (fst (nbr_pass order z_range st)) [] = nth k (fst st) [].
Proof.
  induction order as [|it order IH]; simpl; intros Hk st; [reflexivity|].
  rewrite IH by tauto. apply nbr_walk_other. intros E. apply Hk. now left.
Qed.

Lemma nbr_pass_own (z_range : D) (it : slice_ref) (after : list slice_ref) :
  forall (before : list slice_ref) st,
    NoDup (map snd (before ++ it :: after)) ->
    (snd it < List.length (fst st))%nat ->
    nth (snd it) (fst (nbr_pass (before ++ it :: after) z_range st)) []
    = fold_left (fun s c => os_insert slice_ref_ltb c s)
        (added it z_range after 0) (nth (snd it) (fst st) []).
Proof.
  induction before as [|b before IH]; simpl; intros st Hnd Hlt.
  - inversion Hnd as [|? ? Hn _]; subst.
    rewrite nbr_pass_other by assumption. now apply nbr_walk_own.
  - inversion Hnd as [|? ? Hn Hnd']; subst.
    rewrite IH; [|assumption|now rewrite nbr_walk_length].
    rewrite nbr_walk_other; [reflexivity|].
    intros E. apply Hn. rewrite map_app, in_app_iff. right. left. auto.
Qed.

(** *** What one walk adds *)

Lemma added_next (it : slice_ref) (z_range : D) (cands : list slice_ref) :
  forall n,
  exists m,
    added it z_range cands (S n) = firstn m cands /\
    (forall i c, (i < m)%nat -> nth_error cands i = Some c ->
                 in_range it c z_range = true) /\
    (forall c, nth_error cands m = Some c -> in_range it c z_range = false).
Proof.
  induction cands as [|c cands IH]; intros n.
  - exists O. simpl. repeat split; intros; try discriminate. inversion H.
  - simpl. destruct (in_range it c z_range) eqn:E.
    + destruct (IH (S n)) as (m & Hm & Hin & Hout).
      exists (S m). simpl. rewrite Hm. repeat split.
      * intros [|i] c' Hi; simpl.
        -- intros [= <-]. assumption.
        -- apply Hin. now apply Nat.succ_lt_mono.
      * simpl. exact Hout.
    + exists O. simpl. repeat split.
      * intros i c' Hi. inversion Hi.
      * intros c' [= <-]. assumption.
Qed.

Lemma added_first (it : slice_ref) (z_range : D) (cands : list slice_ref) :
  exists m,
    added it z_range cands 0 = firstn m cands /\
    (cands <> [] -> (1 <= m)%nat) /\
    (forall i c, (1 <= i < m)%nat -> nth_error cands i = Some c ->
                 in_range it c z_range = true) /\
    (forall c, nth_error cands m = Some c ->
               (1 <= m)%nat /\ in_range it c z_range = false).
Proof.
  destruct cands as [|c cands].
  - exists O. simpl. repeat split; try congruence; try discriminate.
    intros i c [H1 H2]. inversion H2.
  - destruct (added_next it z_range cands O) as (m & Hm & Hin & Hout).
    exists (S m). simpl. rewrite Hm. repeat split.
    + intros _. apply le_n_S, Nat.le_0_l.
    + intros [|i] c' [H1 H2]; [inversion H1|]. simpl.
      apply Hin. now apply Nat.succ_lt_mono.
    + apply le_n_S, Nat.le_0_l.
    + simpl in H. now apply Hout.
Qed.

Lemma added_incl (it : slice_ref) (z_range : D) (cands : list slice_ref) (n : nat) :
  exists m, added it z_range cands n = firstn m cands.
Proof.
  revert n. induction cands as [|c cands IH]; intros n; simpl.
  - exists O. reflexivity.
  - destruct (_ || _); [|exists O; reflexivity].
    destruct (IH (S n)) as [m ->]. now exists (S m).
Qed.

Lemma added_In (it : slice_ref) (z_range : D) (cands : list slice_ref) (n : nat)
  (x : slice_ref) : In x (added it z_range cands n) -> In x cands.
Proof.
  destruct (added_incl it z_range cands n) as [m ->].
  intros H. rewrite <- (firstn_skipn m cands). apply in_or_app. now left.
Qed.

Lemma added_NoDup (it : slice_ref) (z_range : D) (cands : list slice_ref) (n : nat) :
  NoDup (map snd cands) -> NoDup (map snd (added it z_range cands n)).
Proof.
  destruct (added_incl it z_range cands n) as [m ->].
  rewrite <- (firstn_skipn m cands) at 1. rewrite map_app.
  apply NoDup_app_remove_r.
Qed.

(** With a range that no gap is below, the walk adds the first candidate
    only. *)
Lemma added_closed_range (it : slice_ref) (z_range : D) (c : slice_ref)
  (rest : list slice_ref) :
  (forall c', in_range it c' z_range = false) ->
  added it z_range (c :: rest) 0 = [c].
Proof.
  intros Hz. simpl. destruct rest as [|c' rest]; [reflexivity|]. simpl.
  now rewrite Hz.
Qed.

Lemma added_first_candidate (it : slice_ref) (z_range : D) (c : slice_ref)
  (rest : list slice_ref) : In c (added it z_range (c :: rest) 0).
Proof. simpl. now left. Qed.

Lemma NoDup_app_disjoint {A : Type} (l1 l2 : list A) (x : A) :
  NoDup (l1 ++ l2) -> In x l1 -> In x l2 -> False.
Proof.
  induction l1 as [|a l1 IH]; simpl; [tauto|].
  intros Hn [->|H1] H2; inversion Hn; subst.
  - match goal with H : ~ In _ _ |- _ => apply H end.
    apply in_or_app. now right.
  - now apply IH.
Qed.

(** The neighbour set of a slide after both passes: what the forward
    walk adds, then what the backward walk adds. *)
Lemma build_neighbors_own (p : Project) (z_range : D)
  (before after : list slice_ref) (it : slice_ref) :
  m_SortedSlices p = before ++ it :: after ->
  NoDup (map snd (m_SortedSlices p)) ->
  (snd it < List.length (m_Slices p))%nat ->
  nth (snd it) (fst (build_neighbors p z_range)) []
  = fold_left (fun s c => os_insert slice_ref_ltb c s)
      (added it z_range (rev before) 0)
      (fold_left (fun s c => os_insert slice_ref_ltb c s)
         (added it z_range after 0) []).
Proof.
  intros Hs Hnd Hlt. unfold build_neighbors. rewrite Hs in *.
  replace (rev (before ++ it :: after)) with (rev after ++ it :: rev before)
    by (rewrite rev_app_distr; simpl; now rewrite <- app_assoc).
  rewrite nbr_pass_own.
  - rewrite nbr_pass_own; [|assumption|simpl; now rewrite repeat_length].
    simpl. rewrite nth_repeat. reflexivity.
  - replace (rev after ++ it :: rev before) with (rev (before ++ it :: after))
      by (rewrite rev_app_distr; simpl; now rewrite <- app_assoc).
    rewrite map_rev. apply NoDup_rev. assumption.
  - rewrite nbr_pass_length. simpl. now rewrite repeat_length.
Qed.

(** The members of the neighbour set of a slide. *)
Lemma build_neighbors_members (p : Project) (z_range : D)
  (before after : list slice_ref) (it : slice_ref) :
  m_SortedSlices p = before ++ it :: after ->
  NoDup (map snd (m_SortedSlices p)) ->
  (snd it < List.length (m_Slices p))%nat ->
  forall x, In x (nth (snd it) (fst (build_neighbors p z_range)) []) <->
            In x (added it z_range after 0) \/
            In x (added it z_range (rev before) 0).
Proof.
  intros Hs Hnd Hlt x.
  rewrite (build_neighbors_own p z_range before after it) by assumption.
  rewrite Hs, map_app in Hnd. simpl in Hnd.
  pose proof (NoDup_remove_1 _ _ _ Hnd) as Hnd1.
  rewrite fold_os_insert_In.
  - rewrite fold_os_insert_In.
    + simpl. tauto.
    + apply added_NoDup. apply NoDup_app_remove_l in Hnd.
      now inversion Hnd.
    + intros ? ? _ [].
  - apply added_NoDup. rewrite map_rev. apply NoDup_rev.
    now apply NoDup_app_remove_r in Hnd1.
  - intros a b Ha Hb.
    apply fold_os_insert_In in Hb.
    + destruct Hb as [[]|Hb].
      apply added_In in Ha, Hb. apply in_rev in Ha.
      intros E.
      apply (in_map snd) in Ha, Hb. rewrite E in Ha.
      exact (NoDup_app_disjoint _ _ _ Hnd1 Ha Hb).
    + apply added_NoDup. apply NoDup_app_remove_l in Hnd. now inversion Hnd.
    + intros ? ? _ [].
Qed.

End Arithmetic.

(** In exact arithmetic the test of the walk compares the z-gap with the
    range. *)
Lemma in_range_exact (it c : slice_ref) (z_range : Q) :
  (in_range it c z_range = true <-> (z_gap it c < z_range)%Q) /\
  (in_range it c z_range = false <-> (z_range <= z_gap it c)%Q).
Proof.
  unfold in_range, z_gap. cbn [Dlt Dabs Dsub Dnum rational].
  split; [apply Qltb_lt|apply Qltb_ge].
Qed.

(** In binary64 no absolute value is below 0.0. *)
Lemma in_range_binary64_zero (it c : slice_ref) :
  in_range (D := PrimFloat.float) it c PrimFloat.zero = false.
Proof.
  unfold in_range. cbn [Dlt Dabs binary64].
  rewrite FloatAxioms.ltb_spec, FloatAxioms.abs_spec.
  destruct (FloatOps.Prim2SF _) as [s|s| |s m e]; reflexivity.
Qed.

(** C3, as the code has it. In each direction the walk from a slide adds
    the candidates in order: the first one always, then each next one
    while the test [fabs (z - z') < z_range] holds in the arithmetic of
    [double]; it ends at the end of the list or at the first later
    candidate for which the test fails. So every slide gets the nearest
    slide of each direction that has one, and with a range that no gap
    is below, as [z_range = 0.0] is in binary64, exactly that one. In
    exact arithmetic the candidates added after the first are those
    whose z-gap is strictly below [z_range], and a later candidate whose
    gap is [z_range] or more ends the walk. *)
Theorem neighbor_walk_strict :
  forall (D : Type) (dbl : Double D) (p : Project) (z_range : D)
         (before after : list slice_ref) (it : slice_ref),
    m_SortedSlices p = before ++ it :: after ->
    NoDup (map snd (m_SortedSlices p)) ->
    (snd it < List.length (m_Slices p))%nat ->
    let nbr := nth (snd it) (fst (build_neighbors p z_range)) [] in
    (forall x, In x nbr <->
               In x (added it z_range after 0) \/
               In x (added it z_range (rev before) 0)) /\
    (forall cands, exists m,
        added it z_range cands 0 = firstn m cands /\
        (cands <> [] -> (1 <= m)%nat) /\
        (forall i c, (1 <= i < m)%nat -> nth_error cands i = Some c ->
                     Dlt (Dabs (Dsub (Dnum (fst it)) (Dnum (fst c)))) z_range
                     = true) /\
        (forall c, nth_error cands m = Some c ->
                   (1 <= m)%nat /\
                   Dlt (Dabs (Dsub (Dnum (fst it)) (Dnum (fst c)))) z_range
                   = false)) /\
    (forall c rest, after = c :: rest -> In c nbr) /\
    (forall front c, before = front ++ [c] -> In c nbr) /\
    ((forall c : slice_ref,
         Dlt (Dabs (Dsub (Dnum (fst it)) (Dnum (fst c)))) z_range = false) ->
     forall c rest, added it z_range (c :: rest) 0 = [c]) /\
    (forall c rest,
        added (D := PrimFloat.float) it PrimFloat.zero (c :: rest) 0 = [c]) /\
    (forall (z : Q) cands, exists m,
        added (D := Q) it z cands 0 = firstn m cands /\
        (forall i c, (1 <= i < m)%nat -> nth_error cands i = Some c ->
                     (Qabs (fst it - fst c) < z)%Q) /\
        (forall c, nth_error cands m = Some c ->
                   (1 <= m)%nat /\ (z <= Qabs (fst it - fst c))%Q)).
Proof.
  intros D dbl p z_range before after it Hs Hnd Hlt nbr.
  pose proof (build_neighbors_members p z_range before after it Hs Hnd Hlt)
    as Hmem. fold nbr in Hmem.
  split; [exact Hmem|]. split; [intros cands; apply added_first|].
  split; [|split; [|split; [|split]]].
  - intros c rest ->. apply Hmem. left. apply added_first_candidate.
  - intros front c ->. apply Hmem. right.
    rewrite rev_app_distr. simpl. now left.
  - intros Hz c rest. now apply added_closed_range.
  - intros c rest. apply added_closed_range.
    intros c'. apply in_range_binary64_zero.
  - intros z cands.
    destruct (added_first (D := Q) it z cands) as (m & Hm & _ & Hin & Hout).
    exists m. split; [assumption|]. split.
    + intros i c Hi Hc. now apply (in_range_exact it c z), (Hin i).
    + intros c Hc. destruct (Hout c Hc) as [H1 H2].
      split; [assumption|]. now apply (in_range_exact it c z).
Qed.

Lemma neighbor_walk_strict_witness :
  In (1%Q, 1%nat)
     (nth 0 (fst (build_neighbors three_slides (Dnum (D := PrimFloat.float) 2))) []).
Proof.
  apply (proj1 (proj2 (proj2
           (neighbor_walk_strict PrimFloat.float binary64 three_slides (Dnum 2) []
              [(1%Q, 1%nat); (2%Q, 2%nat)]
              (0%Q, 0%nat) eq_refl
              ltac:(vm_compute; repeat constructor; simpl; intuition discriminate)
              ltac:(vm_compute; repeat constructor))))
         (1%Q, 1%nat) [(2%Q, 2%nat)] eq_refl).
Defined.

(** C3, as stated, fails in binary64 for slides at z = 0, 1, 2 with
    [z_range = 2]: walking forward from the slide at 0, the slide at 2 is
    a candidate whose gap equals [z_range] and does not exceed it, and it
    is not added. *)
Lemma neighbor_walk_gap_equal_not_added :
  (z_gap (0%Q, 0%nat) (2%Q, 2%nat) == 2)%Q /\
  nth 0 (fst (build_neighbors three_slides (Dnum (D := PrimFloat.float) 2))) []
  = [(1%Q, 1%nat)] /\
  ~ In (2%Q, 2%nat)
       (nth 0 (fst (build_neighbors three_slides
                      (Dnum (D := PrimFloat.float) 2))) []).
Proof.
  split; [reflexivity|]. split; [vm_compute; reflexivity|].
  vm_compute. intros [H|[]]. discriminate.
Qed.

(** The difference of two doubles is rounded before it is compared. For
    slides at z = 2^-54, 1/2 and 1 with [z_range = 1], the gap between
    the first and the last is below the range as a number, and the walk
    in exact arithmetic adds the last slide; in binary64 the difference
    rounds to 1, the test fails and the last slide is not added. *)
Example neighbor_walk_rounded_gap :
  (z_gap ((1 # 2 ^ 54)%Q, 0%nat) (1%Q, 2%nat) < 1)%Q /\
  nth 0 (fst (build_neighbors three_close_slides 1%Q)) []
  = [((1 # 2)%Q, 1%nat); (1%Q, 2%nat)] /\
  nth 0 (fst (build_neighbors three_close_slides
                (Dnum (D := PrimFloat.float) 1))) []
  = [((1 # 2)%Q, 1%nat)].
Proof.
  split; [reflexivity|]. split; vm_compute; reflexivity.
Qed.

(** *** Projects read from a manifest

    The theorems above ask for distinct indices within the slide list;
    every project that [ReadManifest] builds has them. *)

Lemma os_insert_NoDup (y : slice_ref) (s : list slice_ref) :
  NoDup (map snd s) -> ~ In (snd y) (map snd s) ->
  NoDup (map snd (os_insert slice_ref_ltb y s)).
Proof.
  intros Hnd Hy.
  assert (Hd : forall z, In z s -> snd z <> snd y).
  { intros z Hz E. apply Hy. rewrite <- E. now apply in_map. }
  induction s as [|x s IH]; simpl.
  - constructor; [tauto|constructor].
  - inversion Hnd as [|? ? Hx Hs]; subst.
    destruct (slice_ref_ltb y x); [now constructor|].
    destruct (slice_ref_ltb x y); [|assumption].
    simpl. constructor.
    + rewrite in_map_iff. intros (z & E & Hz).
      apply os_insert_In in Hz; [|intros; apply Hd; now right].
      destruct Hz as [->|Hz].
      * apply (Hd x); [now left|congruence].
      * apply Hx. rewrite <- E. now apply in_map.
    + apply IH; [assumption| |].
      * intros H. apply Hy. now right.
      * intros z Hz. apply Hd. now right.
Qed.

Lemma ReadManifest_loop_indexed (read_double : string -> option (Q * string))
  (FileExists : string -> bool) (CollapseFullPath : string -> string)
  (lines : list string) :
  forall p, indexed p ->
    indexed (fst (Manifest.ReadManifest_loop read_double FileExists
                    CollapseFullPath lines p)).
Proof.
  induction lines as [|l lines IH]; simpl; intros p Hp; [assumption|].
  destruct (Manifest.extract_slice read_double l) as [s|]; [|assumption].
  destruct (negb (FileExists (raw_filename s))); [assumption|].
  apply IH. destruct Hp as [Hnd Hlt]. split; simpl.
  - apply os_insert_NoDup; [assumption|]. simpl.
    rewrite in_map_iff. intros (x & E & Hx). specialize (Hlt x Hx).
    rewrite E in Hlt. now apply Nat.lt_irrefl in Hlt.
  - intros x Hx. rewrite length_app. simpl.
    apply os_insert_In in Hx.
    + destruct Hx as [->|Hx]; simpl; [|specialize (Hlt x Hx)];
        rewrite Nat.add_1_r; [apply Nat.lt_succ_diag_r|now apply Nat.lt_lt_succ_r].
    + intros y Hy E. specialize (Hlt y Hy). simpl in E. rewrite E in Hlt.
      now apply Nat.lt_irrefl in Hlt.
Qed.

Lemma ReadManifest_indexed (read_double : string -> option (Q * string))
  (FileExists : string -> bool) (CollapseFullPath : string -> string)
  (manifest : string) (p : Project) :
  indexed (fst (Manifest.ReadManifest read_double FileExists CollapseFullPath
                  manifest p)).
Proof.
  unfold Manifest.ReadManifest. apply ReadManifest_loop_indexed.
  split; simpl; [constructor|intros ? []].
Qed.

(** *** The order of [m_SortedSlices] *)

Lemma slice_ref_ltb_spec (a b : slice_ref) :
  slice_ref_ltb a b = true <->
  (fst a < fst b)%Q \/ ((fst a <= fst b)%Q /\ (snd a < snd b)%nat).
Proof.
  unfold slice_ref_ltb.
  rewrite orb_true_iff, andb_true_iff, negb_true_iff, Qltb_lt, Qltb_ge, Nat.ltb_lt.
  reflexivity.
Qed.

Lemma slice_ref_lt_trans (a b c : slice_ref) :
  slice_ref_lt a b -> slice_ref_lt b c -> slice_ref_lt a c.
Proof.
  unfold slice_ref_lt. rewrite !slice_ref_ltb_spec.
  intros [H1|[H1 N1]] [H2|[H2 N2]].
  - left. now apply Qlt_trans with (fst b).
  - left. now apply Qlt_le_trans with (fst b).
  - left. now apply Qle_lt_trans with (fst b).
  - right. split; [now apply Qle_trans with (fst b)|lia].
Qed.

Lemma slice_ref_ltb_irrefl (a : slice_ref) : slice_ref_ltb a a = false.
Proof.
  destruct (slice_ref_ltb a a) eqn:E; [|reflexivity].
  apply slice_ref_ltb_spec in E. destruct E as [H|[_ H]].
  - now apply Qlt_irrefl in H.
  - lia.
Qed.

Lemma os_insert_elements (x z : slice_ref) (s : list slice_ref) :
  In z (os_insert slice_ref_ltb x s) -> z = x \/ In z s.
Proof.
  induction s as [|y s IH]; simpl.
  - intros [<-|[]]. now left.
  - destruct (slice_ref_ltb x y); [simpl; intuition|].
    destruct (slice_ref_ltb y x); [|now right].
    simpl. intros [<-|H]; [auto|]. destruct (IH H); auto.
Qed.

Lemma os_insert_sorted (x : slice_ref) (s : list slice_ref) :
  StronglySorted slice_ref_lt s ->
  StronglySorted slice_ref_lt (os_insert slice_ref_ltb x s).
Proof.
  induction 1 as [|y s Hs IH Hall]; simpl.
  - repeat constructor.
  - destruct (slice_ref_ltb x y) eqn:E1; [|destruct (slice_ref_ltb y x) eqn:E2].
    + constructor; [now constructor|]. constructor; [exact E1|].
      rewrite Forall_forall in *. intros z Hz.
      apply (slice_ref_lt_trans x y z); [exact E1|auto].
    + constructor; [exact IH|].
      rewrite Forall_forall in *. intros z Hz.
      destruct (os_insert_elements _ _ _ Hz) as [->|Hin]; [exact E2|auto].
    + now constructor.
Qed.

Lemma os_insert_fresh_length (x : slice_ref) (s : list slice_ref) :
  (forall y, In y s -> snd y <> snd x) ->
  List.length (os_insert slice_ref_ltb x s) = S (List.length s).
Proof.
  induction s as [|y s IH]; simpl; intros Hd; [reflexivity|].
  destruct (slice_ref_ltb x y) eqn:E1; [reflexivity|].
  destruct (slice_ref_ltb y x) eqn:E2.
  - simpl. rewrite IH; auto.
  - destruct (slice_ref_ltb_distinct y x); [auto|congruence|congruence].
Qed.

Lemma ReadManifest_loop_well_sorted (read_double : string -> option (Q * string))
  (FileExists : string -> bool) (CollapseFullPath : string -> string)
  (lines : list string) :
  forall p, indexed p -> well_sorted p ->
    well_sorted (fst (Manifest.ReadManifest_loop read_double FileExists
                        CollapseFullPath lines p)).
Proof.
  induction lines as [|l lines IH]; simpl; intros p Hi Hp; [assumption|].
  pose proof (ReadManifest_loop_indexed read_double FileExists CollapseFullPath
                [l] p Hi) as Hi'.
  simpl in Hi'.
  destruct (Manifest.extract_slice read_double l) as [s|]; [|assumption].
  destruct (negb (FileExists (raw_filename s))); [assumption|].
  apply IH; [exact Hi'|].
  destruct Hp as (Hs & Hl & Hin). destruct Hi as [Hnd Hlt].
  assert (Hfresh : forall y, In y (m_SortedSlices p) ->
                             snd y <> List.length (m_Slices p)).
  { intros y Hy E. specialize (Hlt y Hy). lia. }
  split; [|split]; simpl.
  - now apply os_insert_sorted.
  - rewrite os_insert_fresh_length by exact Hfresh.
    rewrite length_app. simpl. lia.
  - intros k s' Hk. apply os_insert_In; [exact Hfresh|].
    destruct (Nat.lt_ge_cases k (List.length (m_Slices p))) as [Hlt'|Hge].
    + rewrite nth_error_app1 in Hk by assumption. right. auto.
    + rewrite nth_error_app2 in Hk by assumption.
      destruct (k - List.length (m_Slices p))%nat as [|d] eqn:Ed; simpl in Hk.
      * injection Hk as <-. simpl. left. f_equal. lia.
      * now destruct d.
Qed.

(** X6. Whatever the manifest, and whether [ReadManifest] returns or
    throws, the project it leaves has a sorted list that matches its
    slides: the indices in [m_SortedSlices] are distinct and below the
    number of slides, the list ascends in the order of [slice_ref], it
    has as many elements as there are slides, and slide [k] is in it as
    the pair of its position and [k]. *)
Theorem ReadManifest_well_sorted (read_double : string -> option (Q * string))
  (FileExists : string -> bool) (CollapseFullPath : string -> string)
  (manifest : string) (p : Project) :
  let p' := fst (Manifest.ReadManifest read_double FileExists CollapseFullPath
                   manifest p) in
  indexed p' /\ well_sorted p'.
Proof.
  intros p'. split; [apply ReadManifest_indexed|]. subst p'.
  unfold Manifest.ReadManifest. apply ReadManifest_loop_well_sorted.
  - split; simpl; [constructor|intros ? []].
  - split; [|split]; simpl; [constructor|reflexivity|].
    intros [|k] s; discriminate.
Qed.


End NeighborsFacts.

(** ** The edge weights *)

Module EdgeWeightsFacts.
Import Neighbors NeighborsFacts EdgeWeights.

#[local] Open Scope nat_scope.

(** *** The slots of the adjacency structure *)

Lemma sum_sizes_cons (nbr : list slice_ref) (rest : list (list slice_ref)) :
  sum_sizes (nbr :: rest) = List.length nbr + sum_sizes rest.
Proof. reflexivity. Qed.

Lemma sum_sizes_nil : sum_sizes [] = 0.
Proof. reflexivity. Qed.

Lemma adjidx_from_nth (slice_nbr : list (list slice_ref)) :
  forall acc k, k <= List.length slice_nbr ->
    nth k (adjidx_from acc slice_nbr) 0 = acc + sum_sizes (firstn k slice_nbr).
Proof.
  induction slice_nbr as [|nbr rest IH]; intros acc k Hk.
  - simpl in Hk. apply Nat.le_0_r in Hk. subst. simpl. rewrite sum_sizes_nil. lia.
  - destruct k as [|k].
    + simpl. rewrite ?firstn_O, sum_sizes_nil. lia.
    + cbn [adjidx_from nth firstn]. rewrite IH by (simpl in Hk; lia).
      rewrite sum_sizes_cons. lia.
Qed.

Lemma sum_sizes_firstn_S (slice_nbr : list (list slice_ref)) :
  forall i, i < List.length slice_nbr ->
    sum_sizes (firstn (S i) slice_nbr)
    = sum_sizes (firstn i slice_nbr) + List.length (nth i slice_nbr []).
Proof.
  induction slice_nbr as [|nbr rest IH]; intros i Hi; [inversion Hi|].
  destruct i as [|i].
  - simpl firstn. simpl nth. rewrite sum_sizes_cons, ?firstn_O, !sum_sizes_nil. lia.
  - change (firstn (S (S i)) (nbr :: rest)) with (nbr :: firstn (S i) rest).
    change (firstn (S i) (nbr :: rest)) with (nbr :: firstn i rest).
    cbn [nth]. rewrite !sum_sizes_cons, IH by (simpl in Hi; lia). lia.
Qed.

Lemma sum_sizes_firstn_mono (slice_nbr : list (list slice_ref)) :
  forall i k, i <= k -> sum_sizes (firstn i slice_nbr) <= sum_sizes (firstn k slice_nbr).
Proof.
  induction slice_nbr as [|nbr rest IH]; intros i k Hik.
  - rewrite !firstn_nil. reflexivity.
  - destruct i as [|i]; [rewrite firstn_O, sum_sizes_nil; lia|].
    destruct k as [|k]; [lia|].
    cbn [firstn]. rewrite !sum_sizes_cons. specialize (IH i k). lia.
Qed.

(** The slots of two different slides do not overlap, and all lie below
    the total number of elements. *)
Lemma slots_disjoint (slice_nbr : list (list slice_ref)) (i k q r : nat) :
  i < List.length slice_nbr -> k < List.length slice_nbr -> i <> k ->
  q < List.length (nth i slice_nbr []) -> r < List.length (nth k slice_nbr []) ->
  nth i (G_adjidx slice_nbr) 0 + q <> nth k (G_adjidx slice_nbr) 0 + r.
Proof.
  intros Hi Hk Hne Hq Hr. unfold G_adjidx.
  rewrite !adjidx_from_nth by lia. simpl.
  pose proof (sum_sizes_firstn_S slice_nbr i Hi).
  pose proof (sum_sizes_firstn_S slice_nbr k Hk).
  destruct (Nat.lt_ge_cases i k) as [Hlt|Hge].
  - pose proof (sum_sizes_firstn_mono slice_nbr (S i) k Hlt). lia.
  - assert (Hlt : S k <= i) by lia.
    pose proof (sum_sizes_firstn_mono slice_nbr (S k) i Hlt). lia.
Qed.

Lemma slot_in_range (slice_nbr : list (list slice_ref)) (i q : nat) :
  i < List.length slice_nbr -> q < List.length (nth i slice_nbr []) ->
  nth i (G_adjidx slice_nbr) 0 + q < sum_sizes slice_nbr.
Proof.
  intros Hi Hq. unfold G_adjidx. rewrite adjidx_from_nth by lia. simpl.
  pose proof (sum_sizes_firstn_S slice_nbr i Hi).
  pose proof (sum_sizes_firstn_mono slice_nbr (S i) (List.length slice_nbr) Hi) as H1.
  rewrite firstn_all in H1. lia.
Qed.

(** *** [n_edges] bounds the number of elements *)

Lemma os_insert_length (x : slice_ref) (s : list slice_ref) :
  List.length (os_insert slice_ref_ltb x s) <= S (List.length s).
Proof.
  induction s as [|y s IH]; simpl; [lia|].
  destruct (slice_ref_ltb x y); [simpl; lia|].
  destruct (slice_ref_ltb y x); simpl; lia.
Qed.

Lemma sum_sizes_vector_update (i : nat) (f : list slice_ref -> list slice_ref)
  (v : list (list slice_ref)) :
  (forall s, List.length (f s) <= S (List.length s)) ->
  sum_sizes (vector_update i f v) <= S (sum_sizes v).
Proof.
  intros Hf. revert i. induction v as [|s v IH]; intros [|i]; simpl;
    rewrite ?sum_sizes_nil, ?sum_sizes_cons; try lia.
  - specialize (Hf s). lia.
  - specialize (IH i). lia.
Qed.

Section Arithmetic.
Context {D : Type} {dbl : Double D}.

Lemma nbr_walk_n_edges (it : slice_ref) (z_range : D) (cands : list slice_ref) :
  forall n_added st,
    sum_sizes (fst st) <= snd st ->
    sum_sizes (fst (nbr_walk it z_range cands n_added st))
    <= snd (nbr_walk it z_range cands n_added st).
Proof.
  induction cands as [|c cands IH]; simpl; intros n st H; [assumption|].
  destruct (_ || _); [|assumption].
  apply IH. simpl.
  pose proof (sum_sizes_vector_update (snd it) (os_insert slice_ref_ltb c)
                (fst st) (os_insert_length c)). lia.
Qed.

Lemma nbr_pass_n_edges (order : list slice_ref) (z_range : D) :
  forall st,
    sum_sizes (fst st) <= snd st ->
    sum_sizes (fst (nbr_pass order z_range st)) <= snd (nbr_pass order z_range st).
Proof.
  induction order as [|it order IH]; simpl; intros st H; [assumption|].
  apply IH. now apply nbr_walk_n_edges.
Qed.

Lemma sum_sizes_repeat_nil (n : nat) : sum_sizes (repeat [] n) = 0.
Proof. induction n as [|n IH]; [reflexivity|]. simpl. now rewrite sum_sizes_cons, IH. Qed.

Lemma build_neighbors_n_edges (p : Project) (z_range : D) :
  sum_sizes (fst (build_neighbors p z_range)) <= snd (build_neighbors p z_range).
Proof.
  unfold build_neighbors. apply nbr_pass_n_edges, nbr_pass_n_edges.
  simpl. now rewrite sum_sizes_repeat_nil.
Qed.

Lemma build_neighbors_length (p : Project) (z_range : D) :
  List.length (fst (build_neighbors p z_range)) = List.length (m_Slices p).
Proof.
  unfold build_neighbors. rewrite !nbr_pass_length. simpl. apply repeat_length.
Qed.

(** *** The weights written *)

Section Engine.
Variable pow : D -> D -> D.
Variable z_epsilon : D.
Variable INFINITE_WEIGHT : D.
Variable can_skip : nat -> nat -> bool.
Variable stored_metric : nat -> nat -> D.
Variable TotalMetric : nat -> nat -> D.
Variable NumberOfComponentsPerPixel : nat -> nat.

#[local] Abbreviation weight :=
  (weight pow z_epsilon can_skip stored_metric TotalMetric
     NumberOfComponentsPerPixel).
#[local] Abbreviation record_weights :=
  (record_weights pow z_epsilon can_skip stored_metric TotalMetric
     NumberOfComponentsPerPixel).
#[local] Abbreviation register_pairs :=
  (register_pairs pow z_epsilon can_skip stored_metric TotalMetric
     NumberOfComponentsPerPixel).

Lemma record_weights_length (it : slice_ref) (nbr : list slice_ref) (base : nat) :
  forall n_pos G,
    List.length (record_weights it nbr base n_pos G) = List.length G.
Proof.
  induction nbr as [|c nbr IH]; simpl; intros n_pos G; [reflexivity|].
  rewrite IH. apply vector_update_length.
Qed.

Lemma record_weights_other (it : slice_ref) (nbr : list slice_ref)
  (base slot : nat) (d : D) :
  forall n_pos G,
    (slot < base + n_pos \/ base + n_pos + List.length nbr <= slot) ->
    nth slot (record_weights it nbr base n_pos G) d = nth slot G d.
Proof.
  induction nbr as [|c nbr IH]; simpl; intros n_pos G H; [reflexivity|].
  rewrite IH by lia. apply vector_update_nth_ne. lia.
Qed.

Lemma record_weights_own (it : slice_ref) (nbr : list slice_ref) (base : nat)
  (d : D) :
  forall n_pos G q it_n,
    nth_error nbr q = Some it_n ->
    base + n_pos + q < List.length G ->
    nth (base + n_pos + q) (record_weights it nbr base n_pos G) d
    = weight it it_n.
Proof.
  induction nbr as [|c nbr IH]; intros n_pos G q it_n Hq Hlt.
  - destruct q; discriminate.
  - destruct q as [|q]; simpl in Hq |- *.
    + injection Hq as ->. rewrite record_weights_other by lia.
      rewrite Nat.add_0_r. apply vector_update_nth_eq. lia.
    + replace (base + n_pos + S q) with (base + S n_pos + q) by lia.
      apply IH; [assumption|]. rewrite vector_update_length. lia.
Qed.

Lemma register_pairs_length (sorted : list slice_ref)
  (slice_nbr : list (list slice_ref)) :
  forall G, List.length (register_pairs sorted slice_nbr G) = List.length G.
Proof.
  induction sorted as [|it sorted IH]; simpl; intros G; [reflexivity|].
  rewrite IH. apply record_weights_length.
Qed.

Lemma register_pairs_other (slice_nbr : list (list slice_ref)) (i q : nat)
  (sorted : list slice_ref) (d : D) :
  i < List.length slice_nbr -> q < List.length (nth i slice_nbr []) ->
  (forall it', In it' sorted -> snd it' <> i) ->
  forall G,
    nth (nth i (G_adjidx slice_nbr) 0 + q) (register_pairs sorted slice_nbr G) d
    = nth (nth i (G_adjidx slice_nbr) 0 + q) G d.
Proof.
  intros Hi Hq. induction sorted as [|it' sorted IH]; simpl; intros Hne G;
    [reflexivity|].
  rewrite IH by auto. apply record_weights_other.
  destruct (Nat.lt_ge_cases (snd it') (List.length slice_nbr)) as [Hin|Hout].
  - assert (Hd : forall r, r < List.length (nth (snd it') slice_nbr []) ->
                   nth i (G_adjidx slice_nbr) 0 + q
                   <> nth (snd it') (G_adjidx slice_nbr) 0 + r).
    { intros r Hr. apply slots_disjoint; auto.
      intros E. apply (Hne it'); auto. }
    destruct (Nat.lt_ge_cases (nth i (G_adjidx slice_nbr) 0 + q)
                (nth (snd it') (G_adjidx slice_nbr) 0)) as [H1|H1]; [lia|].
    destruct (Nat.lt_ge_cases (nth i (G_adjidx slice_nbr) 0 + q)
                (nth (snd it') (G_adjidx slice_nbr) 0
                 + List.length (nth (snd it') slice_nbr []))) as [H2|H2]; [|lia].
    exfalso.
    apply (Hd (nth i (G_adjidx slice_nbr) 0 + q
               - nth (snd it') (G_adjidx slice_nbr) 0)); lia.
  - rewrite (nth_overflow slice_nbr) by assumption. simpl. lia.
Qed.

Lemma register_pairs_own (slice_nbr : list (list slice_ref)) (it it_n : slice_ref)
  (after : list slice_ref) (q : nat) (d : D) :
  snd it < List.length slice_nbr ->
  nth_error (nth (snd it) slice_nbr []) q = Some it_n ->
  forall before G,
    NoDup (map snd (before ++ it :: after)) ->
    sum_sizes slice_nbr <= List.length G ->
    nth (nth (snd it) (G_adjidx slice_nbr) 0 + q)
        (register_pairs (before ++ it :: after) slice_nbr G) d
    = weight it it_n.
Proof.
  intros Hi Hq.
  assert (Hq' : q < List.length (nth (snd it) slice_nbr [])).
  { apply nth_error_Some. congruence. }
  pose proof (slot_in_range slice_nbr (snd it) q Hi Hq') as Hslot.
  induction before as [|b before IH]; simpl; intros G Hnd HG.
  - inversion Hnd as [|? ? Hn _]; subst.
    rewrite register_pairs_other; [|assumption|assumption|].
    + replace (nth (snd it) (G_adjidx slice_nbr) 0 + q)
        with (nth (snd it) (G_adjidx slice_nbr) 0 + 0 + q) by lia.
      apply record_weights_own; [assumption|lia].
    + intros it' Hin E. apply Hn. rewrite <- E. now apply in_map.
  - inversion Hnd; subst. apply IH; [assumption|].
    now rewrite record_weights_length.
Qed.

(** The weight in the slot of a neighbour. *)
Lemma edge_weights_slot (p : Project) (z_range : D)
  (before after : list slice_ref) (it it_n : slice_ref) (q : nat) (d : D) :
  m_SortedSlices p = before ++ it :: after ->
  NoDup (map snd (m_SortedSlices p)) ->
  snd it < List.length (m_Slices p) ->
  nth_error (nth (snd it) (fst (build_neighbors p z_range)) []) q = Some it_n ->
  nth (nth (snd it) (G_adjidx (fst (build_neighbors p z_range))) 0 + q)
      (edge_weights pow z_epsilon INFINITE_WEIGHT can_skip stored_metric
         TotalMetric NumberOfComponentsPerPixel p z_range) d
  = weight it it_n.
Proof.
  intros Hs Hnd Hlt Hq. unfold edge_weights. rewrite Hs.
  apply register_pairs_own.
  - now rewrite build_neighbors_length.
  - assumption.
  - now rewrite <- Hs.
  - rewrite repeat_length. apply build_neighbors_n_edges.
Qed.

End Engine.

End Arithmetic.

#[local] Open Scope R_scope.

Lemma weight_value_nonneg (z_epsilon metric dz : R) :
  metric <= 1 -> 0 <= weight_value z_epsilon metric dz.
Proof.
  intros Hm. unfold weight_value, Rpower.
  apply Rmult_le_pos; [lra|]. left. apply exp_pos.
Qed.

Lemma weight_value_monotone (z_epsilon metric dz dz' : R) :
  0 <= z_epsilon -> metric <= 1 -> dz <= dz' ->
  weight_value z_epsilon metric dz <= weight_value z_epsilon metric dz'.
Proof.
  intros He Hm Hd. unfold weight_value.
  apply Rmult_le_compat_l; [lra|]. apply Rle_Rpower; lra.
Qed.

Lemma Q2R_1 : Q2R 1 = 1.
Proof. unfold Q2R. simpl. lra. Qed.

(** C6, as the code has it. For every neighbour [it_n] at position [q] of
    the neighbour set of a slide [it], the weight stored in the slot
    [G_adjidx[it.second] + q] is the result, in the arithmetic of
    [double], of [(1.0 - metric) * pow (1 + z_epsilon, fabs (z_j - z_i))],
    where the metric, when the registration was run, is the raw metric
    of the engine divided by [-10000.0] times the number of components.
    In exact arithmetic, where [pow] is the power of the reals for a
    base above 0, the weight is (1 - metric) (1 + z_epsilon)^|z_i - z_j|
    when [1 + z_epsilon > 0]; with [z_epsilon >= 0] and a metric of at
    most 1 it is at least 0 and does not decrease when the z-gap
    grows. *)
Theorem edge_weight_formula :
  (forall (D : Type) (dbl : Double D) (pow : D -> D -> D)
          (z_epsilon INFINITE_WEIGHT : D) (can_skip : nat -> nat -> bool)
          (stored_metric TotalMetric : nat -> nat -> D)
          (NumberOfComponentsPerPixel : nat -> nat)
          (p : Project) (z_range : D) (before after : list slice_ref)
          (it it_n : slice_ref) (q : nat) (d : D),
     m_SortedSlices p = before ++ it :: after ->
     NoDup (map snd (m_SortedSlices p)) ->
     (snd it < List.length (m_Slices p))%nat ->
     nth_error (nth (snd it) (fst (build_neighbors p z_range)) []) q
     = Some it_n ->
     let slice_nbr := fst (build_neighbors p z_range) in
     let metric :=
       pair_metric can_skip stored_metric TotalMetric
         NumberOfComponentsPerPixel (snd it) (snd it_n) in
     nth (nth (snd it) (G_adjidx slice_nbr) 0 + q)%nat
         (edge_weights pow z_epsilon INFINITE_WEIGHT can_skip stored_metric
            TotalMetric NumberOfComponentsPerPixel p z_range) d
     = Dmul (Dsub (Dnum 1) metric)
            (pow (Dadd (Dnum 1) z_epsilon)
                 (Dabs (Dsub (Dnum (fst it_n)) (Dnum (fst it))))) /\
     (can_skip (snd it) (snd it_n) = true ->
      metric = stored_metric (snd it) (snd it_n)) /\
     (can_skip (snd it) (snd it_n) = false ->
      metric
      = Ddiv (TotalMetric (snd it) (snd it_n))
             (Dmul (Dnum (-10000))
                   (Dnum (inject_Z (Z.of_nat (NumberOfComponentsPerPixel (snd it)))))))) /\
  (forall (z_epsilon INFINITE_WEIGHT : R) (can_skip : nat -> nat -> bool)
          (stored_metric TotalMetric : nat -> nat -> R)
          (NumberOfComponentsPerPixel : nat -> nat)
          (p : Project) (z_range : R) (before after : list slice_ref)
          (it it_n : slice_ref) (q : nat),
     m_SortedSlices p = before ++ it :: after ->
     NoDup (map snd (m_SortedSlices p)) ->
     (snd it < List.length (m_Slices p))%nat ->
     nth_error (nth (snd it) (fst (build_neighbors p z_range)) []) q
     = Some it_n ->
     let slice_nbr := fst (build_neighbors p z_range) in
     let metric :=
       pair_metric can_skip stored_metric TotalMetric
         NumberOfComponentsPerPixel (snd it) (snd it_n) in
     let w :=
       nth (nth (snd it) (G_adjidx slice_nbr) 0 + q)%nat
           (edge_weights Rpower z_epsilon INFINITE_WEIGHT can_skip stored_metric
              TotalMetric NumberOfComponentsPerPixel p z_range) 0 in
     (0 < 1 + z_epsilon ->
      w = (1 - metric)
          * Rpower (1 + z_epsilon) (Rabs (Q2R (fst it) - Q2R (fst it_n)))) /\
     (can_skip (snd it) (snd it_n) = false ->
      metric = TotalMetric (snd it) (snd it_n)
               / (-10000 * INR (NumberOfComponentsPerPixel (snd it)))) /\
     (0 <= z_epsilon -> metric <= 1 ->
      0 <= w /\
      forall dz dz', dz <= dz' ->
        (1 - metric) * Rpower (1 + z_epsilon) dz
        <= (1 - metric) * Rpower (1 + z_epsilon) dz')).
Proof.
  split.
  - intros D dbl pow z_epsilon INF can_skip stored TotalMetric ncomp p z_range
           before after it it_n q d Hs Hnd Hlt Hq slice_nbr metric.
    split; [|split].
    + subst slice_nbr.
      rewrite (edge_weights_slot pow z_epsilon INF can_skip stored TotalMetric
                 ncomp p z_range before after it it_n q d Hs Hnd Hlt Hq).
      reflexivity.
    + intros Hskip. subst metric. unfold pair_metric. now rewrite Hskip.
    + intros Hskip. subst metric. unfold pair_metric. now rewrite Hskip.
  - intros z_epsilon INF can_skip stored TotalMetric ncomp p z_range
           before after it it_n q Hs Hnd Hlt Hq slice_nbr metric w.
    assert (Hw : w = weight_value z_epsilon metric
                       (Rabs (Q2R (fst it) - Q2R (fst it_n)))).
    { subst w slice_nbr.
      rewrite (edge_weights_slot Rpower z_epsilon INF can_skip stored TotalMetric
                 ncomp p z_range before after it it_n q 0 Hs Hnd Hlt Hq).
      unfold weight, weight_value. fold metric.
      cbn [Dmul Dsub Dadd Dabs Dnum real].
      now rewrite Q2R_1, Rabs_minus_sym. }
    split; [intros _; exact Hw|]. split.
    + intros Hskip. subst metric. unfold pair_metric, normalized.
      rewrite Hskip. cbn [Ddiv Dmul Dnum real].
      f_equal. f_equal.
      * unfold Q2R. simpl. lra.
      * unfold Q2R. simpl. rewrite INR_IZR_INZ. lra.
    + intros He Hm. split.
      * rewrite Hw. now apply weight_value_nonneg.
      * intros dz dz' Hd. now apply (weight_value_monotone z_epsilon metric).
Qed.

Lemma edge_weight_formula_witness :
  nth 0 (edge_weights Rpower (1 / 10) (10 ^ 100) (fun _ _ => false) (fun _ _ => 0)
           (fun _ _ => -5000) (fun _ => 1%nat) two_far_slides 2) 0
  = (1 - pair_metric (fun _ _ => false) (fun _ _ => 0) (fun _ _ => -5000)
           (fun _ => 1%nat) 0 1)
    * Rpower (1 + 1 / 10) (Rabs (Q2R 0 - Q2R 8192)).
Proof.
  exact (proj1 (proj2 edge_weight_formula (1 / 10) (10 ^ 100) (fun _ _ => false)
                  (fun _ _ => 0) (fun _ _ => -5000) (fun _ => 1%nat)
                  two_far_slides 2 [] [(8192%Q, 1%nat)]
                  (0%Q, 0%nat) (8192%Q, 1%nat) 0%nat eq_refl
                  ltac:(simpl; repeat constructor; simpl; intuition discriminate)
                  ltac:(simpl; repeat constructor)
                  ltac:(reflexivity)) ltac:(lra)).
Defined.

#[local] Close Scope R_scope.

(** C6, as stated, fails in binary64. For two slides at z = 0 and
    z = 8192 with [z_epsilon = 0.1] and a raw metric of -10000 on one
    component, the normalized metric is 1 and [z_epsilon] is above 0,
    but the power 1.1^8192 is above every double: [pow] gives infinity,
    [(1.0 - 1.0) * infinity] is a NaN, and the stored weight is not at
    least 0. *)
Lemma edge_weight_overflow :
  let z_epsilon : PrimFloat.float := Dnum (1 # 10) in
  let TotalMetric (_ _ : nat) : PrimFloat.float := Dnum (-10000) in
  let metric :=
    pair_metric (fun _ _ => false) (fun _ _ => Dnum 0) TotalMetric
      (fun _ => 1%nat) 0 1 in
  let w :=
    nth 0 (edge_weights Binary64.pow_whole z_epsilon (Dnum 0) (fun _ _ => false)
             (fun _ _ => Dnum 0) TotalMetric (fun _ => 1%nat)
             two_far_slides (Dnum 1)) (Dnum 0) in
  nth_error (nth 0 (fst (build_neighbors two_far_slides
                           (Dnum (D := PrimFloat.float) 1))) []) 0
  = Some (8192%Q, 1%nat) /\
  PrimFloat.leb PrimFloat.zero z_epsilon = true /\
  PrimFloat.leb metric PrimFloat.one = true /\
  Binary64.pow_whole (PrimFloat.add PrimFloat.one z_epsilon)
    (PrimFloat.abs (PrimFloat.sub (Dnum 8192) (Dnum 0)))
  = PrimFloat.infinity /\
  PrimFloat.is_nan w = true /\
  PrimFloat.leb PrimFloat.zero w = false.
Proof. vm_compute. repeat split; reflexivity. Qed.

(** *** The adjacency arrays *)

#[local] Open Scope nat_scope.

Lemma adjidx_from_length (slice_nbr : list (list slice_ref)) :
  forall acc, List.length (adjidx_from acc slice_nbr) = S (List.length slice_nbr).
Proof.
  induction slice_nbr as [|nbr rest IH]; intros acc; simpl; [reflexivity|].
  now rewrite IH.
Qed.

Lemma G_adj_length (slice_nbr : list (list slice_ref)) :
  List.length (G_adj slice_nbr) = sum_sizes slice_nbr.
Proof.
  unfold G_adj, sum_sizes.
  induction slice_nbr as [|nbr rest IH]; simpl; [reflexivity|].
  now rewrite length_app, length_map, IH.
Qed.

Lemma G_adj_nth (slice_nbr : list (list slice_ref)) :
  forall i q, i < List.length slice_nbr ->
    q < List.length (nth i slice_nbr []) ->
    nth (sum_sizes (firstn i slice_nbr) + q) (G_adj slice_nbr) 0
    = snd (nth q (nth i slice_nbr []) (0%Q, 0)).
Proof.
  unfold G_adj.
  induction slice_nbr as [|nbr rest IH]; intros i q Hi Hq; [inversion Hi|].
  destruct i as [|i].
  - rewrite firstn_O, sum_sizes_nil. cbn [map List.concat nth Nat.add] in *.
    rewrite app_nth1 by now rewrite length_map.
    exact (map_nth snd nbr (0%Q, 0) q).
  - cbn [firstn nth map List.concat] in *. rewrite sum_sizes_cons.
    rewrite app_nth2
      by (rewrite length_map, <- Nat.add_assoc; apply Nat.le_add_r).
    rewrite length_map, <- Nat.add_assoc, (Nat.add_comm (List.length nbr)),
      Nat.add_sub.
    apply IH; [simpl in Hi; lia|assumption].
Qed.

(** X13. The adjacency arrays built from the neighbour sets list, for
    every slide, its neighbour set: [G_adjidx] has one entry more than
    there are slides, starts at 0 and grows by the size of each set; the
    entries of [G_adj] from [G_adjidx[i]] on are the indices of the
    neighbours of slide [i] in the order of the set, each at a position
    inside [G_adj]; and [G_adj] has no more entries than [n_edges]
    counts. *)
Theorem adjacency_arrays {D : Type} {dbl : Double D} (p : Project) (z_range : D) :
  let slice_nbr := fst (build_neighbors p z_range) in
  let n_edges := snd (build_neighbors p z_range) in
  List.length (G_adjidx slice_nbr) = S (List.length (m_Slices p)) /\
  nth 0 (G_adjidx slice_nbr) 0 = 0 /\
  (forall i, i < List.length (m_Slices p) ->
     nth (S i) (G_adjidx slice_nbr) 0
     = nth i (G_adjidx slice_nbr) 0 + List.length (nth i slice_nbr [])) /\
  (forall i q, i < List.length (m_Slices p) ->
     q < List.length (nth i slice_nbr []) ->
     nth i (G_adjidx slice_nbr) 0 + q < List.length (G_adj slice_nbr) /\
     nth (nth i (G_adjidx slice_nbr) 0 + q) (G_adj slice_nbr) 0
     = snd (nth q (nth i slice_nbr []) (0%Q, 0))) /\
  List.length (G_adj slice_nbr) <= n_edges.
Proof.
  intros slice_nbr n_edges.
  pose proof (build_neighbors_length p z_range) as Hlen. fold slice_nbr in Hlen.
  unfold G_adjidx. split; [|split; [|split; [|split]]].
  - now rewrite adjidx_from_length, Hlen.
  - rewrite adjidx_from_nth by lia. reflexivity.
  - intros i Hi. rewrite !adjidx_from_nth by lia.
    rewrite sum_sizes_firstn_S by lia. lia.
  - intros i q Hi Hq. split.
    + rewrite G_adj_length. apply slot_in_range; [lia|assumption].
    + rewrite adjidx_from_nth by lia. apply G_adj_nth; [lia|assumption].
  - rewrite G_adj_length. apply build_neighbors_n_edges.
Qed.
End EdgeWeightsFacts.

(** ** The root of the tree *)

Module RootFacts.
Import Root.

Section Distances.
Variable D : Type.
Variable D0 : D.
Variable Dadd : D -> D -> D.
Variable Dgt : D -> D -> bool.
Variable GetDistanceArray : nat -> nat -> D.

(** The comparison of [double] on values that are not NaN: [a > b] false
    reads [a <= b]. *)
Hypothesis Dle_trans :
  forall a b c, Dgt a b = false -> Dgt b c = false -> Dgt a c = false.
Hypothesis Dgt_asym : forall a b, Dgt a b = true -> Dgt b a = false.
Hypothesis Dgt_le_trans :
  forall a b c, Dgt a b = true -> Dgt a c = false -> Dgt c b = true.

#[local] Abbreviation total := (root_dist D D0 Dadd GetDistanceArray).
#[local] Abbreviation step := (root_step D D0 Dadd Dgt GetDistanceArray).



End Distances.






(** Two slides with equal totals: the root is the one of lower index. *)
Example select_root_tie :
  fst (select_root Q 0%Q Qplus Qgtb pair_distances 2) = 0%nat.
Proof. reflexivity. Qed.


(** X14. Whatever the comparison of the totals answers (so also for
    totals that do not compare as numbers do): with no slide the loop
    leaves [i_root = 0] and the total 0.0, an index outside the empty
    slide list; with at least one slide the root is the index of a slide
    and [best_root_dist] is its total; and when no comparison ever holds
    the root is slide 0. *)
Theorem select_root_in_range (D : Type) (D0 : D) (Dadd : D -> D -> D)
  (Dgt : D -> D -> bool) (GetDistanceArray : nat -> nat -> D) (n : nat) :
  let total := root_dist D D0 Dadd GetDistanceArray n in
  let i_root := fst (select_root D D0 Dadd Dgt GetDistanceArray n) in
  let best_root_dist := snd (select_root D D0 Dadd Dgt GetDistanceArray n) in
  (n = 0%nat -> i_root = 0%nat /\ best_root_dist = D0) /\
  ((1 <= n)%nat -> (i_root < n)%nat /\ best_root_dist = total i_root) /\
  ((forall a b, Dgt a b = false) -> i_root = 0%nat).
Proof.
  intros total i_root best. subst total i_root best. unfold select_root.
  assert (H : forall k, (1 <= k)%nat ->
            let st := fold_left (root_step D D0 Dadd Dgt GetDistanceArray n)
                        (seq 0 k) (0%nat, D0) in
            (fst st < k)%nat /\
            snd st = root_dist D D0 Dadd GetDistanceArray n (fst st) /\
            ((forall a b, Dgt a b = false) -> fst st = 0%nat)).
  { induction k as [|k IH]; intros Hk; [inversion Hk|].
    rewrite seq_S, fold_left_app. cbn [fold_left Nat.add].
    destruct k as [|k].
    - cbn. auto.
    - destruct (IH (le_n_S _ _ (Nat.le_0_l k))) as (Hlt & Hbest & Hnan).
      clear IH.
      set (st := fold_left _ (seq 0 (S k)) _) in *.
      replace (root_step D D0 Dadd Dgt GetDistanceArray n st (S k))
        with (if Dgt (snd st) (root_dist D D0 Dadd GetDistanceArray n (S k))
              then (S k, root_dist D D0 Dadd GetDistanceArray n (S k)) else st)
        by reflexivity.
      destruct (Dgt (snd st) _) eqn:E; cbn [fst snd].
      + split; [lia|]. split; [reflexivity|].
        intros Hf. rewrite Hf in E. discriminate.
      + split; [lia|]. split; assumption. }
  split; [|split].
  - intros ->. split; reflexivity.
  - intros Hn. destruct (H n Hn) as (H1 & H2 & _). auto.
  - intros Hf. destruct n as [|n]; [reflexivity|].
    apply (H (S n)); [lia|assumption].
Qed.
End RootFacts.

(** ** File names *)

Module FilesFacts.
Import Files.

#[local] Open Scope string_scope.

Lemma append_inv_head (a x y : string) : a ++ x = a ++ y -> x = y.
Proof.
  induction a as [|c a IH]; simpl; [auto|]. intros [= H]. auto.
Qed.

Lemma append_length (a b : string) :
  String.length (a ++ b) = (String.length a + String.length b)%nat.
Proof. induction a as [|c a IH]; simpl; [reflexivity|now rewrite IH]. Qed.

Lemma append_inv_tail (s a b : string) : a ++ s = b ++ s -> a = b.
Proof.
  revert b. induction a as [|c a IH]; intros [|d b] H; simpl in H.
  - reflexivity.
  - apply (f_equal String.length) in H. simpl in H.
    rewrite !append_length in H. simpl in H. lia.
  - apply (f_equal String.length) in H. simpl in H.
    rewrite !append_length in H. simpl in H. lia.
  - injection H as -> H. f_equal. auto.
Qed.

Lemma GetFilenameForSlice_accum (p : Project) (s : SliceData) (iter : nat) :
  GetFilenameForSlice p s ACCUM_MATRIX iter = Ok (accum_name p s).
Proof. reflexivity. Qed.

Lemma GetFilenameForSlice_iter0 (p : Project) (s : SliceData) :
  GetFilenameForSlice p s VOL_ITER_MATRIX 0 = Ok (iter0_name p s).
Proof. reflexivity. Qed.

Lemma GetFilenameForSlice_init (p : Project) (s : SliceData) (iter : nat) :
  GetFilenameForSlice p s VOL_INIT_MATRIX iter = Ok (init_name p s).
Proof. reflexivity. Qed.

Lemma GetFilenameForGlobal_median (p : Project) (key : string) :
  GetFilenameForGlobal p VOL_MEDIAN_INIT_MATRIX key = Ok (median_name p).
Proof. reflexivity. Qed.

Lemma accum_name_ne_iter0 (p : Project) (s t : SliceData) :
  accum_name p s <> iter0_name p t.
Proof.
  unfold accum_name, iter0_name. intros H.
  apply append_inv_head in H. simpl in H. discriminate.
Qed.

Lemma accum_name_ne_median (p : Project) (s : SliceData) :
  accum_name p s <> median_name p.
Proof.
  unfold accum_name, median_name. intros H.
  apply append_inv_head in H. simpl in H. discriminate.
Qed.

Lemma iter0_name_inj (p : Project) (s t : SliceData) :
  iter0_name p s = iter0_name p t -> unique_id s = unique_id t.
Proof.
  unfold iter0_name. intros H.
  apply append_inv_head in H. simpl in H.
  injection H as H.
  exact (append_inv_tail "_iter00.mat" (unique_id s) (unique_id t) H).
Qed.

Lemma accum_name_id (p : Project) (s t : SliceData) :
  unique_id s = unique_id t -> accum_name p s = accum_name p t.
Proof. unfold accum_name. now intros ->. Qed.

(** *** Which slides share a file *)









End FilesFacts.

(** ** The project directory *)

Module ProjectFilesFacts.
Import Files FilesFacts Manifest ManifestFacts ProjectFiles.
#[local] Open Scope string_scope.

Section Store.
Import stdpp.base stdpp.gmap stdpp.strings.

Lemma config_name_inj (p : Project) (key key' : string) :
  (m_ProjectDir p ++ "/config/dict/" ++ key
   = m_ProjectDir p ++ "/config/dict/" ++ key')%string -> key = key'.
Proof.
  intros H. apply append_inv_head in H. now apply append_inv_head in H.
Qed.

(** X8. A key saved with [SaveConfigKey] is loaded back by
    [LoadConfigKey] up to its first white space: a value that is a word
    comes back as it is, a value that begins with a word followed by a
    blank comes back as that word, a blank value comes back as the empty
    string (not as the default), and the other keys are loaded as
    before. *)
Theorem LoadConfigKey_SaveConfigKey (p : Project) (key value def_value : string)
  (fs fs' : gmap string string) :
  SaveConfigKey p key value fs = Ok fs' ->
  (is_word value -> LoadConfigKey p key def_value fs' = Ok value) /\
  (forall w r, is_word w -> value = (w ++ " " ++ r)%string ->
     LoadConfigKey p key def_value fs' = Ok w) /\
  (blank value = true -> LoadConfigKey p key def_value fs' = Ok EmptyString) /\
  (forall key', key' <> key ->
     LoadConfigKey p key' def_value fs' = LoadConfigKey p key' def_value fs).
Proof.
  unfold SaveConfigKey, LoadConfigKey. cbn [GetFilenameForGlobal bind].
  intros [= <-]. split; [|split; [|split]].
  - intros Hw. rewrite lookup_insert_eq. now rewrite extract_string_whole.
  - intros w r Hw ->. rewrite lookup_insert_eq.
    now rewrite extract_string_word.
  - intros Hb. rewrite lookup_insert_eq. apply extract_string_None in Hb.
    now rewrite Hb.
  - intros key' Hne. rewrite lookup_insert_ne; [reflexivity|].
    intros H. apply config_name_inj in H. congruence.
Qed.

Variable print_double : Q -> string.
Variable read_double : string -> option (Q * string).
Variable FileExists : string -> bool.
Variable CollapseFullPath : string -> string.

Lemma ReadManifest_loop_refs (lines : list string) :
  forall p p' r,
    ReadManifest_loop read_double FileExists CollapseFullPath lines p = (p', r) ->
    m_ProjectDir p' = m_ProjectDir p /\
    exists new,
      m_Slices p' = (m_Slices p ++ new)%list /\
      m_SortedSlices p'
      = insert_refs (List.length (m_Slices p)) new (m_SortedSlices p).
Proof.
  induction lines as [|l lines IH]; simpl; intros p p' r H.
  - injection H as <- <-. split; [reflexivity|]. exists []. simpl.
    now rewrite app_nil_r.
  - destruct (extract_slice read_double l) as [s|].
    2:{ injection H as <- <-. split; [reflexivity|]. exists []. simpl.
        now rewrite app_nil_r. }
    destruct (negb (FileExists (raw_filename s))).
    { injection H as <- <-. split; [reflexivity|]. exists []. simpl.
      now rewrite app_nil_r. }
    apply IH in H as (Hd & new & Hm & Hs). simpl in *.
    split; [exact Hd|]. eexists (_ :: new). split.
    + rewrite Hm, <- app_assoc. reflexivity.
    + rewrite Hs, length_app. simpl. now rewrite Nat.add_1_r.
Qed.

Lemma ReadManifest_refs (manifest : string) (p p' : Project) (r : result unit) :
  ReadManifest read_double FileExists CollapseFullPath manifest p = (p', r) ->
  m_ProjectDir p' = m_ProjectDir p /\
  m_SortedSlices p' = insert_refs 0 (m_Slices p') [].
Proof.
  unfold ReadManifest. intros H.
  apply ReadManifest_loop_refs in H as (Hd & new & Hm & Hs). simpl in *.
  split; [exact Hd|]. now rewrite Hs, Hm.
Qed.

Lemma manifest_name_ne_config (dir key : string) :
  (dir ++ "/config/manifest.txt")%string <> (dir ++ "/config/dict/" ++ key)%string.
Proof.
  intros H. apply append_inv_head in H. discriminate.
Qed.

Lemma LoadConfigKey_SaveConfigKey_witness :
  LoadConfigKey empty_project "DefaultImageExt" ".nii.gz" initialized_files
  = Ok "nii.gz"%string.
Proof.
  apply (proj1 (LoadConfigKey_SaveConfigKey empty_project "DefaultImageExt"
                  "nii.gz" ".nii.gz"
                  (<[ "/proj/config/manifest.txt"%string
                      := WriteManifest sample_print_double restored_slides ]>
                   sample_text_files)
                  initialized_files eq_refl)).
  word_chars.
Defined.

(** X9. [RestoreProject] recovers what [InitializeProject] left in the
    project directory. When [InitializeProject] has returned, its slides
    can be carried by a manifest and the default extension is a word,
    [RestoreProject] on any project object for the same directory
    returns with the same slides, the same sorted list and the same
    default extension. *)
Theorem RestoreProject_InitializeProject (fn_manifest default_ext : string)
  (p p1 q : Project) (fs fs1 : gmap string string) :
  InitializeProject print_double read_double FileExists CollapseFullPath
    fn_manifest default_ext p fs = Ok (p1, fs1) ->
  Forall (restorable print_double read_double FileExists CollapseFullPath)
         (m_Slices p1) ->
  is_word default_ext ->
  m_ProjectDir q = m_ProjectDir p ->
  exists q1,
    RestoreProject read_double FileExists CollapseFullPath q fs1 = Ok q1 /\
    m_Slices q1 = m_Slices p1 /\
    m_SortedSlices q1 = m_SortedSlices p1 /\
    m_DefaultImageExt q1 = default_ext.
Proof.
  unfold InitializeProject, RestoreProject, ReadManifest_file.
  destruct (ReadManifest _ _ _ _ p) as [p0 r] eqn:E0.
  destruct r as [[]|e]; [|discriminate].
  cbn [bind GetFilenameForGlobal SaveConfigKey set_DefaultImageExt
       m_ProjectDir m_DefaultImageExt].
  intros [= <- <-] Hs Hext Hq. cbn [m_Slices set_DefaultImageExt] in Hs.
  destruct (ReadManifest_refs _ _ _ _ E0) as [Hd0 Hr0].
  unfold WriteManifest_file. rewrite Hq, <- Hd0.
  rewrite lookup_insert_ne by (symmetry; apply manifest_name_ne_config).
  rewrite lookup_insert_eq.
  destruct (written_manifest_read_back _ _ _ _ _ q Hs) as (q0 & Eq & Hm).
  rewrite Eq. cbn [bind].
  destruct (ReadManifest_refs _ _ _ _ Eq) as [Hdq Hrq].
  unfold LoadConfigKey. cbn [bind GetFilenameForGlobal].
  rewrite Hdq, Hq, <- Hd0, lookup_insert_eq.
  rewrite (extract_string_whole _ Hext).
  eexists. split; [reflexivity|]. cbn [set_DefaultImageExt m_Slices m_SortedSlices
                                       m_DefaultImageExt].
  split; [exact Hm|]. split; [|reflexivity]. now rewrite Hrq, Hm, Hr0.
Qed.

(** X10. In a directory that holds neither the manifest copy nor the
    [DefaultImageExt] entry, [RestoreProject] does not throw: it returns
    a project without slides whose default extension is the default of
    [LoadConfigKey], ".nii.gz" with its dot, so that the [VOL_SLIDE] name
    of a slide ends in "..nii.gz". *)
Theorem RestoreProject_uninitialized (p : Project) (fs : gmap string string) :
  fs !! (m_ProjectDir p ++ "/config/manifest.txt")%string = None ->
  fs !! (m_ProjectDir p ++ "/config/dict/" ++ "DefaultImageExt")%string = None ->
  exists q,
    RestoreProject read_double FileExists CollapseFullPath p fs = Ok q /\
    m_Slices q = [] /\ m_SortedSlices q = [] /\
    m_DefaultImageExt q = ".nii.gz"%string /\
    forall slice,
      GetFilenameForSlice q slice VOL_SLIDE 0
      = Ok (m_ProjectDir p ++ "/vol/slides/vol_slide_" ++ unique_id slice
            ++ "..nii.gz")%string.
Proof.
  intros Hm Hc. unfold RestoreProject, ReadManifest_file, LoadConfigKey.
  cbn [GetFilenameForGlobal bind]. rewrite Hm.
  cbn [ReadManifest getlines ReadManifest_loop bind GetFilenameForGlobal
       m_ProjectDir].
  rewrite Hc. eexists. split; [reflexivity|].
  repeat split.
Qed.

End Store.

Lemma RestoreProject_uninitialized_witness :
  exists q,
    RestoreProject sample_read_double sample_FileExists sample_CollapseFullPath
      empty_project sample_text_files = Ok q /\
    m_Slices q = [] /\ m_SortedSlices q = [] /\
    m_DefaultImageExt q = ".nii.gz"%string /\
    forall slice,
      GetFilenameForSlice q slice VOL_SLIDE 0
      = Ok (m_ProjectDir empty_project ++ "/vol/slides/vol_slide_"
            ++ unique_id slice ++ "..nii.gz")%string.
Proof.
  apply (RestoreProject_uninitialized sample_read_double sample_FileExists
           sample_CollapseFullPath empty_project sample_text_files);
    vm_compute; reflexivity.
Defined.

Lemma RestoreProject_InitializeProject_witness :
  exists q1,
    RestoreProject sample_read_double sample_FileExists sample_CollapseFullPath
      empty_project initialized_files = Ok q1 /\
    m_Slices q1 = m_Slices initialized_project /\
    m_SortedSlices q1 = m_SortedSlices initialized_project /\
    m_DefaultImageExt q1 = "nii.gz".
Proof.
  apply (RestoreProject_InitializeProject sample_print_double sample_read_double
           sample_FileExists sample_CollapseFullPath "/in/manifest.txt" "nii.gz"
           empty_project initialized_project empty_project
           sample_text_files initialized_files).
  - vm_compute. reflexivity.
  - apply Forall_cons; [|apply Forall_cons; [|apply Forall_nil]];
      (split; [word_chars|split; [word_chars|split; [|split; reflexivity]]];
       split; [word_chars|intros rest; reflexivity]).
  - word_chars.
  - reflexivity.
Defined.
End ProjectFilesFacts.

(** ** The median affine *)

Module VolumeMatchFacts.
Import Files Matrix VolumeMatch.

#[local] Open Scope Q_scope.

Lemma Qeq_bool_refl (x : Q) : Qeq_bool x x = true.
Proof. apply Qeq_bool_iff. reflexivity. Qed.

(** Exact arithmetic has no NaN. *)
Lemma numbers_exact (l : list Q) : numbers (fun q => q) l.
Proof. intros a b _ _. split; reflexivity. Qed.

Section Arithmetic.
Context {D : Type} {dbl : Double D}.
Variable val : D -> Q.

Lemma min_fold_spec (l rest : list D) :
  numbers val l ->
  forall x,
    In x l -> incl rest l ->
    let m := fold_left (fun tmp y => if Dlt y tmp then y else tmp) rest x in
    val m <= val x /\ (forall y, In y rest -> val m <= val y) /\
    (m = x \/ In m rest).
Proof.
  intros Hnum. induction rest as [|y rest IH]; simpl; intros x Hx Hin.
  - split; [apply Qle_refl|]. split; [intros ? []|now left].
  - assert (Hy : In y l) by (apply Hin; now left).
    assert (Hrest : incl rest l) by (intros z Hz; apply Hin; now right).
    destruct (Hnum y x Hy Hx) as [Hlt _]. rewrite Hlt.
    destruct (Qltb (val y) (val x)) eqn:E.
    + destruct (IH y Hy Hrest) as (H1 & H2 & H3). apply Qltb_lt in E.
      split; [apply Qle_trans with (val y); [assumption|now apply Qlt_le_weak]|].
      split; [intros z [<-|Hz]; auto|]. right. destruct H3 as [->|H3]; auto.
    + destruct (IH x Hx Hrest) as (H1 & H2 & H3). apply Qltb_ge in E.
      split; [assumption|].
      split; [intros z [<-|Hz]; [apply Qle_trans with (val x); assumption|auto]|].
      destruct H3 as [->|H3]; auto.
Qed.

Lemma min_value_spec (v : list D) :
  numbers val v -> v <> [] ->
  In (min_value v) v /\ (forall y, In y v -> val (min_value v) <= val y).
Proof.
  intros Hnum. destruct v as [|x rest]; [congruence|]. intros _. simpl.
  destruct (min_fold_spec (x :: rest) rest Hnum x) as (H1 & H2 & H3).
  - now left.
  - intros z Hz. now right.
  - split.
    + destruct H3 as [->|H3]; auto.
    + intros y [<-|Hy]; auto.
Qed.

Lemma find_index_spec (l v : list D) (x d : D) :
  numbers val l -> incl v l -> In x l ->
  In x v ->
  (find_index v x < List.length v)%nat /\
  Deq (nth (find_index v x) v d) x = true /\
  val (nth (find_index v x) v d) == val x /\
  (forall j, (j < find_index v x)%nat -> ~ val (nth j v d) == val x).
Proof.
  intros Hnum Hincl Hx. induction v as [|y v IH]; simpl; [intros []|]. intros Hin.
  assert (Hy : In y l) by (apply Hincl; now left).
  destruct (Hnum y x Hy Hx) as [_ Heq].
  destruct (Deq y x) eqn:E.
  - split; [apply Nat.lt_0_succ|]. split; [assumption|].
    split; [apply Qeq_bool_eq; now rewrite <- Heq|].
    intros j Hj. inversion Hj.
  - destruct Hin as [->|Hin].
    + rewrite Qeq_bool_refl in Heq. discriminate.
    + destruct IH as (H1 & H2 & H3 & H4);
        [intros z Hz; apply Hincl; now right|assumption|].
      split; [now apply -> Nat.succ_lt_mono|]. split; [assumption|].
      split; [assumption|].
      intros [|j] Hj; [apply Qeq_bool_neq; now rewrite <- Heq|].
      apply H4. now apply Nat.succ_lt_mono.
Qed.

Lemma row_sums_length (vol_affine : list Mat3) :
  List.length (row_sums (D := D) vol_affine) = List.length vol_affine.
Proof. unfold row_sums. now rewrite length_map, length_seq. Qed.

Lemma row_sums_nth (vol_affine : list Mat3) (j : nat) (d : D) :
  (j < List.length vol_affine)%nat ->
  nth j (row_sums vol_affine) d = row_sum vol_affine j.
Proof.
  intros Hj. unfold row_sums.
  rewrite (nth_indep _ d (row_sum vol_affine O))
    by now rewrite length_map, length_seq.
  rewrite map_nth, seq_nth by assumption. reflexivity.
Qed.

(** The row sums at the index chosen and at the others, when no row sum
    is a NaN. *)
Lemma idx_best_spec (vol_affine : list Mat3) :
  (1 <= List.length vol_affine)%nat ->
  numbers val (row_sums vol_affine) ->
  (idx_best (D := D) vol_affine < List.length vol_affine)%nat /\
  Deq (row_sum vol_affine (idx_best (D := D) vol_affine))
      (min_value (row_sums vol_affine)) = true /\
  (forall j, (j < List.length vol_affine)%nat ->
             val (row_sum vol_affine (idx_best (D := D) vol_affine))
             <= val (row_sum vol_affine j)) /\
  (forall j, (j < idx_best (D := D) vol_affine)%nat ->
             val (row_sum vol_affine (idx_best (D := D) vol_affine))
             < val (row_sum vol_affine j)).
Proof.
  intros Hn Hnum.
  pose proof (row_sums_length vol_affine) as Hlen.
  assert (Hne : row_sums (D := D) vol_affine <> []).
  { intros E. rewrite E in Hlen. simpl in Hlen. rewrite <- Hlen in Hn. inversion Hn. }
  destruct (min_value_spec _ Hnum Hne) as [Hin Hmin].
  destruct (find_index_spec (row_sums vol_affine) (row_sums vol_affine)
              (min_value (row_sums vol_affine)) (Dnum 0) Hnum
              (fun z Hz => Hz) Hin Hin) as (H1 & H2 & H3 & H4).
  fold (idx_best (D := D) vol_affine) in H1, H2, H3, H4. rewrite Hlen in H1.
  rewrite row_sums_nth in H2, H3 by assumption.
  assert (Hle : forall j, (j < List.length vol_affine)%nat ->
                 val (row_sum vol_affine (idx_best (D := D) vol_affine))
                 <= val (row_sum vol_affine j)).
  { intros j Hj. rewrite H3. apply Hmin.
    rewrite <- (row_sums_nth vol_affine j (Dnum 0)) by assumption.
    apply nth_In. now rewrite Hlen. }
  split; [assumption|]. split; [assumption|]. split; [assumption|].
  intros j Hj.
  assert (Hj' : (j < List.length vol_affine)%nat) by (eapply Nat.lt_trans; eauto).
  destruct (Qle_lt_or_eq _ _ (Hle j Hj')) as [Hlt|Heq]; [assumption|].
  exfalso. apply (H4 j Hj). rewrite row_sums_nth by assumption.
  rewrite <- Heq. assumption.
Qed.

Lemma median_of_defined (vol_affine : list Mat3) :
  (1 <= List.length vol_affine)%nat ->
  numbers val (row_sums vol_affine) ->
  median_of (D := D) vol_affine
  = Ok (nth (idx_best (D := D) vol_affine) vol_affine identity).
Proof.
  intros Hn Hnum. destruct (idx_best_spec vol_affine Hn Hnum) as (Hlt & _).
  unfold median_of. now rewrite (nth_error_nth' _ identity Hlt).
Qed.

End Arithmetic.

(** *** The sums of the specification, in exact arithmetic *)

Lemma array_one_norm_msub_sym (a b : Mat3) :
  array_one_norm (D := Q) (msub a b) = array_one_norm (msub b a).
Proof.
  unfold array_one_norm, msub, data_block.
  cbn [combine map fold_left fst snd Dadd Dabs Dsub Dnum rational].
  rewrite (Qabs_Qminus (e00 a)), (Qabs_Qminus (e01 a)), (Qabs_Qminus (e02 a)),
    (Qabs_Qminus (e10 a)), (Qabs_Qminus (e11 a)), (Qabs_Qminus (e12 a)),
    (Qabs_Qminus (e20 a)), (Qabs_Qminus (e21 a)), (Qabs_Qminus (e22 a)).
  reflexivity.
Qed.

Lemma Qabs_diag (x : Q) : Qabs (x - x) == 0.
Proof.
  assert (E : x - x == 0) by ring. rewrite E. reflexivity.
Qed.

Lemma array_one_norm_msub_diag (a : Mat3) :
  array_one_norm (D := Q) (msub a a) == 0.
Proof.
  unfold array_one_norm, msub, data_block.
  cbn [combine map fold_left fst snd Dadd Dabs Dsub Dnum rational].
  rewrite !Qabs_diag. ring.
Qed.

Lemma aff_dist_norm (vol_affine : list Mat3) (i j : nat) :
  aff_dist (D := Q) vol_affine i j * 1
  == array_one_norm (D := Q)
       (msub (nth i vol_affine identity) (nth j vol_affine identity)).
Proof.
  unfold aff_dist. rewrite Qmult_1_r.
  destruct (Nat.ltb j i) eqn:E1; [reflexivity|].
  destruct (Nat.ltb i j) eqn:E2.
  - rewrite array_one_norm_msub_sym. reflexivity.
  - apply Nat.ltb_ge in E1, E2.
    rewrite (Nat.le_antisymm _ _ E1 E2), array_one_norm_msub_diag. reflexivity.
Qed.

Lemma fold_sum_ext (f g : nat -> Q) (l : list nat) :
  (forall j, f j == g j) ->
  forall a b, a == b ->
    fold_left (fun acc j => acc + f j) l a == fold_left (fun acc j => acc + g j) l b.
Proof.
  intros Hfg. induction l as [|j l IH]; simpl; intros a b Hab; [assumption|].
  apply IH. rewrite Hab, (Hfg j). reflexivity.
Qed.

(** In exact arithmetic the norm of a difference is the L1 distance. *)
Lemma array_one_norm_l1_distance (a b : Mat3) :
  array_one_norm (D := Q) (msub a b) == l1_distance a b.
Proof.
  unfold array_one_norm, msub, data_block, l1_distance.
  cbn [combine map fold_left fst snd Dadd Dabs Dsub Dnum rational].
  ring.
Qed.

Lemma row_sum_sum_of_distances (vol_affine : list Mat3) (j : nat) :
  row_sum (D := Q) vol_affine j
  == sum_of_distances vol_affine (nth j vol_affine identity).
Proof.
  unfold row_sum, sum_of_distances.
  apply (fold_sum_ext (fun i => aff_dist (D := Q) vol_affine j i * 1));
    [|reflexivity].
  intros i. rewrite aff_dist_norm. apply array_one_norm_l1_distance.
Qed.

(** C5, as the code has it. With at least one slide and row sums none of
    which is a NaN, the median affine is the matrix [vol_affine[idx_best]]
    of one of the slides: the first slide whose row sum, as computed in
    the arithmetic of [double], equals the least of the computed row
    sums. Its computed row sum is at most the computed row sum of every
    slide and strictly below that of every slide of lower index. In
    exact arithmetic the row sums are the sums of the L1 distances, and
    the median affine has the least sum, ties going to the lowest
    index. *)
Theorem median_affine_medoid :
  (forall (D : Type) (dbl : Double D) (val : D -> Q) (vol_affine : list Mat3),
     (1 <= List.length vol_affine)%nat ->
     numbers val (row_sums vol_affine) ->
     exists Mbar,
       median_of (D := D) vol_affine = Ok Mbar /\
       (idx_best (D := D) vol_affine < List.length vol_affine)%nat /\
       Mbar = nth (idx_best (D := D) vol_affine) vol_affine identity /\
       Deq (row_sum vol_affine (idx_best (D := D) vol_affine))
           (min_value (row_sums vol_affine)) = true /\
       (forall j, (j < List.length vol_affine)%nat ->
          val (row_sum vol_affine (idx_best (D := D) vol_affine))
          <= val (row_sum vol_affine j)) /\
       (forall j, (j < idx_best (D := D) vol_affine)%nat ->
          val (row_sum vol_affine (idx_best (D := D) vol_affine))
          < val (row_sum vol_affine j))) /\
  (forall vol_affine : list Mat3,
     (1 <= List.length vol_affine)%nat ->
     exists Mbar,
       median_of (D := Q) vol_affine = Ok Mbar /\
       (idx_best (D := Q) vol_affine < List.length vol_affine)%nat /\
       Mbar = nth (idx_best (D := Q) vol_affine) vol_affine identity /\
       (forall j, (j < List.length vol_affine)%nat ->
          sum_of_distances vol_affine Mbar
          <= sum_of_distances vol_affine (nth j vol_affine identity)) /\
       (forall j, (j < idx_best (D := Q) vol_affine)%nat ->
          sum_of_distances vol_affine Mbar
          < sum_of_distances vol_affine (nth j vol_affine identity))).
Proof.
  split.
  - intros D dbl val vol_affine Hn Hnum.
    destruct (idx_best_spec val vol_affine Hn Hnum) as (Hlt & Heq & Hle & Hlow).
    exists (nth (idx_best (D := D) vol_affine) vol_affine identity).
    split; [now apply (median_of_defined val)|]. auto.
  - intros vol_affine Hn.
    pose proof (numbers_exact (row_sums vol_affine)) as Hnum.
    destruct (idx_best_spec (fun q => q) vol_affine Hn Hnum)
      as (Hlt & _ & Hle & Hlow).
    exists (nth (idx_best (D := Q) vol_affine) vol_affine identity).
    split; [|split; [assumption|split; [reflexivity|split]]].
    + now apply (median_of_defined (fun q => q)).
    + intros j Hj. rewrite <- !row_sum_sum_of_distances. now apply Hle.
    + intros j Hj. rewrite <- !row_sum_sum_of_distances. now apply Hlow.
Qed.

(** In binary64, for the three affines that differ in one entry, the
    computed row sums are 1, 1 and 2 and the first affine is chosen. *)
Lemma median_affine_medoid_witness :
  map Binary64.value (row_sums three_near_affines) = [1; 1; 2] /\
  exists Mbar,
    median_of (D := PrimFloat.float) three_near_affines = Ok Mbar /\
    Mbar = mat3 1 0 0 0 1 0 0 0 1 /\
    forall j, (j < 3)%nat ->
      Binary64.value (row_sum three_near_affines 0)
      <= Binary64.value (row_sum three_near_affines j).
Proof.
  split; [vm_compute; reflexivity|].
  destruct (proj1 median_affine_medoid PrimFloat.float binary64 Binary64.value
              three_near_affines) as (Mbar & H1 & _ & H3 & _ & H5 & _).
  - simpl. repeat constructor.
  - intros a b Ha Hb. vm_compute in Ha, Hb.
    destruct Ha as [<-|[<-|[<-|[]]]]; destruct Hb as [<-|[<-|[<-|[]]]];
      vm_compute; split; reflexivity.
  - exists Mbar. split; [exact H1|]. split; [exact H3|]. exact H5.
Defined.

(** The row sums are 10, 10 and 20, in exact arithmetic and in binary64,
    and the first index is chosen. *)
Example median_of_two_identities_and_one :
  Forall2 Qeq (row_sums two_identities_and_one) [10; 10; 20] /\
  map Binary64.value (row_sums two_identities_and_one) = [10; 10; 20] /\
  idx_best (D := Q) two_identities_and_one = 0%nat /\
  idx_best (D := PrimFloat.float) two_identities_and_one = 0%nat /\
  median_of (D := PrimFloat.float) two_identities_and_one = Ok identity.
Proof.
  split; [repeat constructor; reflexivity|].
  split; [vm_compute; reflexivity|]. repeat split; vm_compute; reflexivity.
Qed.

(** C5, as stated, fails in binary64. For three affines that differ in
    one entry, 0, 2^-60 and 1, the sums of the distances are 1 + 2^-60,
    1 and 2 - 2^-60: the second slide has the least sum. The doubles
    computed for the first two are both 1, the first slide is chosen,
    and the sum of the distances from its affine is above that of the
    second slide. *)
Lemma median_affine_rounded :
  map Binary64.value (row_sums three_near_affines) = [1; 1; 2] /\
  median_of (D := PrimFloat.float) three_near_affines
  = Ok (nth 0 three_near_affines identity) /\
  sum_of_distances three_near_affines (nth 1 three_near_affines identity)
  < sum_of_distances three_near_affines (nth 0 three_near_affines identity) /\
  idx_best (D := Q) three_near_affines = 1%nat.
Proof. repeat split; vm_compute; reflexivity. Qed.

(** *** The matrix files *)

Section MatrixFiles.
Import stdpp.base stdpp.gmap stdpp.strings.
Import FilesFacts.

Lemma ReadAffineMatrix_Ok (fs : gmap string Mat3) (fn : string) (m : Mat3) :
  ReadAffineMatrix fs fn = Ok m <-> fs !! fn = Some m.
Proof.
  unfold ReadAffineMatrix. destruct (fs !! fn); split; congruence.
Qed.

Lemma unique_id_in_dec (x : string) (l : list SliceData) :
  (exists t, In t l /\ unique_id t = x) \/
  (forall t, In t l -> unique_id t <> x).
Proof.
  induction l as [|t l [(t' & Hin & E)|IH]].
  - right. intros ? [].
  - left. exists t'. split; [now right|assumption].
  - destruct (string_dec (unique_id t) x) as [E|E].
    + left. exists t. split; [now left|assumption].
    + right. intros t' [<-|Hin]; auto.
Qed.

Lemma read_vol_affine_ok (p : Project) (fs : gmap string Mat3)
  (slices : list SliceData) :
  (forall s, In s slices -> exists m, fs !! init_name p s = Some m) ->
  exists vol_affine,
    read_vol_affine p fs slices = Ok vol_affine /\
    List.length vol_affine = List.length slices.
Proof.
  induction slices as [|s slices IH]; intros H.
  - exists []. split; reflexivity.
  - destruct (H s (or_introl eq_refl)) as [m Hm].
    destruct IH as (vol & Hvol & Hlen); [intros; apply H; now right|].
    exists (m :: vol). cbn [read_vol_affine].
    rewrite GetFilenameForSlice_init. cbn [bind].
    unfold ReadAffineMatrix. rewrite Hm. cbn [bind]. rewrite Hvol.
    split; [reflexivity|simpl; now rewrite Hlen].
Qed.

(** The last loop writes the iteration-0 file of every slide, reading the
    accumulated matrices as they were before the loop. *)
Lemma write_initial_transforms_spec (p : Project) (M : Mat3)
  (slices : list SliceData) :
  forall fs : gmap string Mat3,
  (forall s, In s slices -> exists Ma, fs !! accum_name p s = Some Ma) ->
  exists fs',
    write_initial_transforms p M slices fs = Ok fs' /\
    (forall fn, (forall s, In s slices -> iter0_name p s <> fn) ->
                fs' !! fn = fs !! fn) /\
    (forall s, In s slices ->
       exists Ma, fs !! accum_name p s = Some Ma /\
                  fs' !! iter0_name p s = Some (mmul Ma M)).
Proof.
  induction slices as [|s slices IH]; intros fs H.
  - exists fs. split; [reflexivity|]. split; [reflexivity|intros ? []].
  - destruct (H s (or_introl eq_refl)) as [Ma HMa].
    set (fs1 := WriteAffineMatrix fs (iter0_name p s) (mmul Ma M)).
    assert (Hacc : forall t, fs1 !! accum_name p t = fs !! accum_name p t).
    { intros t. unfold fs1, WriteAffineMatrix. apply lookup_insert_ne.
      intros E. symmetry in E. now apply accum_name_ne_iter0 in E. }
    destruct (IH fs1) as (fs' & Hrun & Hother & Hown).
    { intros t Ht. rewrite Hacc. apply H. now right. }
    exists fs'. split; [|split].
    + cbn [write_initial_transforms].
      rewrite GetFilenameForSlice_accum, GetFilenameForSlice_iter0. cbn [bind].
      unfold ReadAffineMatrix at 1. rewrite HMa. exact Hrun.
    + intros fn Hfn. rewrite Hother by (intros; apply Hfn; now right).
      unfold fs1, WriteAffineMatrix. apply lookup_insert_ne.
      apply Hfn. now left.
    + intros t [<-|Ht].
      * exists Ma. split; [assumption|].
        destruct (unique_id_in_dec (unique_id s) slices) as [(t & Ht & E)|Hno].
        -- destruct (Hown t Ht) as (Mt & HMt & Hit).
           rewrite Hacc, (accum_name_id p t s E), HMa in HMt.
           injection HMt as <-.
           replace (iter0_name p s) with (iter0_name p t); [assumption|].
           unfold iter0_name. now rewrite E.
        -- rewrite Hother.
           ++ unfold fs1, WriteAffineMatrix. apply lookup_insert_eq.
           ++ intros t Ht E. apply (Hno t Ht). now apply (iter0_name_inj p).
      * destruct (Hown t Ht) as (Mt & HMt & Hit).
        exists Mt. rewrite <- Hacc. auto.
Qed.




End MatrixFiles.

End VolumeMatchFacts.

(** ** Reslicing the neighbours *)

Module RefinerFacts.
Import Files FilesFacts Refiner Neighbors NeighborsFacts.

Lemma bind_Ok {A B : Type} (c : result A) (k : A -> result B) (b : B) :
  bind c k = Ok b -> exists a, c = Ok a /\ k a = Ok b.
Proof. destruct c as [a|e]; simpl; [eauto|discriminate]. Qed.

Lemma bind_Throw {A B : Type} (c : result A) (k : A -> result B) (e : exn) :
  bind c k = Throw e -> c = Throw e \/ exists a, c = Ok a /\ k a = Throw e.
Proof. destruct c as [a|e']; simpl; [eauto|intros [= ->]; now left]. Qed.

Lemma wrap32_small (z : Z) : 0 <= z < 2 ^ 32 -> wrap32 z = z.
Proof. unfold wrap32. apply Z.mod_small. Qed.

Lemma wrap32_range (z : Z) : 0 <= wrap32 z < 2 ^ 32.
Proof. unfold wrap32. apply Z.mod_pos_bound. lia. Qed.


Lemma iterations_nil (i_first i_last : Z) :
  i_last < i_first -> iterations i_first i_last = [].
Proof.
  intros H. unfold iterations.
  replace (Z.to_nat (i_last - i_first + 1)) with 0%nat by lia. reflexivity.
Qed.

Lemma iterations_cons (i_first i_last : Z) :
  i_first <= i_last ->
  iterations i_first i_last = i_first :: iterations (i_first + 1) i_last.
Proof.
  intros H. unfold iterations.
  replace (Z.to_nat (i_last - i_first + 1))
    with (S (Z.to_nat (i_last - (i_first + 1) + 1))) by lia.
  cbn [seq map]. f_equal; [lia|].
  rewrite <- seq_shift, map_map. apply map_ext. intros d. lia.
Qed.

Lemma visits_iterations_mono (ordering : Z -> list nat) (a b c : Z) :
  a <= b ->
  (visits ordering (iterations b c) <= visits ordering (iterations a c))%nat.
Proof.
  intros Hab.
  assert (H : forall n a, Z.of_nat n = b - a ->
            (visits ordering (iterations b c)
             <= visits ordering (iterations a c))%nat).
  { induction n as [|n IH]; intros a' Hn.
    - replace a' with b by lia. apply Nat.le_refl.
    - destruct (Z_lt_le_dec c a') as [Hc|Hc].
      + rewrite (iterations_nil b c) by lia. apply Nat.le_0_l.
      + rewrite (iterations_cons a' c Hc).
        assert (IH' : (visits ordering (iterations b c)
                       <= visits ordering (iterations (a' + 1) c))%nat)
          by (apply IH; lia).
        change (visits ordering (a' :: iterations (a' + 1) c))
          with (List.length (ordering a')
                + visits ordering (iterations (a' + 1) c))%nat.
        lia. }
  apply (H (Z.to_nat (b - a))). lia.
Qed.

Lemma GetFilenameForSlice_iter_matrix (p : Project) (s : SliceData) (iter : nat) :
  GetFilenameForSlice p s VOL_ITER_MATRIX iter = Ok (iter_matrix_name p s iter).
Proof. reflexivity. Qed.

Lemma GetFilenameForSlice_iter_warp (p : Project) (s : SliceData) (iter : nat) :
  GetFilenameForSlice p s VOL_ITER_WARP iter = Ok (iter_warp_name p s iter).
Proof. reflexivity. Qed.

Lemma reslice_param_for_ok (gparam : GreedyResliceParameters)
  (p : Project) (n_affine iter : Z) (j : nat) :
  exists r, reslice_param_for p gparam n_affine iter j = Ok r.
Proof.
  unfold reslice_param_for. destruct (_ <=? _); simpl; eauto.
Qed.

Lemma registration_for_ok (p : Project) (n_affine iter : Z) (k : nat) :
  exists reg, registration_for p n_affine iter k = Ok reg.
Proof.
  unfold registration_for, fn_result. destruct (_ <=? _); simpl; eauto.
Qed.

Section Run.
Variable gparam : GreedyResliceParameters.
Variable can_skip : Z -> nat -> bool.
Variable ordering : Z -> list nat.
Variable GetImage_slide : Z -> nat -> result unit.
Variable RunReslice : ResliceCall -> result unit.
Variable RunRegistration : Z -> nat -> Registration -> result unit.

#[local] Abbreviation reslice_neighbors := (reslice_neighbors gparam RunReslice).
#[local] Abbreviation refine_slide :=
  (refine_slide gparam can_skip GetImage_slide RunReslice RunRegistration).
#[local] Abbreviation refine_slides :=
  (refine_slides gparam can_skip GetImage_slide RunReslice RunRegistration).
#[local] Abbreviation refine_iterations :=
  (refine_iterations gparam can_skip ordering GetImage_slide RunReslice
     RunRegistration).
#[local] Abbreviation iterate :=
  (iterate gparam can_skip ordering GetImage_slide RunReslice RunRegistration).
#[local] Abbreviation thrown_by_call :=
  (thrown_by_call GetImage_slide RunReslice RunRegistration).
#[local] Abbreviation calls_return :=
  (calls_return GetImage_slide RunReslice RunRegistration).

(** What a return of the loop over the neighbours tells. *)
Lemma reslice_neighbors_Ok (p : Project) (n_affine iter : Z) (k : nat)
  (nbr : slice_ref) (rest : list slice_ref) (calls : list ResliceCall) :
  reslice_neighbors p n_affine iter k (nbr :: rest) = Ok calls ->
  exists r cs,
    reslice_param_for p gparam n_affine iter (snd nbr) = Ok r /\
    reslice_neighbors p n_affine iter k rest = Ok cs /\
    calls = {| rc_iter := iter; rc_slide := k; rc_neighbor := snd nbr;
               rc_param := r |} :: cs.
Proof.
  cbn [Refiner.reslice_neighbors]. intros H.
  apply bind_Ok in H as (r & Hr & H). cbv zeta in H.
  apply bind_Ok in H as (u & Hu & H).
  apply bind_Ok in H as (cs & Hcs & H). injection H as <-.
  exists r, cs. auto.
Qed.

(** What a return of the body of the loop tells. *)
Lemma refine_slide_Ok (p : Project) (n_affine iter : Z) (k : nat)
  (calls : list ResliceCall) :
  refine_slide p n_affine iter k = Ok calls ->
  (can_skip iter k = true /\ calls = []) \/
  (can_skip iter k = false /\
   exists pos,
     os_index slice_ref_ltb
       (z_pos (nth k (m_Slices p) no_slice), k) (m_SortedSlices p) = Some pos /\
     reslice_neighbors p n_affine iter k (k_nbr (m_SortedSlices p) pos)
     = Ok calls).
Proof.
  unfold Refiner.refine_slide. destruct (can_skip iter k).
  - intros [= <-]. now left.
  - intros H. right. split; [reflexivity|].
    apply bind_Ok in H as (u & Hu & H).
    destruct (os_index _ _ _) as [pos|]; [|discriminate].
    apply bind_Ok in H as (cs & Hcs & H).
    apply bind_Ok in H as (reg & Hreg & H).
    apply bind_Ok in H as (u' & Hu' & H). injection H as <-.
    exists pos. auto.
Qed.




(** *** The loop over the iterations *)


(** It returns when the fuel is above the number of iterations. *)
Lemma iterate_enough (p : Project) (n_affine i_last : Z) (fuel : nat) :
  i_last < 2 ^ 32 - 1 ->
  forall iter,
    0 <= iter ->
    (Z.to_nat (i_last - iter + 1) < fuel)%nat ->
    iterate fuel p n_affine iter i_last
    = Some (refine_iterations p n_affine (iterations iter i_last)).
Proof.
  intros Hlast. induction fuel as [|fuel IH]; intros iter Hiter Hf; [lia|].
  cbn [Refiner.iterate]. destruct (iter <=? i_last) eqn:E.
  - apply Z.leb_le in E. rewrite (iterations_cons _ _ E).
    cbn [Refiner.refine_iterations].
    destruct (Refiner.refine_slides _ _ _ _ _ _ _ _ _) as [calls|e];
      [|reflexivity].
    cbn [bind]. rewrite wrap32_small by lia.
    rewrite IH by lia.
    now destruct (Refiner.refine_iterations _ _ _ _ _ _ _ _ _).
  - apply Z.leb_gt in E. now rewrite iterations_nil.
Qed.

(** With [i_last] the largest [unsigned int] the test [iter <= i_last]
    never fails: the loop does not return. *)
Lemma iterate_endless (p : Project) (n_affine i_last : Z) (fuel : nat) :
  2 ^ 32 - 1 <= i_last ->
  forall iter calls,
    iter <= i_last ->
    iterate fuel p n_affine iter i_last <> Some (Ok calls).
Proof.
  intros Hlast. induction fuel as [|fuel IH]; intros iter calls Hiter H;
    [discriminate|].
  cbn [Refiner.iterate] in H.
  replace (iter <=? i_last) with true in H by (symmetry; now apply Z.leb_le).
  destruct (Refiner.refine_slides _ _ _ _ _ _ _ _ _) as [cs|e]; [|discriminate].
  destruct (Refiner.iterate _ _ _ _ _ _ fuel p n_affine (wrap32 (iter + 1)) i_last)
    as [[more|e]|] eqn:Hrec; try discriminate.
  apply (IH (wrap32 (iter + 1)) more ltac:(pose proof (wrap32_range (iter + 1)); lia) Hrec).
Qed.

(** *** Exceptions and returns *)

Lemma os_index_found (x : slice_ref) (s : list slice_ref) :
  In x s -> exists pos, os_index slice_ref_ltb x s = Some pos.
Proof.
  induction s as [|y s IH]; simpl; [intros []|].
  destruct (key_equiv slice_ref_ltb x y) eqn:E; [eauto|].
  intros [->|H].
  - unfold key_equiv in E. rewrite slice_ref_ltb_irrefl in E. discriminate.
  - destruct (IH H) as [pos ->]. simpl. eauto.
Qed.

Lemma reslice_neighbors_Throw (p : Project) (n_affine iter : Z) (k : nat)
  (nbrs : list slice_ref) (e : exn) :
  reslice_neighbors p n_affine iter k nbrs = Throw e ->
  exists call, RunReslice call = Throw e.
Proof.
  induction nbrs as [|nbr nbrs IH]; [discriminate|].
  cbn [Refiner.reslice_neighbors].
  destruct (reslice_param_for_ok gparam p n_affine iter (snd nbr)) as [r ->].
  cbn [bind]. cbv zeta. intros H.
  apply bind_Throw in H as [H|(u & _ & H)]; [eauto|].
  apply bind_Throw in H as [H|(cs & _ & H)]; [auto|discriminate].
Qed.

Lemma reslice_neighbors_returns (p : Project) (n_affine iter : Z) (k : nat)
  (nbrs : list slice_ref) :
  calls_return ->
  exists calls, reslice_neighbors p n_affine iter k nbrs = Ok calls.
Proof.
  intros (_ & Hr & _). induction nbrs as [|nbr rest IH]; [simpl; eauto|].
  cbn [Refiner.reslice_neighbors].
  destruct (reslice_param_for_ok gparam p n_affine iter (snd nbr)) as [r ->].
  cbn [bind]. cbv zeta. rewrite Hr. cbn [bind].
  destruct IH as [calls ->]. cbn [bind]. eauto.
Qed.

Lemma refine_slide_Throw (p : Project) (n_affine iter : Z) (k : nat) (e : exn) :
  In (z_pos (nth k (m_Slices p) no_slice), k) (m_SortedSlices p) ->
  refine_slide p n_affine iter k = Throw e ->
  thrown_by_call e.
Proof.
  intros Hin. unfold Refiner.refine_slide.
  destruct (can_skip iter k); [discriminate|].
  destruct (os_index_found _ _ Hin) as [pos ->]. intros H.
  apply bind_Throw in H as [H|(u & _ & H)]; [left; eauto|].
  apply bind_Throw in H as [H|(cs & _ & H)].
  { right. left. now apply reslice_neighbors_Throw in H. }
  destruct (registration_for_ok p n_affine iter k) as [reg Hreg].
  rewrite Hreg in H. cbn [bind] in H.
  apply bind_Throw in H as [H|(u' & _ & H)]; [|discriminate].
  right. right. eauto.
Qed.

Lemma refine_slide_returns (p : Project) (n_affine iter : Z) (k : nat) :
  In (z_pos (nth k (m_Slices p) no_slice), k) (m_SortedSlices p) ->
  calls_return ->
  exists calls, refine_slide p n_affine iter k = Ok calls.
Proof.
  intros Hin Hlib. unfold Refiner.refine_slide.
  destruct (can_skip iter k); [eauto|].
  destruct (os_index_found _ _ Hin) as [pos ->].
  destruct (reslice_neighbors_returns p n_affine iter k
              (k_nbr (m_SortedSlices p) pos) Hlib) as [calls ->].
  destruct (registration_for_ok p n_affine iter k) as [reg ->].
  destruct Hlib as (Hg & _ & Hr). rewrite Hg. cbn [bind].
  rewrite Hr. cbn [bind]. eauto.
Qed.

Section Sorted.
Variable p : Project.
Hypothesis Hsorted : well_sorted p.

Lemma slide_in_sorted (k : nat) :
  (k < List.length (m_Slices p))%nat ->
  In (z_pos (nth k (m_Slices p) no_slice), k) (m_SortedSlices p).
Proof.
  intros Hk. destruct Hsorted as (_ & _ & Hin). apply Hin.
  now apply nth_error_nth'.
Qed.

Lemma refine_slides_Throw (n_affine iter : Z) (ks : list nat) (e : exn) :
  (forall k, In k ks -> (k < List.length (m_Slices p))%nat) ->
  refine_slides p n_affine iter ks = Throw e ->
  thrown_by_call e.
Proof.
  induction ks as [|k ks IH]; [discriminate|]. intros Hks H.
  cbn [Refiner.refine_slides] in H.
  apply bind_Throw in H as [H|(cs & _ & H)].
  - apply (refine_slide_Throw p n_affine iter k); [|assumption].
    apply slide_in_sorted, Hks. now left.
  - apply bind_Throw in H as [H|(more & _ & H)]; [|discriminate].
    apply IH; [|assumption]. intros k' Hk'. apply Hks. now right.
Qed.

Lemma refine_slides_returns (n_affine iter : Z) (ks : list nat) :
  (forall k, In k ks -> (k < List.length (m_Slices p))%nat) ->
  calls_return ->
  exists calls, refine_slides p n_affine iter ks = Ok calls.
Proof.
  intros Hks Hlib. induction ks as [|k ks IH]; [simpl; eauto|].
  cbn [Refiner.refine_slides].
  destruct (refine_slide_returns p n_affine iter k) as [calls ->];
    [apply slide_in_sorted, Hks; now left|assumption|].
  destruct IH as [more ->]; [intros k' Hk'; apply Hks; now right|].
  cbn [bind]. eauto.
Qed.

Hypothesis Hordering :
  forall iter k, In k (ordering iter) -> (k < List.length (m_Slices p))%nat.

Lemma refine_iterations_returns (n_affine : Z) (iters : list Z) :
  calls_return ->
  exists calls, refine_iterations p n_affine iters = Ok calls.
Proof.
  intros Hlib. induction iters as [|iter rest IH]; [simpl; eauto|].
  cbn [Refiner.refine_iterations].
  destruct (refine_slides_returns n_affine iter (ordering iter) (Hordering iter)
              Hlib) as [calls ->].
  destruct IH as [more ->]. cbn [bind]. eauto.
Qed.

Lemma iterate_Throw (n_affine i_last : Z) (fuel : nat) :
  forall iter e,
    iterate fuel p n_affine iter i_last = Some (Throw e) ->
    thrown_by_call e.
Proof.
  induction fuel as [|fuel IH]; intros iter e H; [discriminate|].
  cbn [Refiner.iterate] in H. destruct (iter <=? i_last); [|discriminate].
  destruct (Refiner.refine_slides _ _ _ _ _ _ _ _ _) as [cs|e'] eqn:Hs.
  - destruct (Refiner.iterate _ _ _ _ _ _ fuel p n_affine (wrap32 (iter + 1)) i_last)
      as [[more|e']|] eqn:Hrec; try discriminate.
    injection H as ->. exact (IH _ _ Hrec).
  - injection H as ->.
    exact (refine_slides_Throw n_affine iter (ordering iter) e (Hordering iter) Hs).
Qed.

End Sorted.

(** *** Which slides are resliced *)

Lemma k_nbr_In (sorted : list slice_ref) (pos : nat) (x : slice_ref) :
  In x (k_nbr sorted pos) ->
  nth_error sorted (S pos) = Some x \/
  exists q, pos = S q /\ nth_error sorted q = Some x.
Proof.
  unfold k_nbr. rewrite in_app_iff. intros [H|H].
  - right. destruct pos as [|q]; [destruct H|].
    exists q. split; [reflexivity|].
    destruct (nth_error sorted q); [|destruct H].
    destruct H as [->|[]]. reflexivity.
  - left. destruct (nth_error sorted (S pos)); [|destruct H].
    destruct H as [->|[]]. reflexivity.
Qed.

Lemma k_nbr_length (sorted : list slice_ref) (pos : nat) :
  (List.length (k_nbr sorted pos) <= 2)%nat.
Proof.
  unfold k_nbr. rewrite length_app.
  destruct pos as [|q]; [|destruct (nth_error sorted q)];
    destruct (nth_error sorted _); simpl; lia.
Qed.

Lemma reslice_neighbors_trace (p : Project) (n_affine iter : Z) (k : nat)
  (nbrs : list slice_ref) :
  forall calls,
    reslice_neighbors p n_affine iter k nbrs = Ok calls ->
    List.length calls = List.length nbrs /\
    Forall (fun c => rc_iter c = iter /\ rc_slide c = k /\
                     exists nbr, In nbr nbrs /\ snd nbr = rc_neighbor c) calls.
Proof.
  induction nbrs as [|nbr nbrs IH]; intros calls H.
  - injection H as <-. split; [reflexivity|constructor].
  - apply reslice_neighbors_Ok in H as (r & cs & Hr & Hcs & ->).
    destruct (IH _ Hcs) as [Hl Hall]. split; [simpl; now rewrite Hl|].
    constructor; [simpl; eauto 6|].
    eapply Forall_impl; [|exact Hall].
    intros c (H1 & H2 & x & Hx & H3). simpl. eauto 7.
Qed.

Lemma refine_slides_trace (p : Project) (n_affine iter : Z) (ks : list nat) :
  forall calls,
    refine_slides p n_affine iter ks = Ok calls ->
    (List.length calls <= 2 * List.length ks)%nat /\
    Forall (fun c => rc_iter c = iter /\ In (rc_slide c) ks /\
                     can_skip iter (rc_slide c) = false /\
                     exists pos nbr,
                       os_index slice_ref_ltb
                         (z_pos (nth (rc_slide c) (m_Slices p) no_slice), rc_slide c)
                         (m_SortedSlices p) = Some pos /\
                       snd nbr = rc_neighbor c /\
                       (nth_error (m_SortedSlices p) (S pos) = Some nbr \/
                        exists q, pos = S q /\
                                  nth_error (m_SortedSlices p) q = Some nbr)) calls.
Proof.
  induction ks as [|k ks IH]; simpl; intros calls H.
  - injection H as <-. split; [simpl; lia|constructor].
  - apply bind_Ok in H as (cs & Hcs & H).
    apply bind_Ok in H as (more & Hmore & H). injection H as <-.
    destruct (IH _ Hmore) as [Hl Hall]. rewrite length_app.
    apply refine_slide_Ok in Hcs as [[_ ->]|(Hskip & pos & Hpos & Hcs)].
    + split; [simpl; lia|]. simpl.
      eapply Forall_impl; [|exact Hall]. intros c (H1 & H2 & H3). auto.
    + apply reslice_neighbors_trace in Hcs as [Hn Hcs].
      pose proof (k_nbr_length (m_SortedSlices p) pos).
      split; [lia|]. apply Forall_app. split.
      * eapply Forall_impl; [|exact Hcs].
        intros c (H1 & H2 & nbr & Hin & H3). rewrite H2.
        split; [assumption|]. split; [now left|]. split; [assumption|].
        exists pos, nbr. split; [assumption|]. split; [assumption|].
        now apply k_nbr_In.
      * eapply Forall_impl; [|exact Hall]. intros c (H1 & H2 & H3). auto.
Qed.

Lemma iterate_trace (p : Project) (n_affine i_last : Z) (fuel : nat) :
  i_last < 2 ^ 32 - 1 ->
  forall iter calls,
    iterate fuel p n_affine iter i_last = Some (Ok calls) ->
    (List.length calls <= 2 * visits ordering (iterations iter i_last))%nat /\
    Forall (adjacent_call can_skip ordering p) calls.
Proof.
  intros Hlast. induction fuel as [|fuel IH]; intros iter calls H;
    [discriminate|].
  cbn [Refiner.iterate] in H. destruct (iter <=? i_last) eqn:E.
  - apply Z.leb_le in E.
    destruct (Refiner.refine_slides _ _ _ _ _ _ _ _ _) as [cs|e] eqn:Hcs;
      [|discriminate].
    destruct (Refiner.iterate _ _ _ _ _ _ fuel p n_affine (wrap32 (iter + 1)) i_last)
      as [[more|e]|] eqn:Hrec; try discriminate.
    injection H as <-.
    destruct (IH _ _ Hrec) as [Hl Hall].
    apply refine_slides_trace in Hcs as [Hn Hcs].
    assert (Hw : iter + 1 <= wrap32 (iter + 1)).
    { destruct (Z_lt_le_dec iter 0) as [Hneg|Hpos].
      - pose proof (wrap32_range (iter + 1)). lia.
      - rewrite wrap32_small; lia. }
    pose proof (visits_iterations_mono ordering _ _ i_last Hw) as Hmono.
    rewrite (iterations_cons _ _ E).
    change (visits ordering (iter :: iterations (iter + 1) i_last))
      with (List.length (ordering iter)
            + visits ordering (iterations (iter + 1) i_last))%nat.
    rewrite length_app. split; [lia|].
    apply Forall_app. split; [|assumption].
    eapply Forall_impl; [|exact Hcs].
    intros c (H1 & H2 & H3 & H4). unfold adjacent_call. rewrite H1. auto.
  - injection H as <-. split; [simpl; lia|constructor].
Qed.

End Run.



(** *** When the refiner returns *)

(** X17. On a project whose sorted list matches its slides, with
    orderings that list slide indices. When the iteration range fails
    the check [1 <= i_first <= i_last <= n_affine + n_deform] (the sum as
    an [unsigned int]), [IterativeMatchToVolume] throws the exception of
    the check and runs no iteration. When the range passes it, every
    exception that comes out was thrown by one of the calls of the loop
    body, a [GetImage], a reslice or a registration: the exception
    "Slice not found in sorted list" of the function itself is never
    thrown. If none of these calls throws and [i_last] is below the
    largest [unsigned int], the function returns after its
    [i_last - i_first + 1] iterations. If [i_last] is the largest
    [unsigned int], [++iter] wraps around before [iter <= i_last] can
    fail: the function does not return, it runs until a call throws. *)
Theorem IterativeMatchToVolume_throws_on_range_only
  (gparam : GreedyResliceParameters) (can_skip : Z -> nat -> bool)
  (ordering : Z -> list nat) (GetImage_slide : Z -> nat -> result unit)
  (RunReslice : ResliceCall -> result unit)
  (RunRegistration : Z -> nat -> Registration -> result unit)
  (p : Project) (n_affine n_deform i_first i_last : Z) :
  well_sorted p ->
  (forall iter k, In k (ordering iter) -> (k < List.length (m_Slices p))%nat) ->
  0 <= i_first ->
  let run fuel :=
    IterativeMatchToVolume gparam can_skip ordering GetImage_slide RunReslice
      RunRegistration fuel p n_affine n_deform i_first i_last in
  let checked :=
    i_first <= i_last /\ i_first <> 0 /\ i_last <= wrap32 (n_affine + n_deform) in
  (~ checked ->
   forall fuel,
     run fuel = Some (Throw (GreedyException "Iteration range is out of range"))) /\
  (checked ->
   (forall fuel e,
      run fuel = Some (Throw e) ->
      (exists iter k, GetImage_slide iter k = Throw e) \/
      (exists call, RunReslice call = Throw e) \/
      (exists iter k reg, RunRegistration iter k reg = Throw e)) /\
   ((forall iter k, GetImage_slide iter k = Ok tt) ->
    (forall call, RunReslice call = Ok tt) ->
    (forall iter k reg, RunRegistration iter k reg = Ok tt) ->
    i_last < 2 ^ 32 - 1 ->
    exists calls, forall fuel,
      (Z.to_nat (i_last - i_first + 1) < fuel)%nat ->
      run fuel = Some (Ok calls)) /\
   (i_last = 2 ^ 32 - 1 -> forall fuel calls, run fuel <> Some (Ok calls))).
Proof.
  intros Hp Hord Hfirst run checked. subst run checked.
  unfold IterativeMatchToVolume.
  destruct (_ || _ || _) eqn:E.
  - split; [reflexivity|]. intros (H1 & H2 & H3). exfalso.
    rewrite !orb_true_iff, !Z.ltb_lt, Z.eqb_eq in E. lia.
  - rewrite !orb_false_iff, !Z.ltb_ge, Z.eqb_neq in E.
    split; [intros H; exfalso; apply H; lia|]. intros _.
    split; [|split].
    + intros fuel e H.
      exact (iterate_Throw _ _ _ _ _ _ p Hp Hord _ _ _ _ _ H).
    + intros Hg Hr Hreg Hlast.
      destruct (refine_iterations_returns gparam can_skip ordering GetImage_slide
                  RunReslice RunRegistration p Hp Hord n_affine
                  (iterations i_first i_last)) as [calls Hc].
      { now split; [|split]. }
      exists calls. intros fuel Hf. rewrite <- Hc.
      now apply iterate_enough.
    + intros Hlast fuel calls. apply iterate_endless; lia.
Qed.

Lemma IterativeMatchToVolume_throws_on_range_only_witness :
  exists calls, forall fuel,
    (Z.to_nat (3 - 1 + 1) < fuel)%nat -> sample_run fuel = Some (Ok calls).
Proof.
  refine (proj1 (proj2 (proj2
    (IterativeMatchToVolume_throws_on_range_only empty_reslice_param
       (fun _ _ => false) (fun _ => [0; 1; 2]%nat) (fun _ _ => Ok tt)
       (fun _ => Ok tt) (fun _ _ _ => Ok tt) Neighbors.three_slides 1 2 1 3
       _ _ _) _)) _ _ _ _).
  - split; [|split].
    + repeat constructor.
    + reflexivity.
    + intros [|[|[|[|k]]]] s H; simpl in H; try discriminate;
        injection H as <-; simpl; auto.
  - intros _ k H. simpl in *. lia.
  - lia.
  - vm_compute. repeat split; discriminate.
  - reflexivity.
  - reflexivity.
  - reflexivity.
  - reflexivity.
Defined.

(** X18. When [IterativeMatchToVolume] returns, every reslice it has run
    was for a slide of the ordering of its iteration whose result file
    could not be skipped, against the slide just before or just after it
    in [m_SortedSlices]; so there are at most two reslices for each slide
    visited. *)
Theorem reslice_immediate_neighbors
  (gparam : GreedyResliceParameters) (can_skip : Z -> nat -> bool)
  (ordering : Z -> list nat) (GetImage_slide : Z -> nat -> result unit)
  (RunReslice : ResliceCall -> result unit)
  (RunRegistration : Z -> nat -> Registration -> result unit)
  (fuel : nat) (p : Project)
  (n_affine n_deform i_first i_last : Z) (calls : list ResliceCall) :
  IterativeMatchToVolume gparam can_skip ordering GetImage_slide RunReslice
    RunRegistration fuel p n_affine n_deform i_first i_last = Some (Ok calls) ->
  (List.length calls <= 2 * visits ordering (iterations i_first i_last))%nat /\
  Forall (adjacent_call can_skip ordering p) calls.
Proof.
  unfold IterativeMatchToVolume.
  destruct (_ || _ || _) eqn:E; [discriminate|].
  rewrite !orb_false_iff, !Z.ltb_ge in E. destruct E as [[E _] _].
  intros H. destruct (Z_lt_le_dec i_last (2 ^ 32 - 1)) as [Hlast|Hlast].
  - exact (iterate_trace _ _ _ _ _ _ _ _ _ _ Hlast _ _ H).
  - exfalso. exact (iterate_endless _ _ _ _ _ _ _ _ _ _ Hlast _ _ E H).
Qed.

Lemma reslice_immediate_neighbors_witness :
  exists calls,
    sample_run 4 = Some (Ok calls) /\
    (List.length calls <= 2 * visits (fun _ => [0; 1; 2]%nat) (iterations 1 3))%nat /\
    Forall (adjacent_call (fun _ _ => false) (fun _ => [0; 1; 2]%nat)
              Neighbors.three_slides) calls.
Proof.
  eexists. split; [vm_compute; reflexivity|].
  apply (reslice_immediate_neighbors empty_reslice_param (fun _ _ => false)
           (fun _ => [0; 1; 2]%nat) (fun _ _ => Ok tt) (fun _ => Ok tt)
           (fun _ _ _ => Ok tt) 4 Neighbors.three_slides 1 2 1 3).
  vm_compute. reflexivity.
Defined.

(** *** The files handed from one iteration to the next *)



End RefinerFacts.

(** ** InitialMatchToVolume: what a return tells *)

Module InitialMatchFacts.
Import Files Matrix VolumeMatch VolumeMatchFacts RefinerFacts.

Section MatrixFiles.
Import stdpp.base stdpp.gmap stdpp.strings.
Import FilesFacts.

Lemma median_name_ne_iter0 (p : Project) (s : SliceData) :
  median_name p <> iter0_name p s.
Proof.
  unfold median_name, iter0_name. intros H.
  apply append_inv_head in H. discriminate.
Qed.

Lemma read_vol_affine_inv (p : Project) (fs : gmap string Mat3)
  (slices : list SliceData) :
  forall vol_affine,
    read_vol_affine p fs slices = Ok vol_affine ->
    List.length vol_affine = List.length slices /\
    forall s, In s slices -> exists m, fs !! init_name p s = Some m.
Proof.
  induction slices as [|s slices IH]; intros vol H.
  - injection H as <-. split; [reflexivity|intros ? []].
  - cbn [read_vol_affine] in H. rewrite GetFilenameForSlice_init in H.
    cbn [bind] in H.
    apply bind_Ok in H as (m & Hm & H). apply bind_Ok in H as (ms & Hms & H).
    injection H as <-. destruct (IH _ Hms) as [Hl Hin].
    split; [simpl; now rewrite Hl|].
    intros t [<-|Ht]; [|auto]. exists m. now apply ReadAffineMatrix_Ok.
Qed.

Lemma write_initial_transforms_inv (p : Project) (M : Mat3)
  (slices : list SliceData) :
  forall fs fs' : gmap string Mat3,
    write_initial_transforms p M slices fs = Ok fs' ->
    forall s, In s slices -> exists Ma, fs !! accum_name p s = Some Ma.
Proof.
  induction slices as [|s slices IH]; intros fs fs' H; [intros ? []|].
  cbn [write_initial_transforms] in H.
  rewrite GetFilenameForSlice_accum, GetFilenameForSlice_iter0 in H.
  cbn [bind] in H. apply bind_Ok in H as (Ma & HMa & H).
  intros t [<-|Ht].
  - exists Ma. now apply ReadAffineMatrix_Ok.
  - destruct (IH _ _ H t Ht) as [Mt HMt]. exists Mt. rewrite <- HMt.
    symmetry. unfold WriteAffineMatrix. apply lookup_insert_ne.
    intros E. symmetry in E. now apply accum_name_ne_iter0 in E.
Qed.

(** X16. What a return of the second half of [InitialMatchToVolume]
    tells: every slide had its [VOL_INIT_MATRIX] and its [ACCUM_MATRIX]
    file (so a missing one makes the call throw), the file
    [VOL_MEDIAN_INIT_MATRIX] holds the median affine, and every matrix
    file other than that one and the iteration-0 files of the slides
    reads as before. *)
Theorem InitialMatchToVolume_median_returns {D : Type} {dbl : Double D}
  (p : Project) (fs fs' : gmap string Mat3) :
  InitialMatchToVolume_median (D := D) p fs = Ok fs' ->
  (forall s, In s (m_Slices p) ->
     (exists m, ReadAffineMatrix fs (init_name p s) = Ok m) /\
     (exists Ma, ReadAffineMatrix fs (accum_name p s) = Ok Ma)) /\
  (exists vol_affine Mbar,
     read_vol_affine p fs (m_Slices p) = Ok vol_affine /\
     median_of (D := D) vol_affine = Ok Mbar /\
     ReadAffineMatrix fs' (median_name p) = Ok Mbar) /\
  (forall fn, fn <> median_name p ->
     (forall s, In s (m_Slices p) -> fn <> iter0_name p s) ->
     ReadAffineMatrix fs' fn = ReadAffineMatrix fs fn).
Proof.
  unfold InitialMatchToVolume_median. intros H.
  apply bind_Ok in H as (vol & Hvol & H).
  apply bind_Ok in H as (Mbar & HM & H).
  rewrite GetFilenameForGlobal_median in H. cbn [bind] in H.
  destruct (read_vol_affine_inv _ _ _ _ Hvol) as [Hlen Hinit].
  set (fs1 := WriteAffineMatrix fs (median_name p) Mbar) in *.
  pose proof (write_initial_transforms_inv _ _ _ _ _ H) as Hacc1.
  destruct (write_initial_transforms_spec p Mbar (m_Slices p) fs1 Hacc1)
    as (fs'' & Hrun & Hother & _).
  rewrite H in Hrun. injection Hrun as <-.
  assert (Hacc : forall t, fs1 !! accum_name p t = fs !! accum_name p t).
  { intros t. unfold fs1, WriteAffineMatrix. apply lookup_insert_ne.
    intros E. symmetry in E. now apply accum_name_ne_median in E. }
  split; [|split].
  - intros s Hs. split.
    + destruct (Hinit s Hs) as [m Hm]. exists m. now apply ReadAffineMatrix_Ok.
    + destruct (Hacc1 s Hs) as [Ma HMa]. exists Ma.
      apply ReadAffineMatrix_Ok. now rewrite <- Hacc.
  - exists vol, Mbar. split; [assumption|]. split; [assumption|].
    apply ReadAffineMatrix_Ok. rewrite Hother.
    + unfold fs1, WriteAffineMatrix. apply lookup_insert_eq.
    + intros s _ E. symmetry in E. now apply median_name_ne_iter0 in E.
  - intros fn Hm Hi. unfold ReadAffineMatrix. rewrite Hother.
    + unfold fs1, WriteAffineMatrix. rewrite lookup_insert_ne by congruence.
      reflexivity.
    + intros s Hs E. now apply (Hi s Hs).
Qed.

Lemma returns_Ok {A : Type} (r : result A) :
  match r with Ok _ => true | Throw _ => false end = true ->
  exists a, r = Ok a.
Proof. destruct r as [a|e]; [eauto|discriminate]. Qed.

Lemma InitialMatchToVolume_median_returns_witness :
  exists vol_affine Mbar,
    read_vol_affine Neighbors.three_slides sample_matrix_files
      (m_Slices Neighbors.three_slides) = Ok vol_affine /\
    median_of (D := PrimFloat.float) vol_affine = Ok Mbar.
Proof.
  destruct (returns_Ok (InitialMatchToVolume_median (D := PrimFloat.float)
                          Neighbors.three_slides sample_matrix_files))
    as [fs' E]; [vm_compute; reflexivity|].
  destruct (InitialMatchToVolume_median_returns _ _ _ E)
    as (_ & (vol & Mbar & Hv & HM & _) & _).
  exists vol, Mbar. auto.
Defined.

End MatrixFiles.
End InitialMatchFacts.

(** ** The accumulated transforms *)

Module ChainFacts.
Import Files Matrix VolumeMatch Chain.
#[local] Open Scope Q_scope.

Lemma meq_intro (a b : Mat3) :
  e00 a == e00 b -> e01 a == e01 b -> e02 a == e02 b ->
  e10 a == e10 b -> e11 a == e11 b -> e12 a == e12 b ->
  e20 a == e20 b -> e21 a == e21 b -> e22 a == e22 b -> meq a b.
Proof. intros. unfold meq, data_block. repeat constructor; assumption. Qed.

Lemma meq_elim (a b : Mat3) :
  meq a b ->
  e00 a == e00 b /\ e01 a == e01 b /\ e02 a == e02 b /\
  e10 a == e10 b /\ e11 a == e11 b /\ e12 a == e12 b /\
  e20 a == e20 b /\ e21 a == e21 b /\ e22 a == e22 b.
Proof.
  unfold meq, data_block. intros H.
  repeat match goal with
         | H : Forall2 _ (_ :: _) (_ :: _) |- _ => inversion H; clear H; subst
         end.
  repeat split; assumption.
Qed.

Lemma meq_refl (a : Mat3) : meq a a.
Proof. apply meq_intro; reflexivity. Qed.

Lemma meq_trans (a b c : Mat3) : meq a b -> meq b c -> meq a c.
Proof.
  intros H1 H2. apply meq_elim in H1, H2.
  destruct H1 as (?&?&?&?&?&?&?&?&?), H2 as (?&?&?&?&?&?&?&?&?).
  apply meq_intro; etransitivity; eassumption.
Qed.

Lemma mmul_meq (a a' b b' : Mat3) :
  meq a a' -> meq b b' -> meq (mmul a b) (mmul a' b').
Proof.
  intros H1 H2. apply meq_elim in H1, H2.
  destruct H1 as (A0&A1&A2&A3&A4&A5&A6&A7&A8),
           H2 as (B0&B1&B2&B3&B4&B5&B6&B7&B8).
  apply meq_intro; unfold mmul, dot3; cbn [e00 e01 e02 e10 e11 e12 e20 e21 e22];
    rewrite ?A0, ?A1, ?A2, ?A3, ?A4, ?A5, ?A6, ?A7, ?A8,
            ?B0, ?B1, ?B2, ?B3, ?B4, ?B5, ?B6, ?B7, ?B8; reflexivity.
Qed.

Lemma mmul_assoc (a b c : Mat3) : meq (mmul (mmul a b) c) (mmul a (mmul b c)).
Proof.
  apply meq_intro; unfold mmul, dot3; cbn [e00 e01 e02 e10 e11 e12 e20 e21 e22];
    ring.
Qed.

Lemma mmul_identity_l (a : Mat3) : meq (mmul identity a) a.
Proof.
  apply meq_intro; unfold mmul, dot3, identity;
    cbn [e00 e01 e02 e10 e11 e12 e20 e21 e22]; ring.
Qed.

Lemma mmul_identity_r (a : Mat3) : meq (mmul a identity) a.
Proof.
  apply meq_intro; unfold mmul, dot3, identity;
    cbn [e00 e01 e02 e10 e11 e12 e20 e21 e22]; ring.
Qed.


Section Paths.
Import stdpp.base stdpp.gmap stdpp.strings.
Variable NO_PATH : nat.
Variable GetPredecessorArray : nat -> nat.

#[local] Abbreviation traverse := (traverse NO_PATH GetPredecessorArray).
#[local] Abbreviation accumulate := (accumulate NO_PATH GetPredecessorArray).

(** [t_step] for the edge from [i_prev] to [i_curr]. *)
#[local] Abbreviation read_step p fs i_prev i_curr :=
  (bind (GetFilenameForSlicePair p
           (nth i_prev (m_Slices p) Refiner.no_slice)
           (nth i_curr (m_Slices p) Refiner.no_slice) AFFINE_MATRIX)
        (fun fn_matrix => ReadAffineMatrix fs fn_matrix)).

Lemma traverse_left (p : Project) (fs : gmap string Mat3) (fuel : nat) :
  forall i_curr i_prev t_accum R,
    traverse fuel p fs i_curr i_prev t_accum = Some (Ok R) ->
    forall B t_accum', meq t_accum' (mmul B t_accum) ->
      exists R', traverse fuel p fs i_curr i_prev t_accum' = Some (Ok R') /\
                 meq R' (mmul B R).
Proof.
  induction fuel as [|fuel IH]; intros i j acc R H B acc' Hacc;
    cbn [Chain.traverse] in *;
    destruct (Nat.eqb j NO_PATH || Nat.eqb j i).
  - injection H as <-. eauto.
  - discriminate.
  - injection H as <-. eauto.
  - destruct (read_step p fs j i) as [t_step|e]; [|discriminate].
    apply (IH _ _ _ _ H B).
    apply meq_trans with (mmul (mmul B acc) t_step).
    + apply mmul_meq; [assumption|apply meq_refl].
    + apply mmul_assoc.
Qed.

(** X15. The transform accumulated for a slide along its path to the
    root. For the root itself and for a slide without a path it is the
    identity, with no exception. For a slide whose predecessor is another
    slide it is, entry by entry, the matrix of the edge from the
    predecessor times the transform accumulated for the predecessor, and
    it is there one pass after the predecessor's; if the matrix file of
    the edge cannot be read, the exception of the read is thrown. The
    loop has no guard of its own: on a predecessor array in which two
    slides are each other's predecessor it never ends. *)
Theorem accumulate_along_path (p : Project) (fs : gmap string Mat3) :
  (forall fuel i,
      GetPredecessorArray i = i \/ GetPredecessorArray i = NO_PATH ->
      accumulate fuel p fs i = Some (Ok identity)) /\
  (forall fuel i t_step A,
      GetPredecessorArray i <> i -> GetPredecessorArray i <> NO_PATH ->
      read_step p fs (GetPredecessorArray i) i = Ok t_step ->
      accumulate fuel p fs (GetPredecessorArray i) = Some (Ok A) ->
      exists R, accumulate (S fuel) p fs i = Some (Ok R) /\
                meq R (mmul t_step A)) /\
  (forall fuel i e,
      GetPredecessorArray i <> i -> GetPredecessorArray i <> NO_PATH ->
      read_step p fs (GetPredecessorArray i) i = Throw e ->
      accumulate (S fuel) p fs i = Some (Throw e)) /\
  (forall a b t_ab t_ba,
      a <> b -> a <> NO_PATH -> b <> NO_PATH ->
      GetPredecessorArray a = b -> GetPredecessorArray b = a ->
      read_step p fs b a = Ok t_ba -> read_step p fs a b = Ok t_ab ->
      forall fuel, accumulate fuel p fs a = None).
Proof.
  unfold Chain.accumulate. split; [|split; [|split]].
  - intros fuel i H.
    assert (E : Nat.eqb (GetPredecessorArray i) NO_PATH
                || Nat.eqb (GetPredecessorArray i) i = true).
    { apply orb_true_iff. rewrite !Nat.eqb_eq. tauto. }
    destruct fuel; cbn [Chain.traverse]; now rewrite E.
  - intros fuel i t_step A H1 H2 Hr HA.
    cbn [Chain.traverse].
    apply Nat.eqb_neq in H1, H2. rewrite H1, H2. cbn [orb]. rewrite Hr.
    apply (traverse_left _ _ _ _ _ _ _ HA t_step).
    apply meq_trans with t_step; [apply mmul_identity_l|].
    destruct (meq_elim _ _ (mmul_identity_r t_step)) as (?&?&?&?&?&?&?&?&?).
    apply meq_intro; symmetry; assumption.
  - intros fuel i e H1 H2 Hr. cbn [Chain.traverse].
    apply Nat.eqb_neq in H1, H2. rewrite H1, H2. cbn [orb]. now rewrite Hr.
  - intros a b t_ab t_ba Hab Ha Hb Epa Epb Hba Hab' fuel. rewrite Epa.
    assert (H : forall t, traverse fuel p fs a b t = None /\
                          traverse fuel p fs b a t = None).
    { apply Nat.eqb_neq in Ha, Hb. pose proof Hab as Hba'.
      apply Nat.eqb_neq in Hab. apply not_eq_sym, Nat.eqb_neq in Hba'.
      induction fuel as [|fuel IH]; intros t; cbn [Chain.traverse];
        rewrite Ha, Hb, Hab, Hba'; cbn [orb]; [auto|].
      rewrite Hba, Hab', Epa, Epb. split; apply IH. }
    apply H.
Qed.

End Paths.

Lemma accumulate_along_path_witness :
  exists R,
    accumulate 99 (fun _ => 1%nat) 1 Neighbors.three_slides sample_pair_files 0
    = Some (Ok R) /\
    meq R (mmul (mat3 0 (-1) 5 1 0 7 0 0 1) identity).
Proof.
  apply (proj1 (proj2 (accumulate_along_path 99 (fun _ => 1%nat)
                         Neighbors.three_slides sample_pair_files))
           0%nat 0%nat (mat3 0 (-1) 5 1 0 7 0 0 1) identity);
    first [discriminate | reflexivity].
Defined.


End ChainFacts.

(** ** [PerLevelSpec] *)

Module PerLevelFacts.
Import PerLevel.

Section Atomic.
Variable TAtomic : Type.
Variable Aeq : TAtomic -> TAtomic -> bool.
Variable Aneq : TAtomic -> TAtomic -> bool.

#[local] Abbreviation spec := (PerLevelSpec TAtomic).

(** X20. [CheckSize] guards [operator []]: when [CheckSize (n_Levels)]
    holds, [operator []] returns a value, and does not throw, at every
    level below [n_Levels]. *)
Theorem CheckSize_at_level (s : spec) (n_Levels : nat) :
  CheckSize TAtomic s n_Levels = true ->
  forall pos, (pos < n_Levels)%nat ->
    exists v, at_level TAtomic s pos = Ok v.
Proof.
  unfold CheckSize, at_level. intros H pos Hpos.
  destruct (m_UseCommon TAtomic s); [eauto|]. simpl in H.
  apply Nat.eqb_eq in H. subst n_Levels.
  destruct (nth_error (m_ValueArray TAtomic s) pos) as [v|] eqn:E; [eauto|].
  apply nth_error_None in E. lia.
Qed.

(** X21. Assigning a vector to a [PerLevelSpec]: a vector of one element
    is broadcast, [operator []] returns that element at every level; any
    other vector is read by position, and levels outside the vector
    throw; and [CheckSize (n_Levels)] then holds exactly when the vector
    has one element or [n_Levels] elements. *)
Theorem at_level_assign_vector (s : spec) (per_level_value : list TAtomic)
  (pos : nat) :
  (forall value, per_level_value = [value] ->
     at_level TAtomic (assign_vector TAtomic s per_level_value) pos = Ok value) /\
  (List.length per_level_value <> 1%nat ->
     at_level TAtomic (assign_vector TAtomic s per_level_value) pos
     = match nth_error per_level_value pos with
       | Some v => Ok v
       | None => Throw LibraryException
       end) /\
  (forall n_Levels,
     CheckSize TAtomic (assign_vector TAtomic s per_level_value) n_Levels = true
     <-> List.length per_level_value = 1%nat \/
         List.length per_level_value = n_Levels).
Proof.
  split; [|split].
  - intros value ->. reflexivity.
  - intros H. destruct per_level_value as [|x [|y l]]; try reflexivity.
    now elim H.
  - intros n. destruct per_level_value as [|x [|y l]]; unfold CheckSize;
      cbn [assign_vector assign_value m_UseCommon m_ValueArray orb].
    + rewrite Nat.eqb_eq. simpl. intuition discriminate.
    + simpl. tauto.
    + rewrite Nat.eqb_eq. simpl. intuition discriminate.
Qed.

(** X22. [operator !=] of a [PerLevelSpec] that uses its common value
    never reports a difference when the value does not differ from itself
    (which every number other than a NaN satisfies): against another
    common value the first branch compares [m_CommonValue] with itself,
    and against a per-level vector the answer is false. *)
Theorem differs_common (s other : spec) :
  m_UseCommon TAtomic s = true ->
  Aneq (m_CommonValue TAtomic s) (m_CommonValue TAtomic s) = false ->
  differs TAtomic Aeq Aneq s other = false.
Proof.
  unfold differs. intros -> ->. simpl. now destruct (m_UseCommon TAtomic other).
Qed.

End Atomic.

Lemma CheckSize_at_level_witness :
  exists v,
    at_level Q (assign_vector Q (new_PerLevelSpec Q 0%Q) [1; 2; 3]%Q) 1 = Ok v.
Proof.
  apply (CheckSize_at_level Q (assign_vector Q (new_PerLevelSpec Q 0%Q) [1; 2; 3]%Q)
           3 eq_refl 1).
  repeat constructor.
Defined.

Lemma differs_common_witness :
  differs Q Qeq_bool Qneqb
    (assign_value Q (new_PerLevelSpec Q 0%Q) 1%Q)
    (assign_value Q (new_PerLevelSpec Q 0%Q) 2%Q) = false.
Proof.
  apply (differs_common Q Qeq_bool Qneqb); reflexivity.
Defined.

End PerLevelFacts.
